(** * Source-map chaining and stack-trace translation

    A shallow embedding of [demo-translator.cjs] (the stack frame parser
    and trace resolver) and of [scripts/chain-sourcemaps.cjs] (the map
    composer), together with a model of the mapping codec the two scripts
    obtain from the [source-map] package.

    JavaScript strings are modelled as [string]: sequences of code units
    below 256.  [null] and [undefined] are modelled by [None]. *)

From Stdlib Require Import ZArith String Ascii List Lia Bool.
From stdpp Require Import base option list gmap strings.

Open Scope string_scope.
Open Scope list_scope.
Open Scope Z_scope.

(** ** JavaScript string primitives used by the scripts *)

Module JS.

(** White space and line terminators, as matched by [\s] and removed by
    [String.prototype.trim]: TAB, LF, VT, FF, CR, SPACE and NBSP. *)
Definition is_space (c : ascii) : bool :=
  let n := nat_of_ascii c in
  ((9 <=? n)%nat && (n <=? 13)%nat) || (n =? 32)%nat || (n =? 160)%nat.

(** [\d] *)
Definition is_digit (c : ascii) : bool :=
  let n := nat_of_ascii c in (48 <=? n)%nat && (n <=? 57)%nat.

(** [.] without the [s] flag: every code unit except LF and CR. *)
Definition is_dot (c : ascii) : bool :=
  let n := nat_of_ascii c in negb ((n =? 10)%nat || (n =? 13)%nat).

Fixpoint trimStart (s : string) : string :=
  match s with
  | String c s' => if is_space c then trimStart s' else s
  | EmptyString => EmptyString
  end.

(** [trimEnd] keeps a character when something other than white space
    follows it or when it is not white space itself. *)
Fixpoint trimEnd (s : string) : string :=
  match s with
  | String c s' =>
      match trimEnd s' with
      | EmptyString => if is_space c then EmptyString else String c EmptyString
      | t => String c t
      end
  | EmptyString => EmptyString
  end.

Definition trim (s : string) : string := trimEnd (trimStart s).

(** [s.split('\n')]: always at least one piece. *)
Fixpoint split (sep : ascii) (s : string) : list string :=
  match s with
  | EmptyString => [EmptyString]
  | String c s' =>
      if Ascii.eqb c sep then EmptyString :: split sep s'
      else match split sep s' with
           | piece :: rest => String c piece :: rest
           | [] => [String c EmptyString]
           end
  end.

Definition startsWith (s p : string) : bool := String.prefix p s.

Fixpoint endsWith (s suffix : string) : bool :=
  String.eqb s suffix ||
  match s with
  | String _ s' => endsWith s' suffix
  | EmptyString => false
  end.

(** [s.replace(pat, rep)] with a string pattern: only the first
    occurrence is replaced ([rep] holds no [$] here). *)
Fixpoint replace (pat rep s : string) : string :=
  if String.prefix pat s
  then rep +:+ substring (String.length pat) (String.length s - String.length pat) s
  else match s with
       | String c s' => String c (replace pat rep s')
       | EmptyString => EmptyString
       end.

(** [s.indexOf(pat)], [None] standing for [-1]. *)
Fixpoint indexOf (s pat : string) : option nat :=
  if String.prefix pat s then Some 0%nat
  else match s with
       | String _ s' => S <$> indexOf s' pat
       | EmptyString => None
       end.

(** [s.substring(from)] *)
Definition substringFrom (from : nat) (s : string) : string :=
  substring from (String.length s - from) s.

(** Truthiness of a nullable string: [null], [undefined] and the empty
    string are falsy. *)
Definition truthy (o : option string) : bool :=
  match o with
  | Some EmptyString | None => false
  | Some _ => true
  end.

(** [a || b] on nullable strings. *)
Definition or_else (a b : option string) : option string :=
  if truthy a then a else b.

(** [parseInt(s, 10)] on a string of decimal digits.  Numbers are kept
    exact (JavaScript rounds above 2^53). *)
Definition digit_val (c : ascii) : Z := Z.of_nat (nat_of_ascii c) - 48.

Fixpoint parseInt_acc (acc : Z) (s : string) : Z :=
  match s with
  | String c s' => if is_digit c then parseInt_acc (10 * acc + digit_val c) s' else acc
  | EmptyString => acc
  end.

Definition parseInt (s : string) : Z := parseInt_acc 0 s.

(** Shapes of strings, used to state what the frame pattern accepts. *)
Fixpoint all_in (cls : ascii -> bool) (s : string) : bool :=
  match s with
  | String c s' => cls c && all_in cls s'
  | EmptyString => true
  end.

Definition head_in (cls : ascii -> bool) (s : string) : bool :=
  match s with
  | String c _ => cls c
  | EmptyString => false
  end.

(** no [:] of [s] is directly followed by a digit *)
Fixpoint colon_digit_free (s : string) : bool :=
  match s with
  | String c s' => negb (Ascii.eqb c ":" && head_in is_digit s') && colon_digit_free s'
  | EmptyString => true
  end.

Definition not_paren (c : ascii) : bool := negb (Ascii.eqb c "(").

End JS.

(** ** The fragment of regular expressions used by the frame pattern

    A backtracking matcher in continuation-passing style: each
    construct tries its alternatives in the priority order of the
    ECMAScript semantics and hands the rest of the input to the
    continuation; a failing continuation makes it try the next
    alternative. *)

Module Regex.

Inductive regex : Type :=
| Lit (s : string)                    (* literal characters *)
| PlusGreedy (cls : ascii -> bool)    (* [c+]  *)
| PlusLazy (cls : ascii -> bool)      (* [c+?] *)
| Group (n : nat) (r : regex)         (* capturing group number [n] *)
| NonCapture (r : regex)              (* [(?:r)] *)
| Opt (r : regex)                     (* [r?], greedy *)
| Seq (r1 r2 : regex).

Abbreviation captures := (gmap nat string).

Section Matcher.
Context {R : Type}.

Fixpoint lit (p s : string) (k : string -> option R) : option R :=
  match p with
  | EmptyString => k s
  | String a p' =>
      match s with
      | String c s' => if Ascii.eqb a c then lit p' s' k else None
      | EmptyString => None
      end
  end.

(** longest run first, then shorter ones *)
Fixpoint plus_greedy (cls : ascii -> bool) (s : string) (k : string -> option R) : option R :=
  match s with
  | String c s' =>
      if cls c then
        match plus_greedy cls s' k with
        | Some r => Some r
        | None => k s'
        end
      else None
  | EmptyString => None
  end.

(** shortest run first, then longer ones *)
Fixpoint plus_lazy (cls : ascii -> bool) (s : string) (k : string -> option R) : option R :=
  match s with
  | String c s' =>
      if cls c then
        match k s' with
        | Some r => Some r
        | None => plus_lazy cls s' k
        end
      else None
  | EmptyString => None
  end.

(** the characters of [s] consumed when [rest] is what remains *)
Definition consumed (s rest : string) : string :=
  substring 0 (String.length s - String.length rest) s.

Fixpoint run (r : regex) (s : string) (caps : captures)
    (k : string -> captures -> option R) : option R :=
  match r with
  | Lit p => lit p s (fun s' => k s' caps)
  | PlusGreedy cls => plus_greedy cls s (fun s' => k s' caps)
  | PlusLazy cls => plus_lazy cls s (fun s' => k s' caps)
  | Group n r' => run r' s caps (fun s' caps' => k s' (<[n := consumed s s']> caps'))
  | NonCapture r' => run r' s caps k
  | Opt r' =>
      match run r' s caps k with
      | Some x => Some x
      | None => k s caps
      end
  | Seq r1 r2 => run r1 s caps (fun s' caps' => run r2 s' caps' k)
  end.
End Matcher.

(** [s.match(r)] without the [g] flag: the leftmost start position at
    which the pattern matches; the result holds the capture groups. *)
Fixpoint exec (r : regex) (s : string) : option captures :=
  match run r s ∅ (fun _ caps => Some caps) with
  | Some caps => Some caps
  | None =>
      match s with
      | String _ s' => exec r s'
      | EmptyString => None
      end
  end.

End Regex.

(** ** Effects: exceptions and the trace of external calls

    Code that may throw runs in [M]: a computation yields the list of
    external calls it made, in order, and either the thrown error (its
    [message]) or a value. *)

Module Eff.

Definition Exn : Type := string.

Inductive Event : Type :=
| EvExists (path : string)                 (* fs.existsSync *)
| EvRead (path : string)                   (* fs.readFileSync *)
| EvQuery (line column : option Z)         (* consumer.originalPositionFor *)
| EvWrite (path content : string)          (* fs.writeFileSync *)
| EvConsoleError (message : string).       (* console.error *)

Definition M (A : Type) : Type := list Event * (Exn + A).

Definition ret {A} (a : A) : M A := ([], inr a).

Definition throw {A} (e : Exn) : M A := ([], inl e).

Definition bind {A B} (m : M A) (f : A -> M B) : M B :=
  match m with
  | (log, inl e) => (log, inl e)
  | (log, inr a) => let '(log', r) := f a in ((log ++ log')%list, r)
  end.

(** [try { m } catch (error) { h error }] *)
Definition try_catch {A} (m : M A) (h : Exn -> M A) : M A :=
  match m with
  | (log, inl e) => let '(log', r) := h e in ((log ++ log')%list, r)
  | (log, inr a) => (log, inr a)
  end.

(** an external call that is recorded and may throw *)
Definition call {A} (ev : Event) (r : Exn + A) : M A := ([ev], r).

(** the positions asked of a consumer, in order *)
Definition queries (log : list Event) : list (option Z * option Z) :=
  omap (fun ev => match ev with EvQuery l c => Some (l, c) | _ => None end) log.

Definition trace {A} (m : M A) : list Event := fst m.
Definition outcome {A} (m : M A) : Exn + A := snd m.

End Eff.

Declare Scope eff_scope.
Delimit Scope eff_scope with eff.
Notation "x <- m ;; k" := (Eff.bind m (fun x => k))
  (at level 100, m at next level, right associativity) : eff_scope.
Notation "m ;;; k" := (Eff.bind m (fun _ => k))
  (at level 100, right associativity) : eff_scope.

(** ** What the scripts obtain from the [source-map] package *)

Module SourceMap.
Import Eff.

(** The result of [originalPositionFor]; all four fields are [null]
    when the position is not mapped. *)
Record OriginalPosition : Type := {
  op_source : option string;
  op_line : option Z;
  op_column : option Z;
  op_name : option string;
}.

(** One mapping as handed to the callback of [eachMapping]. *)
Record Mapping : Type := {
  source : option string;
  generatedLine : Z;
  generatedColumn : Z;
  originalLine : option Z;
  originalColumn : option Z;
  name : option string;
}.

(** A [SourceMapConsumer], seen through the members the scripts use.
    [originalPositionFor] throws on arguments it rejects. *)
Record Consumer : Type := {
  originalPositionFor : option Z -> option Z -> Exn + OriginalPosition;
  eachMapping : list Mapping;
  sources : list string;
  sourcesContent : option (list (option string));
}.

Definition query (c : Consumer) (line column : option Z) : M OriginalPosition :=
  call (EvQuery line column) (originalPositionFor c line column).

End SourceMap.

(** ** demo-translator.cjs *)

Module Translator.
Import JS Regex Eff SourceMap.
Local Open Scope eff_scope.

(** [/at\s+(?:(.+?)\s+\()?(.+?):(\d+):(\d+)\)?/] *)
Definition frame_re : regex :=
  Seq (Lit "at")
 (Seq (PlusGreedy is_space)
 (Seq (Opt (NonCapture (Seq (Group 1 (PlusLazy is_dot))
                       (Seq (PlusGreedy is_space) (Lit "(")))))
 (Seq (Group 2 (PlusLazy is_dot))
 (Seq (Lit ":")
 (Seq (Group 3 (PlusGreedy is_digit))
 (Seq (Lit ":")
 (Seq (Group 4 (PlusGreedy is_digit))
      (Opt (Lit ")"))))))))).

(** Node's [path] and [fs] modules and the consumer constructor, as far
    as [translateStackTrace] uses them.  [fs.existsSync] never throws. *)
Record World : Type := {
  path_isAbsolute : string -> bool;
  path_basename : string -> string;
  path_dirname : string -> string;
  path_join : list string -> string;
  fs_existsSync : string -> bool;
  fs_readFileSync : string -> Exn + string;
  newSourceMapConsumer : string -> Exn + Consumer;
}.

Record Translated : Type := {
  t_file : option string;
  t_line : option Z;
  t_column : option Z;
  t_name : string;
  t_sourceCode : option string;
}.

Record Obfuscated : Type := {
  o_file : string;
  o_line : Z;
  o_column : Z;
}.

(** One element of the array [translateStackTrace] returns; a key the
    script leaves out is [None]. *)
Record Entry : Type := {
  original : string;
  translated : option Translated;
  obfuscated : option Obfuscated;
  error : option string;
}.

(** [x ? f(x) : d] for a nullable string [x] *)
Definition cond {A} (x : option string) (f : string -> A) (d : A) : A :=
  match x with
  | Some (String _ _ as s) => f s
  | _ => d
  end.

(** [array.indexOf(x)] *)
Fixpoint list_indexOf (l : list string) (x : string) : option nat :=
  match l with
  | [] => None
  | y :: l' => if String.eqb y x then Some 0%nat else S <$> list_indexOf l' x
  end.

(** [array[i]] for a number [i] *)
Definition at_index {A} (l : list A) (i : Z) : option A :=
  if i <? 0 then None else l !! Z.to_nat i.

(** lines 46-73: where the mapping document of [filePath] is looked for *)
Definition sourceMapPath (w : World) (distDir filePath : string) : string :=
  if path_isAbsolute w filePath then
    match indexOf filePath "dist" with
    | Some distIndex =>
        let relativeFromDist := substringFrom (distIndex + 5) filePath in
        let jsFileName := path_basename w relativeFromDist in
        let dirPath := path_dirname w relativeFromDist in
        path_join w [distDir; dirPath; jsFileName +:+ ".map"]
    | None =>
        let jsFileName := path_basename w filePath in
        path_join w [distDir; jsFileName +:+ ".map"]
    end
  else
    let jsFileName := path_basename w filePath in
    let jsFileName :=
      if endsWith jsFileName ".ts" then replace ".ts" ".js" jsFileName
      else jsFileName in
    path_join w [distDir; jsFileName +:+ ".map"].

(** lines 81-91: the exact position, then column 0 of the same line *)
Definition lookup (consumer : Consumer) (lineNum column : Z) : M OriginalPosition :=
  originalPosition <- query consumer (Some lineNum) (Some column) ;;
  if negb (truthy (op_source originalPosition)) && (0 <? column)
  then query consumer (Some lineNum) (Some 0)
  else ret originalPosition.

(** lines 94-103 *)
Definition sourceCodeLine (consumer : Consumer) (originalPosition : OriginalPosition)
    : option string :=
  match sourcesContent consumer with
  | Some contents =>
      match op_source originalPosition ≫= list_indexOf (sources consumer) with
      | Some sourceIndex =>
          match contents !! sourceIndex with
          | Some (Some (String _ _ as content)) =>
              let sourceLines := split "010" content in
              match op_line originalPosition with
              | Some l =>
                  if l =? 0 then None
                  else cond (at_index sourceLines (l - 1)) (fun s => Some (trim s)) None
              | None => None
              end
          | _ => None
          end
      | None => None
      end
  | None => None
  end.

(** lines 105-109 *)
Definition displayName (originalPosition : OriginalPosition) (functionName : string)
    : string :=
  cond (op_name originalPosition)
       (fun n => if negb (startsWith n "_0x") then n else functionName)
       functionName.

Definition push (results : list Entry) (e : Entry) : list Entry := results ++ [e].

(** lines 76-148: a frame with a location.  [consumer.destroy()] frees
    the consumer and has no other effect; it is left out. *)
Definition translateFrame (w : World) (distDir : string) (results : list Entry)
    (line functionName filePath : string) (lineNum column : Z) : M (list Entry) :=
  let sourceMapPath := sourceMapPath w distDir filePath in
  found <- call (EvExists sourceMapPath) (inr (fs_existsSync w sourceMapPath)) ;;
  if found : bool then
    try_catch
      (sourceMapContent <- call (EvRead sourceMapPath) (fs_readFileSync w sourceMapPath) ;;
       consumer <- ([], newSourceMapConsumer w sourceMapContent) ;;
       originalPosition <- lookup consumer lineNum column ;;
       if truthy (op_source originalPosition) then
         ret (push results
           {| original := line;
              translated := Some
                {| t_file := op_source originalPosition;
                   t_line := op_line originalPosition;
                   t_column := op_column originalPosition;
                   t_name := displayName originalPosition functionName;
                   t_sourceCode := sourceCodeLine consumer originalPosition |};
              obfuscated := Some
                {| o_file := filePath; o_line := lineNum; o_column := column |};
              error := None |})
       else
         ret (push results
           {| original := line; translated := None; obfuscated := None;
              error := Some "No original position found in source map" |}))
      (fun error =>
         ret (push results
           {| original := line; translated := None; obfuscated := None;
              error := Some ("Error reading source map: " +:+ error) |}))
  else
    ret (push results
      {| original := line; translated := None; obfuscated := None;
         error := Some ("Source map not found: " +:+ sourceMapPath) |}).

(** lines 39-42: the fields of a match *)
Definition functionName (m : captures) : string :=
  cond (m !! 1%nat) trim "<anonymous>".
Definition filePath (m : captures) : option string :=
  cond (m !! 2%nat) (fun s => Some (trim s)) None.
Definition lineNum (m : captures) : option Z :=
  cond (m !! 3%nat) (fun s => Some (parseInt s)) None.
Definition column (m : captures) : option Z :=
  cond (m !! 4%nat) (fun s => Some (parseInt s)) None.

(** lines 29-163: the body of the loop over the lines *)
Definition translateLine (w : World) (distDir : string) (results : list Entry)
    (line : string) : M (list Entry) :=
  let trimmedLine := trim line in
  match exec frame_re trimmedLine with
  | Some m =>
      match filePath m, lineNum m, column m with
      | Some (String _ _ as filePath), Some lineNum, Some column =>
          translateFrame w distDir results line (functionName m) filePath lineNum column
      | _, _, _ =>
          ret (push results
            {| original := line; translated := None; obfuscated := None; error := None |})
      end
  | None =>
      ret (push results
        {| original := line; translated := None; obfuscated := None; error := None |})
  end.

Fixpoint forLines (w : World) (distDir : string) (lines : list string)
    (results : list Entry) : M (list Entry) :=
  match lines with
  | [] => ret results
  | line :: rest =>
      results' <- translateLine w distDir results line ;;
      forLines w distDir rest results'
  end.

Definition translateStackTrace (w : World) (stackTrace distDir : string) : M (list Entry) :=
  forLines w distDir (split "010" stackTrace) [].

(** Shorthands for the three kinds of entries. *)
Definition plain (line : string) : Entry :=
  {| original := line; translated := None; obfuscated := None; error := None |}.

Definition success (line fn fp : string) (ln col : Z) (consumer : Consumer)
    (p : OriginalPosition) : Entry :=
  {| original := line;
     translated := Some
       {| t_file := op_source p; t_line := op_line p; t_column := op_column p;
          t_name := displayName p fn; t_sourceCode := sourceCodeLine consumer p |};
     obfuscated := Some {| o_file := fp; o_line := ln; o_column := col |};
     error := None |}.

Definition failure (line reason : string) : Entry :=
  {| original := line; translated := None; obfuscated := None; error := Some reason |}.

(** What a frame contributes once its mapping document is loaded. *)
Definition resolved (line fn fp : string) (ln col : Z) (consumer : Consumer)
    (r : Exn + OriginalPosition) : Entry :=
  match r with
  | inl e => failure line ("Error reading source map: " +:+ e)
  | inr p =>
      if truthy (op_source p) then success line fn fp ln col consumer p
      else failure line "No original position found in source map"
  end.

End Translator.

(** ** scripts/chain-sourcemaps.cjs

    The script the build runs as [node scripts/chain-sourcemaps.cjs]; its
    text is the second file of [src/unnamed/part_000], whose line numbers
    are the ones given below. *)

Module Chain.
Import JS Eff SourceMap.
Local Open Scope eff_scope.

(** A parsed mapping document, as far as the script reads it. *)
Record MapContent : Type := {
  mc_file : option string;
  mc_sources : list string;
  mc_sourcesContent : option (list (option string));
}.

(** The argument of [generator.addMapping]. *)
Record NewMapping : Type := {
  generated : Z * Z;                       (* line, column *)
  original : option Z * option Z;          (* line, column *)
  nm_source : option string;
  nm_name : option string;
}.

(** A [SourceMapGenerator]: it records what it is given. *)
Record Generator : Type := {
  _file : string;
  _sourcesContents : gmap string string;
  _mappings : list NewMapping;
}.

Definition newGenerator (file : string) : Generator :=
  {| _file := file; _sourcesContents := ∅; _mappings := [] |}.

(** [setSourceContent(source, content)]: a [null] or [undefined]
    content removes the entry. *)
Definition setSourceContent (g : Generator) (source : string) (content : option string)
    : Generator :=
  {| _file := _file g;
     _sourcesContents :=
       match content with
       | Some c => <[source := c]> (_sourcesContents g)
       | None => delete source (_sourcesContents g)
       end;
     _mappings := _mappings g |}.

Definition addMapping (g : Generator) (m : NewMapping) : Generator :=
  {| _file := _file g;
     _sourcesContents := _sourcesContents g;
     _mappings := _mappings g ++ [m] |}.

(** Node's [path], [fs] and [JSON] and the [source-map] package.  Reads
    are a function of the path: the script writes only the composed
    maps, each to a path it does not read afterwards. *)
Record World : Type := {
  path_dirname : string -> string;
  path_resolve : list string -> string;
  path_basename : string -> string;
  path_basename_ext : string -> string -> string;
  path_relative : string -> string -> string;
  path_join : list string -> string;
  fs_existsSync : string -> bool;
  fs_readFileSync : string -> Exn + string;
  fs_writeFileSync : string -> string -> Exn + unit;
  JSON_parse : string -> Exn + MapContent;
  newSourceMapConsumer : MapContent -> Exn + Consumer;
  generator_toString : Generator -> string;
}.

(** lines 124-138: the content of one source, read from the file system *)
Definition readSourceContent (w : World) (tsSourceMapPath : string) (generator : Generator)
    (source : string) : M Generator :=
  try_catch
    (let sourceMapDir := path_dirname w tsSourceMapPath in
     let sourceFilePath := path_resolve w [sourceMapDir; source] in
     found <- call (EvExists sourceFilePath) (inr (fs_existsSync w sourceFilePath)) ;;
     if found : bool then
       sourceContent <- call (EvRead sourceFilePath) (fs_readFileSync w sourceFilePath) ;;
       ret (setSourceContent generator source (Some sourceContent))
     else ret generator)
    (fun error =>
       call (EvConsoleError ("    ⚠️  Could not read source: " +:+ source)) (inr generator)).

Fixpoint forEachSource (w : World) (tsSourceMapPath : string) (sources : list string)
    (generator : Generator) : M Generator :=
  match sources with
  | [] => ret generator
  | source :: rest =>
      generator' <- readSourceContent w tsSourceMapPath generator source ;;
      forEachSource w tsSourceMapPath rest generator'
  end.

(** lines 119-121: [sources.forEach((source, index) => ...)] *)
Fixpoint forEachEmbedded (contents : list (option string)) (sources : list string)
    (index : nat) (generator : Generator) : Generator :=
  match sources with
  | [] => generator
  | source :: rest =>
      forEachEmbedded contents rest (S index)
        (setSourceContent generator source (mjoin (contents !! index)))
  end.

(** lines 117-139 *)
Definition addSourceContents (w : World) (tsSourceMapPath : string)
    (tsMapContent : MapContent) (generator : Generator) : M Generator :=
  match mc_sourcesContent tsMapContent with
  | Some contents => ret (forEachEmbedded contents (mc_sources tsMapContent) 0 generator)
  | None => forEachSource w tsSourceMapPath (mc_sources tsMapContent) generator
  end.

(** lines 142-173: the callback given to [obfConsumer.eachMapping] *)
Definition chainMapping (tsConsumer : Consumer) (generator : Generator) (mapping : Mapping)
    : M Generator :=
  if negb (truthy (source mapping)) then ret generator
  else
    originalPosition <-
      query tsConsumer (originalLine mapping) (originalColumn mapping) ;;
    if truthy (op_source originalPosition) then
      let finalName := or_else (op_name originalPosition) (name mapping) in
      ret (addMapping generator
        {| generated := (generatedLine mapping, generatedColumn mapping);
           original := (op_line originalPosition, op_column originalPosition);
           nm_source := op_source originalPosition;
           nm_name := finalName |})
    else ret generator.

Fixpoint forEachMapping (tsConsumer : Consumer) (mappings : list Mapping)
    (generator : Generator) : M Generator :=
  match mappings with
  | [] => ret generator
  | mapping :: rest =>
      generator' <- chainMapping tsConsumer generator mapping ;;
      forEachMapping tsConsumer rest generator'
  end.

(** lines 104-173: the body of the [try] up to the composed generator
    (the two calls of [destroy] free the consumers and are left out) *)
Definition chainGenerator (w : World) (tsSourceMapPath obfSourceMapPath : string)
    : M Generator :=
  tsText <- call (EvRead tsSourceMapPath) (fs_readFileSync w tsSourceMapPath) ;;
  tsMapContent <- ([], JSON_parse w tsText) ;;
  obfText <- call (EvRead obfSourceMapPath) (fs_readFileSync w obfSourceMapPath) ;;
  obfMapContent <- ([], JSON_parse w obfText) ;;
  tsConsumer <- ([], newSourceMapConsumer w tsMapContent) ;;
  obfConsumer <- ([], newSourceMapConsumer w obfMapContent) ;;
  let generator :=
    newGenerator
      (match mc_file obfMapContent with
       | Some (String _ _ as f) => f
       | _ => path_basename_ext w obfSourceMapPath ".map"
       end) in
  generator <- addSourceContents w tsSourceMapPath tsMapContent generator ;;
  forEachMapping tsConsumer (eachMapping obfConsumer) generator.

(** lines 102-183; [None] is the [null] returned from the [catch] *)
Definition chainSourceMaps (w : World) (tsSourceMapPath obfSourceMapPath : string)
    : M (option string) :=
  try_catch
    (generator <- chainGenerator w tsSourceMapPath obfSourceMapPath ;;
     ret (Some (generator_toString w generator)))
    (fun error =>
       call (EvConsoleError ("  ⚠️  Failed to chain " +:+ path_basename w tsSourceMapPath
                             +:+ ": " +:+ error)) (inr None)).

Definition DIST_DIR : string := "./dist".
Definition TS_BACKUP_DIR : string := "./dist-sourcemaps-backup".

(** lines 207-228: the body of the loop of [main]; the state is
    [(chainedCount, failedCount)] *)
Definition chainFile (w : World) (counts : Z * Z) (tsMapPath : string) : M (Z * Z) :=
  let '(chainedCount, failedCount) := counts in
  let relativePath := path_relative w TS_BACKUP_DIR tsMapPath in
  let obfMapPath := path_join w [DIST_DIR; relativePath] in
  found <- call (EvExists obfMapPath) (inr (fs_existsSync w obfMapPath)) ;;
  if negb found then
    call (EvConsoleError ("  ⚠️  Obfuscated map not found: " +:+ relativePath)) (inr tt) ;;;
    ret (chainedCount, failedCount + 1)
  else
    chainedMap <- chainSourceMaps w tsMapPath obfMapPath ;;
    match chainedMap with
    | Some (String _ _ as chainedMap) =>
        call (EvWrite obfMapPath chainedMap) (fs_writeFileSync w obfMapPath chainedMap) ;;;
        ret (chainedCount + 1, failedCount)
    | _ => ret (chainedCount, failedCount + 1)
    end.

Fixpoint forMapFiles (w : World) (tsMapFiles : list string) (counts : Z * Z) : M (Z * Z) :=
  match tsMapFiles with
  | [] => ret counts
  | tsMapPath :: rest =>
      counts' <- chainFile w counts tsMapPath ;;
      forMapFiles w rest counts'
  end.

(** the resolver answers, with a position or a miss, for every segment
    it is asked about *)
Definition answers (tsConsumer : Consumer) (mappings : list Mapping) : Prop :=
  forall m, m ∈ mappings -> truthy (source m) = true ->
    exists p, originalPositionFor tsConsumer (originalLine m) (originalColumn m) = inr p.

(** both documents are read and parsed, and a consumer is built of each *)
Definition loads (w : World) (tsSourceMapPath obfSourceMapPath : string)
    (tsMapContent obfMapContent : MapContent) (tsConsumer obfConsumer : Consumer) : Prop :=
  exists tsText obfText,
    fs_readFileSync w tsSourceMapPath = inr tsText
    /\ JSON_parse w tsText = inr tsMapContent
    /\ fs_readFileSync w obfSourceMapPath = inr obfText
    /\ JSON_parse w obfText = inr obfMapContent
    /\ newSourceMapConsumer w tsMapContent = inr tsConsumer
    /\ newSourceMapConsumer w obfMapContent = inr obfConsumer.

(** the segment is one the composition drops *)
Definition dropped (tsConsumer : Consumer) (m : Mapping) : Prop :=
  truthy (source m) = false
  \/ exists p, originalPositionFor tsConsumer (originalLine m) (originalColumn m) = inr p
               /\ truthy (op_source p) = false.

End Chain.

(** ** The position resolver *)

Module Resolver.
Import JS Eff SourceMap.

(** [m] lies on line [line], at or before [column], and carries an
    original position *)
Definition covers (line column : Z) (m : Mapping) : bool :=
  (generatedLine m =? line) && (generatedColumn m <=? column) && bool_decide (is_Some (source m)).

(** Modelled from the spec: the [originalPositionFor] of the
    [source-map] package, which is not part of the repository.  A position
    maps to the nearest preceding segment on the same line that carries an
    original position, the first one among segments at the same column;
    with no such segment on the line the resolution fails. *)
Fixpoint nearest (line column : Z) (best : option Mapping) (segments : list Mapping)
    : option Mapping :=
  match segments with
  | [] => best
  | m :: rest =>
      if covers line column m then
        match best with
        | Some b =>
            if generatedColumn b <? generatedColumn m
            then nearest line column (Some m) rest
            else nearest line column best rest
        | None => nearest line column (Some m) rest
        end
      else nearest line column best rest
  end.

Definition notFound : OriginalPosition :=
  {| op_source := None; op_line := None; op_column := None; op_name := None |}.

(** Modelled from the spec: [resolve(line, column)] returns either a
    fully populated original position with its source and optional name,
    or a not-found result; it never throws. *)
Definition resolve (segments : list Mapping) (line column : option Z) : OriginalPosition :=
  match line, column with
  | Some line, Some column =>
      match nearest line column None segments with
      | Some m =>
          {| op_source := source m; op_line := originalLine m;
             op_column := originalColumn m; op_name := name m |}
      | None => notFound
      end
  | _, _ => notFound
  end.

(** Modelled from the spec: a consumer over decoded segments, with the
    sources table and the embedded contents of its document. *)
Definition consumerOf (segments : list Mapping) (srcs : list string)
    (contents : option (list (option string))) : Consumer :=
  {| originalPositionFor := fun line column => inr (resolve segments line column);
     eachMapping := segments;
     sources := srcs;
     sourcesContent := contents |}.

(** Modelled from the spec: the segments of the document a generator
    emits, as a consumer of that document hands them out. *)
Definition asSegments (mappings : list Chain.NewMapping) : list Mapping :=
  (fun m =>
     {| source := Chain.nm_source m;
        generatedLine := fst (Chain.generated m);
        generatedColumn := snd (Chain.generated m);
        originalLine := fst (Chain.original m);
        originalColumn := snd (Chain.original m);
        name := Chain.nm_name m |}) <$> mappings.

End Resolver.

(** ** A small world to run the scripts in

    One composed map, [./sourcemaps/user.js.map], and the two maps of the
    same artifact before they are chained.  The path functions treat
    plain [/]-separated names only. *)

Module Demo.
Import JS Eff SourceMap.

Definition isAbsolute (p : string) : bool := String.prefix "/" p.

Definition basename (p : string) : string := List.last (split "/" p) "".

Fixpoint join (parts : list string) : string :=
  match parts with
  | [] => "."
  | [p] => p
  | p :: rest => p +:+ "/" +:+ join rest
  end.

Definition dirname (p : string) : string :=
  match removelast (split "/" p) with
  | [] => "."
  | parts => join parts
  end.

(** stage0 -> stage1: [user.js] 5:10 comes from [user.ts] 2:3 *)
Definition segmentsA : list Mapping :=
  [ {| source := Some "user.ts"; generatedLine := 5; generatedColumn := 10;
       originalLine := Some 2; originalColumn := Some 3;
       name := Some "userController" |} ].

(** stage1 -> stage2: the obfuscated 98:19 comes from [user.js] 5:10 *)
Definition segmentsB : list Mapping :=
  [ {| source := Some "user.js"; generatedLine := 98; generatedColumn := 19;
       originalLine := Some 5; originalColumn := Some 10;
       name := Some "_0x3a4f2b" |} ].

(** stage0 -> stage2 *)
Definition segmentsC : list Mapping :=
  [ {| source := Some "user.ts"; generatedLine := 98; generatedColumn := 19;
       originalLine := Some 2; originalColumn := Some 3;
       name := Some "userController" |} ].

Definition consumerA : Consumer := Resolver.consumerOf segmentsA ["user.ts"] None.
Definition consumerB : Consumer := Resolver.consumerOf segmentsB ["user.js"] None.
Definition consumerC : Consumer := Resolver.consumerOf segmentsC ["user.ts"] None.

(** a consumer that knows column 0 of line 3 only, and answers nothing
    at any other column *)
Definition consumerE : Consumer :=
  {| originalPositionFor := fun line column =>
       match line, column with
       | Some 3, Some 0 =>
           inr {| op_source := Some "app.ts"; op_line := Some 1; op_column := Some 0;
                  op_name := None |}
       | _, _ => inr Resolver.notFound
       end;
     eachMapping := [];
     sources := ["app.ts"];
     sourcesContent := None |}.

Definition translatorWorld : Translator.World :=
  {| Translator.path_isAbsolute := isAbsolute;
     Translator.path_basename := basename;
     Translator.path_dirname := dirname;
     Translator.path_join := join;
     Translator.fs_existsSync := fun p =>
       String.eqb p "./sourcemaps/user.js.map" || String.eqb p "./sourcemaps/app.js.map";
     Translator.fs_readFileSync := fun p =>
       if String.eqb p "./sourcemaps/user.js.map" then inr "C"
       else if String.eqb p "./sourcemaps/app.js.map" then inr "E"
       else inl ("ENOENT: no such file or directory, open '" +:+ p +:+ "'");
     Translator.newSourceMapConsumer := fun content =>
       if String.eqb content "C" then inr consumerC
       else if String.eqb content "E" then inr consumerE
       else inl "Unexpected token in JSON" |}.

Definition trace : string :=
  "Error: Test error" +:+ String "010" "    at _0x3a4f2b (user.js:98:19)".

Definition frame : string := "    at _0x3a4f2b (user.js:98:19)".

(** a frame at column 0 of a line [segmentsC] does not cover *)
Definition frameAtColumn0 : string := "    at _0x3a4f2b (user.js:7:0)".

(** stage1 -> stage2 with two more segments: one without an original
    position, one whose original position stage0 -> stage1 does not
    cover *)
Definition segmentsB' : list Mapping :=
  [ {| source := None; generatedLine := 1; generatedColumn := 0;
       originalLine := None; originalColumn := None; name := None |};
    {| source := Some "user.js"; generatedLine := 2; generatedColumn := 5;
       originalLine := Some 9; originalColumn := Some 0; name := Some "_0x1f8e3d" |} ]
  ++ segmentsB.

Definition contentA : Chain.MapContent :=
  {| Chain.mc_file := Some "user.js"; Chain.mc_sources := ["user.ts"; "types.ts"];
     Chain.mc_sourcesContent := None |}.

Definition contentB : Chain.MapContent :=
  {| Chain.mc_file := None; Chain.mc_sources := ["user.js"];
     Chain.mc_sourcesContent := None |}.

(** The maps of [user.js] before they are chained; [user.ts] can be
    read next to the backup, [types.ts] is missing. *)
Definition chainWorld : Chain.World :=
  {| Chain.path_dirname := dirname;
     Chain.path_resolve := join;
     Chain.path_basename := basename;
     Chain.path_basename_ext := fun p ext => replace ext "" (basename p);
     Chain.path_relative := fun from to =>
       substringFrom (String.length from + 1) to;
     Chain.path_join := join;
     Chain.fs_existsSync := fun p =>
       String.eqb p "./dist/user.js.map"
       || String.eqb p "./dist-sourcemaps-backup/user.ts";
     Chain.fs_readFileSync := fun p =>
       if String.eqb p "./dist-sourcemaps-backup/user.js.map" then inr "A"
       else if String.eqb p "./dist/user.js.map" then inr "B"
       else if String.eqb p "./dist-sourcemaps-backup/user.ts"
            then inr "const userController = 1;"
       else inl ("ENOENT: no such file or directory, open '" +:+ p +:+ "'");
     Chain.fs_writeFileSync := fun _ _ => inr tt;
     Chain.JSON_parse := fun text =>
       if String.eqb text "A" then inr contentA
       else if String.eqb text "B" then inr contentB
       else inl "Unexpected token in JSON";
     Chain.newSourceMapConsumer := fun content =>
       match Chain.mc_file content with
       | Some _ => inr consumerA
       | None => inr (Resolver.consumerOf segmentsB' ["user.js"] None)
       end;
     Chain.generator_toString := fun g => "{" +:+ Chain._file g +:+ "}" |}.

Definition tsMapPath : string := "./dist-sourcemaps-backup/user.js.map".
Definition obfMapPath : string := "./dist/user.js.map".

(** what [translateStackTrace] reports for [frame] *)
Definition frameTranslated : Translator.Translated :=
  {| Translator.t_file := Some "user.ts";
     Translator.t_line := Some 2;
     Translator.t_column := Some 3;
     Translator.t_name := "userController";
     Translator.t_sourceCode := None |}.

Definition frameEntry : Translator.Entry :=
  {| Translator.original := frame;
     Translator.translated := Some frameTranslated;
     Translator.obfuscated := Some
       {| Translator.o_file := "user.js"; Translator.o_line := 98;
          Translator.o_column := 19 |};
     Translator.error := None |}.

End Demo.

(** ** The mapping codec

    The decoder and the encoder live in the [source-map] package; the
    repository holds no code for them.  They are modelled from sections
    3, 4.1 and 4.4 of the specification, a document being the record of
    its JSON fields. *)

Module Codec.
Import JS.

Record MappingDocument : Type := {
  version : Z;
  sources : list string;
  sourcesContent : option (list (option string));
  names : list string;
  mappings : string;
  file : option string;
}.

Record Segment : Type := {
  generatedLine : Z;
  generatedColumn : Z;
  sourceIndex : option Z;
  originalLine : option Z;
  originalColumn : option Z;
  nameIndex : option Z;
}.

(** The outcome of decoding: the segments in stream order and the two
    tables. *)
Record Decoded : Type := {
  segments : list Segment;
  d_sources : list string;
  d_names : list string;
}.

(** The decode error, with the line and the segment it was met at. *)
Record MalformedMapping : Type := {
  mm_line : Z;
  mm_segment : Z;
}.

(** *** Variable-length quantities

    Modelled from the spec: the "varint-style" encoding of a signed
    delta, taken to be the Base64 VLQ of version 3 documents.  A digit
    holds five bits of the number, least significant group first, and a
    continuation flag (32); the lowest bit of the number is its sign. *)

Definition base64 : string :=
  "ABCDEFGHIJKLMNOPQRSTUVWXYZabcdefghijklmnopqrstuvwxyz0123456789+/".

Definition base64_encode (d : Z) : ascii :=
  match String.get (Z.to_nat d) base64 with
  | Some c => c
  | None => "A"%char
  end.

Fixpoint index_from (i : Z) (c : ascii) (s : string) : option Z :=
  match s with
  | String x s' => if Ascii.eqb x c then Some i else index_from (i + 1) c s'
  | EmptyString => None
  end.

Definition base64_decode (c : ascii) : option Z := index_from 0 c base64.

Definition to_vlq_signed (v : Z) : Z :=
  if v <? 0 then Z.shiftl (- v) 1 + 1 else Z.shiftl v 1.

Definition from_vlq_signed (v : Z) : Z :=
  if Z.testbit v 0 then - Z.shiftr v 1 else Z.shiftr v 1.

(** the digits of [v >= 0]; [n] bounds their number *)
Fixpoint vlq_digits (n : nat) (v : Z) : string :=
  match n with
  | O => EmptyString
  | S n' =>
      let digit := Z.land v 31 in
      let rest := Z.shiftr v 5 in
      if 0 <? rest
      then String (base64_encode (Z.lor digit 32)) (vlq_digits n' rest)
      else String (base64_encode digit) EmptyString
  end.

Definition vlq_encode (v : Z) : string :=
  let u := to_vlq_signed v in
  vlq_digits (S (Z.to_nat (Z.log2 u))) u.

(** The deltas of one segment: quantities read one after the other up
    to the end of the text.  [pending] tells that the last digit read
    asked for a continuation; the text may not end there. *)
Fixpoint vlq_decode_all (s : string) (shift acc : Z) (pending : bool) : option (list Z) :=
  match s with
  | EmptyString => if pending then None else Some []
  | String c s' =>
      match base64_decode c with
      | None => None
      | Some d =>
          let acc' := acc + Z.shiftl (Z.land d 31) shift in
          if 32 <=? d then vlq_decode_all s' (shift + 5) acc' true
          else cons (from_vlq_signed acc') <$> vlq_decode_all s' 0 0 false
      end
  end.

Definition decode_fields (s : string) : option (list Z) := vlq_decode_all s 0 0 false.

Definition encode_fields (fields : list Z) : string :=
  foldr (fun v text => vlq_encode v +:+ text) EmptyString fields.

(** *** Relative deltas

    Modelled from the spec, section 3: the generated column is relative
    to the previous segment of the same line, and starts from 0 on every
    line; source index, original line, original column and name index are
    relative to the previous segment that had such a field, anywhere in
    the document. *)

Record Previous : Type := {
  prevColumn : Z;
  prevSource : Z;
  prevOriginalLine : Z;
  prevOriginalColumn : Z;
  prevName : Z;
}.

Definition start : Previous :=
  {| prevColumn := 0; prevSource := 0; prevOriginalLine := 0;
     prevOriginalColumn := 0; prevName := 0 |}.

Definition newLine (p : Previous) : Previous :=
  {| prevColumn := 0; prevSource := prevSource p;
     prevOriginalLine := prevOriginalLine p;
     prevOriginalColumn := prevOriginalColumn p; prevName := prevName p |}.

(** what a segment leaves for the next one *)
Definition after (p : Previous) (seg : Segment) : Previous :=
  match sourceIndex seg, originalLine seg, originalColumn seg with
  | Some s, Some l, Some c =>
      {| prevColumn := generatedColumn seg; prevSource := s;
         prevOriginalLine := l; prevOriginalColumn := c;
         prevName := default (prevName p) (nameIndex seg) |}
  | _, _, _ =>
      {| prevColumn := generatedColumn seg; prevSource := prevSource p;
         prevOriginalLine := prevOriginalLine p;
         prevOriginalColumn := prevOriginalColumn p; prevName := prevName p |}
  end.

Definition in_table {A} (i : Z) (table : list A) : bool :=
  (0 <=? i) && (i <? Z.of_nat (length table)).

(** Modelled from the spec, section 4.1: one segment from its deltas.
    One, four or five fields are accepted; an index outside its table is
    refused. *)
Definition decode_segment (srcs nms : list string) (p : Previous) (line : Z)
    (fields : list Z) : option Segment :=
  match fields with
  | [dc] =>
      Some {| generatedLine := line; generatedColumn := prevColumn p + dc;
              sourceIndex := None; originalLine := None; originalColumn := None;
              nameIndex := None |}
  | [dc; ds; dl; dcol] =>
      if in_table (prevSource p + ds) srcs then
        Some {| generatedLine := line; generatedColumn := prevColumn p + dc;
                sourceIndex := Some (prevSource p + ds);
                originalLine := Some (prevOriginalLine p + dl);
                originalColumn := Some (prevOriginalColumn p + dcol);
                nameIndex := None |}
      else None
  | [dc; ds; dl; dcol; dn] =>
      if in_table (prevSource p + ds) srcs && in_table (prevName p + dn) nms then
        Some {| generatedLine := line; generatedColumn := prevColumn p + dc;
                sourceIndex := Some (prevSource p + ds);
                originalLine := Some (prevOriginalLine p + dl);
                originalColumn := Some (prevOriginalColumn p + dcol);
                nameIndex := Some (prevName p + dn) |}
      else None
  | _ => None
  end.

(** Modelled from the spec, section 4.4: the deltas of one segment. *)
Definition encode_segment (p : Previous) (seg : Segment) : list Z :=
  match sourceIndex seg, originalLine seg, originalColumn seg with
  | Some s, Some l, Some c =>
      [generatedColumn seg - prevColumn p; s - prevSource p;
       l - prevOriginalLine p; c - prevOriginalColumn p]
      ++ match nameIndex seg with
         | Some n => [n - prevName p]
         | None => []
         end
  | _, _, _ => [generatedColumn seg - prevColumn p]
  end.

(** *** The stream: lines separated by [;], segments by [,] *)

Fixpoint join (sep : string) (pieces : list string) : string :=
  match pieces with
  | [] => EmptyString
  | [piece] => piece
  | piece :: rest => piece +:+ sep +:+ join sep rest
  end.

(** the segments of one line, [segment] counting them *)
Fixpoint decode_pieces (srcs nms : list string) (p : Previous) (line segment : Z)
    (pieces : list string) : MalformedMapping + (list Segment * Previous) :=
  match pieces with
  | [] => inr ([], p)
  | piece :: rest =>
      match decode_fields piece ≫= decode_segment srcs nms p line with
      | None => inl {| mm_line := line; mm_segment := segment |}
      | Some seg =>
          match decode_pieces srcs nms (after p seg) line (segment + 1) rest with
          | inl e => inl e
          | inr (segs, p') => inr (seg :: segs, p')
          end
      end
  end.

(** an empty line holds no segment *)
Definition pieces_of (text : string) : list string :=
  match text with
  | EmptyString => []
  | _ => split "," text
  end.

Fixpoint decode_lines (srcs nms : list string) (p : Previous) (line : Z)
    (texts : list string) : MalformedMapping + list Segment :=
  match texts with
  | [] => inr []
  | text :: rest =>
      match decode_pieces srcs nms (newLine p) line 0 (pieces_of text) with
      | inl e => inl e
      | inr (segs, p') =>
          match decode_lines srcs nms p' (line + 1) rest with
          | inl e => inl e
          | inr segs' => inr (segs ++ segs')
          end
      end
  end.

(** Modelled from the spec, section 4.1. *)
Definition decode (doc : MappingDocument) : MalformedMapping + Decoded :=
  match decode_lines (sources doc) (names doc) start 0 (split ";" (mappings doc)) with
  | inl e => inl e
  | inr segs => inr {| segments := segs; d_sources := sources doc; d_names := names doc |}
  end.

(** The lines of an ordered sequence of segments, from line [line] on:
    the first list is what is left of line [line].  A segment that lies
    [skip] lines further down closes the current line and [skip - 1] empty
    ones. *)
Fixpoint lines_from (line : Z) (segs : list Segment) : list (list Segment) :=
  match segs with
  | [] => [[]]
  | seg :: rest =>
      let skip := Z.to_nat (generatedLine seg - line) in
      match lines_from (line + Z.of_nat skip) rest with
      | current :: below => replicate skip [] ++ (seg :: current) :: below
      | [] => replicate skip [] ++ [[seg]]
      end
  end.

Fixpoint encode_pieces (p : Previous) (segs : list Segment) : list string * Previous :=
  match segs with
  | [] => ([], p)
  | seg :: rest =>
      let '(pieces, p') := encode_pieces (after p seg) rest in
      (encode_fields (encode_segment p seg) :: pieces, p')
  end.

Fixpoint encode_lines (p : Previous) (lines : list (list Segment)) : list string :=
  match lines with
  | [] => []
  | segs :: rest =>
      let '(pieces, p') := encode_pieces (newLine p) segs in
      join "," pieces :: encode_lines p' rest
  end.

(** Modelled from the spec, section 4.4: the document of a segment
    sequence and its tables. *)
Definition encode (d : Decoded) (contents : option (list (option string)))
    (file : option string) : MappingDocument :=
  {| version := 3;
     sources := d_sources d;
     sourcesContent := contents;
     names := d_names d;
     mappings := join ";" (encode_lines start (lines_from 0 (segments d)));
     file := file |}.

(** *** What decoded segment sequences look like *)

(** a segment has no original position, or a source within the table,
    an original line and column and, possibly, a name within the table *)
Definition well_shaped (srcs nms : list string) (seg : Segment) : Prop :=
  match sourceIndex seg, originalLine seg, originalColumn seg, nameIndex seg with
  | None, None, None, None => True
  | Some s, Some _, Some _, None => in_table s srcs = true
  | Some s, Some _, Some _, Some n => in_table s srcs = true /\ in_table n nms = true
  | _, _, _, _ => False
  end.

(** the generated lines never decrease, from [line] on *)
Fixpoint ordered_from (line : Z) (segs : list Segment) : Prop :=
  match segs with
  | [] => True
  | seg :: rest => line <= generatedLine seg /\ ordered_from (generatedLine seg) rest
  end.

(** the list at position [i] holds segments of line [line + i] *)
Fixpoint lines_ok (srcs nms : list string) (line : Z) (lines : list (list Segment)) : Prop :=
  match lines with
  | [] => True
  | segs :: rest =>
      Forall (fun seg => well_shaped srcs nms seg /\ generatedLine seg = line) segs
      /\ lines_ok srcs nms (line + 1) rest
  end.

Definition not_separator (c : ascii) : bool :=
  negb (Ascii.eqb c ",") && negb (Ascii.eqb c ";").

(** [sep] does not occur in [s] *)
Definition lacks (sep : ascii) (s : string) : bool :=
  all_in (fun c => negb (Ascii.eqb c sep)) s.

(** A document to run the codec on: one source, one name, segments on
    lines 5 and 6. *)
Definition example : MappingDocument :=
  {| version := 3;
     sources := ["user.ts"];
     sourcesContent := None;
     names := ["userController"];
     mappings := ";;;;;UAEGA,C;AAAA,E;;";
     file := Some "user.js" |}.

End Codec.

(** ** More of the world of the examples *)

Module Demo2.
Import JS Eff SourceMap.

(** the file-system writes of a run, in order *)
Definition writes (log : list Event) : list (string * string) :=
  omap (fun ev => match ev with EvWrite p c => Some (p, c) | _ => None end) log.

(** the first document, with the text of [user.ts] embedded and an entry
    too few for [types.ts] *)
Definition contentA' : Chain.MapContent :=
  {| Chain.mc_file := Some "user.js"; Chain.mc_sources := ["user.ts"; "types.ts"];
     Chain.mc_sourcesContent := Some [Some "const userController = 1;"] |}.

(** [Demo.chainWorld] with that first document; a composed map cannot
    be written over [./dist/user.js.map] *)
Definition chainWorld' : Chain.World :=
  {| Chain.path_dirname := Demo.dirname;
     Chain.path_resolve := Demo.join;
     Chain.path_basename := Demo.basename;
     Chain.path_basename_ext := fun p ext => replace ext "" (Demo.basename p);
     Chain.path_relative := fun from to =>
       substringFrom (String.length from + 1) to;
     Chain.path_join := Demo.join;
     Chain.fs_existsSync := fun p => String.eqb p "./dist/user.js.map";
     Chain.fs_readFileSync := fun p =>
       if String.eqb p "./dist-sourcemaps-backup/user.js.map" then inr "A"
       else if String.eqb p "./dist/user.js.map" then inr "B"
       else inl ("ENOENT: no such file or directory, open '" +:+ p +:+ "'");
     Chain.fs_writeFileSync := fun p _ =>
       inl ("EACCES: permission denied, open '" +:+ p +:+ "'");
     Chain.JSON_parse := fun text =>
       if String.eqb text "A" then inr contentA'
       else if String.eqb text "B" then inr Demo.contentB
       else inl "Unexpected token in JSON";
     Chain.newSourceMapConsumer := fun content =>
       match Chain.mc_file content with
       | Some _ => inr Demo.consumerA
       | None => inr (Resolver.consumerOf Demo.segmentsB' ["user.js"] None)
       end;
     Chain.generator_toString := fun g => "{" +:+ Chain._file g +:+ "}" |}.

(** the groups the frame pattern captures in [Demo.frame] *)
Definition frameMatch : Regex.captures :=
  <[4%nat := "19"]> (<[3%nat := "98"]> (<[2%nat := "user.js"]>
    (<[1%nat := "_0x3a4f2b"]> ∅))).

End Demo2.

(** ** The script that repairs the source names

    The first file of [src/unnamed/part_000], lines 1-57: after the
    obfuscator has written ["sourceMap"] as the source of a map, the
    script puts the TypeScript file of the map there. *)

Module FixSources.
Import JS Eff.
Local Open Scope eff_scope.

(** A parsed map: its [sources], an array of names or [None] when the
    object has no such key, and the rest of the object, which the script
    carries over untouched. *)
Record SourceMapJSON : Type := {
  sj_sources : option (list string);
  sj_rest : string;
}.

(** Node's [path], [fs] and [JSON].  A text that parses to something
    that is no object makes the script fail at the [sources] it reads
    next; it is counted with the texts that do not parse. *)
Record World : Type := {
  path_join : list string -> string;
  fs_readFileSync : string -> Exn + string;
  fs_writeFileSync : string -> string -> Exn + unit;
  JSON_parse : string -> Exn + SourceMapJSON;
  JSON_stringify : SourceMapJSON -> string;
}.

(** [sourceMap.sources = [originalTsFile]] *)
Definition setSources (sourceMap : SourceMapJSON) (sources : list string) : SourceMapJSON :=
  {| sj_sources := Some sources; sj_rest := sj_rest sourceMap |}.

(** lines 21-55: the body of the loop; the calls of [console.log] are
    left out *)
Definition fixFile (w : World) (distDir mapFile : string) : M unit :=
  let mapPath := path_join w [distDir; mapFile] in
  let jsFile := replace ".js.map" ".js" mapFile in
  try_catch
    (sourceMapContent <- call (EvRead mapPath) (fs_readFileSync w mapPath) ;;
     sourceMap <- ([], JSON_parse w sourceMapContent) ;;
     match sj_sources sourceMap with
     | Some sources =>
         if bool_decide (head sources = Some "sourceMap") then
           let baseName := replace ".js" "" jsFile in
           let originalTsFile := "../src/" +:+ baseName +:+ ".ts" in
           let content := JSON_stringify w (setSources sourceMap [originalTsFile]) in
           call (EvWrite mapPath content) (fs_writeFileSync w mapPath content)
         else ret tt
     | None =>
         (* [sourceMap.sources.join] on [undefined] *)
         throw "Cannot read properties of undefined (reading 'join')"
     end)
    (fun error =>
       call (EvConsoleError ("  ✗ Error processing " +:+ mapFile +:+ ": " +:+ error))
            (inr tt)).

Fixpoint forMapFiles (w : World) (distDir : string) (sourceMapFiles : list string) : M unit :=
  match sourceMapFiles with
  | [] => ret tt
  | mapFile :: rest => fixFile w distDir mapFile ;;; forMapFiles w distDir rest
  end.

(** lines 17-55, [entries] being what [fs.readdirSync(distDir)] gave *)
Definition fixSourceMaps (w : World) (distDir : string) (entries : list string) : M unit :=
  forMapFiles w distDir (List.filter (fun file => endsWith file ".js.map") entries).

End FixSources.

(** ** [findMapFiles]

    The function of [scripts/build-with-sourcemaps.cjs] (lines 24-39)
    and of [scripts/chain-sourcemaps.cjs] (lines 79-94 of
    [src/unnamed/part_000]).  What [readdirSync] and [statSync] answer is
    a directory tree. *)

Module Files.
Import JS.

(** The entries of a directory, in the order [readdirSync] lists them:
    each is a file, or a directory with its own entries. *)
Inductive Entries : Type :=
| NoMore
| File (file : string) (rest : Entries)
| Directory (file : string) (below : Entries) (rest : Entries).

(** [findMapFiles(dir, fileList)] on the directory [dir] that holds
    [entries]; [fileList.push] appends. *)
Fixpoint findMapFiles (path_join : list string -> string) (dir : string)
    (entries : Entries) (fileList : list string) : list string :=
  match entries with
  | NoMore => fileList
  | File file rest =>
      let filePath := path_join [dir; file] in
      findMapFiles path_join dir rest
        (if endsWith file ".js.map" then fileList ++ [filePath] else fileList)
  | Directory file below rest =>
      let filePath := path_join [dir; file] in
      findMapFiles path_join dir rest (findMapFiles path_join filePath below fileList)
  end.

(** the number of files of a tree whose name ends in [.js.map] *)
Fixpoint countMapFiles (entries : Entries) : nat :=
  match entries with
  | NoMore => 0
  | File file rest => (if endsWith file ".js.map" then 1 else 0) + countMapFiles rest
  | Directory _ below rest => countMapFiles below + countMapFiles rest
  end.

(** [path] names a file of the tree below [dir] *)
Fixpoint fileOf (path_join : list string -> string) (dir : string)
    (entries : Entries) (path : string) : Prop :=
  match entries with
  | NoMore => False
  | File file rest =>
      (path = path_join [dir; file] /\ endsWith file ".js.map" = true)
      \/ fileOf path_join dir rest path
  | Directory file below rest =>
      fileOf path_join (path_join [dir; file]) below path
      \/ fileOf path_join dir rest path
  end.

End Files.

(** ** A run of the repair script *)

Module Demo3.
Import JS Eff.

(** what the obfuscator wrote for [user.js] *)
Definition obfuscated : FixSources.SourceMapJSON :=
  {| FixSources.sj_sources := Some ["sourceMap"];
     FixSources.sj_rest := "'version':3,'mappings':'AAAA'" |}.

Definition show (sourceMap : FixSources.SourceMapJSON) : string :=
  match FixSources.sj_sources sourceMap with
  | Some sources => "{'sources':['" +:+ String.concat "','" sources +:+ "'],"
                      +:+ FixSources.sj_rest sourceMap +:+ "}"
  | None => "{" +:+ FixSources.sj_rest sourceMap +:+ "}"
  end.

(** [dist] holds [user.js.map] as the obfuscator left it, [index.js.map]
    already repaired and [broken.js.map] without [sources]. *)
Definition fixWorld : FixSources.World :=
  {| FixSources.path_join := Demo.join;
     FixSources.fs_readFileSync := fun p =>
       if String.eqb p "dist/user.js.map" then inr "U"
       else if String.eqb p "dist/index.js.map" then
         inr "{'sources':['../src/index.ts'],'version':3,'mappings':'AAAA'}"
       else if String.eqb p "dist/broken.js.map" then inr "B"
       else inl ("ENOENT: no such file or directory, open '" +:+ p +:+ "'");
     FixSources.fs_writeFileSync := fun _ _ => inr tt;
     FixSources.JSON_parse := fun text =>
       if String.eqb text "U" then inr obfuscated
       else if String.eqb text "{'sources':['../src/index.ts'],'version':3,'mappings':'AAAA'}" then
         inr (FixSources.setSources obfuscated ["../src/index.ts"])
       else if String.eqb text "B" then
         inr {| FixSources.sj_sources := None; FixSources.sj_rest := "'version':3" |}
       else inl "Unexpected token in JSON";
     FixSources.JSON_stringify := show |}.

End Demo3.

(** * Properties *)

Module TranslatorFacts.
Import JS Regex Eff SourceMap Translator.
Local Open Scope eff_scope.

Lemma outcome_bind_inr {A B} (m : M A) (f : A -> M B) a :
  outcome m = inr a -> outcome (bind m f) = outcome (f a).
Proof.
  destruct m as [log [e|a']]; simpl; intros H; [discriminate|].
  injection H as ->. destruct (f a) as [log' r]. reflexivity.
Qed.

Lemma outcome_bind_inl {A B} (m : M A) (f : A -> M B) e :
  outcome m = inl e -> outcome (bind m f) = inl e.
Proof.
  destruct m as [log [e'|a']]; simpl; intros H; [|discriminate].
  injection H as ->. reflexivity.
Qed.

(** A frame with a location contributes exactly one entry, whatever
    happens while its mapping document is loaded and queried. *)
Lemma translateFrame_pushes w distDir line fn fp ln col :
  exists e, (forall results,
               outcome (translateFrame w distDir results line fn fp ln col)
               = inr (push results e))
            /\ original e = line.
Proof.
  unfold translateFrame. cbn [call bind].
  destruct (fs_existsSync w _); cbn; [|eauto].
  destruct (fs_readFileSync w _) as [e|content]; cbn; [eauto|].
  destruct (newSourceMapConsumer w content) as [e|consumer]; cbn; [eauto|].
  unfold lookup, query, call; cbn.
  destruct (originalPositionFor consumer (Some ln) (Some col)) as [e|p]; cbn; [eauto|].
  destruct (negb (truthy (op_source p)) && (0 <? col)) eqn:Hretry; cbn.
  - destruct (originalPositionFor consumer (Some ln) (Some 0)) as [e|p0]; cbn; [eauto|].
    destruct (truthy (op_source p0)); cbn; eauto.
  - destruct (truthy (op_source p)); cbn; eauto.
Qed.

Lemma translateLine_pushes w distDir line :
  exists e, (forall results,
               outcome (translateLine w distDir results line) = inr (push results e))
            /\ original e = line
            /\ (exec frame_re (trim line) = None -> e = plain line).
Proof.
  unfold translateLine.
  destruct (exec frame_re (trim line)) as [m|]; [|exists (plain line); auto].
  destruct (filePath m) as [[|c fp]|], (lineNum m) as [ln|], (column m) as [col|];
    try (exists (plain line); split; [reflexivity|split; [reflexivity|discriminate]]).
  destruct (translateFrame_pushes w distDir line (functionName m) (String c fp) ln col)
    as (e & He & Ho).
  exists e. split; [exact He|]. split; [exact Ho|discriminate].
Qed.

(** The loop: the entries of the lines, one by one and in order. *)
Lemma forLines_entries w distDir lines : forall results,
  exists es,
    outcome (forLines w distDir lines results) = inr (results ++ es)
    /\ Forall2 (fun line e => outcome (translateLine w distDir [] line) = inr [e]) lines es.
Proof.
  induction lines as [|line rest IH]; intros results; simpl.
  - exists []. rewrite app_nil_r. split; [reflexivity|constructor].
  - destruct (translateLine_pushes w distDir line) as (e & He & _).
    destruct (IH (push results e)) as (es & Hes & Hall).
    exists (e :: es). split.
    + rewrite (outcome_bind_inr _ _ _ (He results)), Hes. unfold push.
      by rewrite <- app_assoc.
    + constructor; [exact (He [])|exact Hall].
Qed.

Lemma translateLine_entry w distDir line e :
  outcome (translateLine w distDir [] line) = inr [e] ->
  original e = line /\ (exec frame_re (trim line) = None -> e = plain line).
Proof.
  destruct (translateLine_pushes w distDir line) as (e' & He & Ho & Hp).
  rewrite (He []). intros [= <-]. auto.
Qed.

End TranslatorFacts.

Module RegexFacts.
Import JS Regex.

Section Classes.
Context {R : Type}.
Implicit Types (k : string -> option R) (cls : ascii -> bool).

(** A greedy run takes all of [run] when what follows is accepted. *)
Lemma plus_greedy_all cls k run rest r :
  run <> "" -> all_in cls run = true -> head_in cls rest = false ->
  k rest = Some r ->
  plus_greedy cls (run +:+ rest) k = Some r.
Proof.
  intros Hne Hall Hhead Hk.
  induction run as [|c run IH]; [congruence|].
  simpl in *. apply andb_true_iff in Hall as [Hc Hall]. rewrite Hc.
  destruct run as [|c' run'].
  - simpl. destruct rest as [|d rest']; simpl in *; [exact Hk|].
    by rewrite Hhead.
  - rewrite IH; [reflexivity|discriminate|exact Hall].
Qed.

(** A lazy run stops at the first point where what follows is
    accepted. *)
Lemma plus_lazy_first cls k run rest r :
  run <> "" -> all_in cls run = true ->
  (forall p q, run = p +:+ q -> p <> "" -> q <> "" -> k (q +:+ rest) = None) ->
  k rest = Some r ->
  plus_lazy cls (run +:+ rest) k = Some r.
Proof.
  intros Hne Hall Hearly Hk. revert Hne Hall Hearly.
  induction run as [|c run IH]; intros Hne Hall Hearly; [congruence|].
  simpl in *. apply andb_true_iff in Hall as [Hc Hall]. rewrite Hc.
  destruct run as [|c' run'].
  - change ("" +:+ rest) with rest. by rewrite Hk.
  - rewrite (Hearly (String c "") (String c' run')); [|reflexivity|discriminate..].
    apply IH; [discriminate|exact Hall|].
    intros p q Hpq Hp Hq. apply (Hearly (String c p) q); [|discriminate|exact Hq].
    simpl. by rewrite Hpq.
Qed.

(** Nothing is matched when the continuation rejects every rest. *)
Lemma plus_lazy_none cls k (ok : string -> Prop) s :
  ok s -> (forall c s', ok (String c s') -> ok s') ->
  (forall s', ok s' -> k s' = None) ->
  plus_lazy cls s k = None.
Proof.
  intros Hs Hsuf Hk. induction s as [|c s IH]; [reflexivity|].
  simpl. destruct (cls c); [|reflexivity].
  rewrite (Hk s (Hsuf _ _ Hs)). apply IH. eauto.
Qed.

Lemma plus_greedy_none cls k (ok : string -> Prop) s :
  ok s -> (forall c s', ok (String c s') -> ok s') ->
  (forall s', ok s' -> k s' = None) ->
  plus_greedy cls s k = None.
Proof.
  intros Hs Hsuf Hk. induction s as [|c s IH]; [reflexivity|].
  simpl. destruct (cls c); [|reflexivity].
  rewrite IH by eauto. apply Hk. eauto.
Qed.
End Classes.

Lemma length_app_s (a b : string) :
  String.length (a +:+ b) = (String.length a + String.length b)%nat.
Proof. induction a as [|c a IH]; simpl; [reflexivity|]. by rewrite IH. Qed.

Lemma substring_0_app a b : substring 0 (String.length a) (a +:+ b) = a.
Proof.
  induction a as [|c a IH]; simpl; [by destruct b|]. by rewrite IH.
Qed.

Lemma consumed_app a b : consumed (a +:+ b) b = a.
Proof.
  unfold consumed. rewrite length_app_s.
  replace (String.length a + String.length b - String.length b)%nat
    with (String.length a) by lia.
  apply substring_0_app.
Qed.

Lemma all_in_app cls a b : all_in cls (a +:+ b) = all_in cls a && all_in cls b.
Proof. induction a as [|c a IH]; simpl; [reflexivity|]. by rewrite IH, andb_assoc. Qed.

Lemma app_assoc_s (a b c : string) : (a +:+ b) +:+ c = a +:+ (b +:+ c).
Proof.
  induction a as [|x a IH]; [reflexivity|].
  change (String x ((a +:+ b) +:+ c) = String x (a +:+ (b +:+ c))). by rewrite IH.
Qed.

Lemma exec_here r s caps :
  run r s ∅ (fun _ caps => Some caps) = Some caps -> exec r s = Some caps.
Proof. intros H. destruct s; simpl; by rewrite H. Qed.

Lemma plus_greedy_head {R} cls s (k : string -> option R) :
  head_in cls s = false -> plus_greedy cls s k = None.
Proof. destruct s as [|c s]; simpl; [reflexivity|]. by intros ->. Qed.

Lemma head_in_app cls a b : a <> "" -> head_in cls (a +:+ b) = head_in cls a.
Proof. by destruct a. Qed.

Lemma all_in_impl (f g : ascii -> bool) s :
  (forall c, f c = true -> g c = true) -> all_in f s = true -> all_in g s = true.
Proof.
  intros Hfg. induction s as [|c s IH]; simpl; [reflexivity|].
  intros [Hc Hs]%andb_true_iff. rewrite (Hfg c Hc). simpl. auto.
Qed.

Lemma digit_not_paren c : is_digit c = true -> not_paren c = true.
Proof.
  unfold is_digit, not_paren. intros H.
  destruct (Ascii.eqb c "(") eqn:E; [|reflexivity].
  apply Ascii.eqb_eq in E. subst c. vm_compute in H. discriminate.
Qed.

Lemma colon_digit_free_split p q :
  colon_digit_free (p +:+ String ":" q) = true -> head_in is_digit q = false.
Proof.
  induction p as [|c p IH].
  - change ("" +:+ String ":" q) with (String ":" q). simpl.
    intros [H _]%andb_true_iff. by destruct (head_in is_digit q).
  - change (String c p +:+ String ":" q) with (String c (p +:+ String ":" q)).
    simpl. intros [_ H]%andb_true_iff. auto.
Qed.

Lemma lit_paren_none {R} s (k : string -> option R) :
  all_in not_paren s = true -> lit "(" s k = None.
Proof.
  destruct s as [|c s]; cbn [lit all_in]; [reflexivity|].
  intros [Hc _]%andb_true_iff. unfold not_paren in Hc.
  rewrite Ascii.eqb_sym. by destruct (Ascii.eqb c "(").
Qed.


Lemma lit_app {R} p s (k : string -> option R) : lit p (p +:+ s) k = k s.
Proof.
  induction p as [|a p IH]; [reflexivity|].
  change (String a p +:+ s) with (String a (p +:+ s)). cbn [lit].
  by rewrite Ascii.eqb_refl.
Qed.

Lemma lit_mismatch {R} a p c s (k : string -> option R) :
  a <> c -> lit (String a p) (String c s) k = None.
Proof. intros H. cbn [lit]. by apply Ascii.eqb_neq in H as ->. Qed.

Lemma append_cons c (a b : string) : String c a +:+ b = String c (a +:+ b).
Proof. reflexivity. Qed.

Lemma append_nil_r (s : string) : s +:+ "" = s.
Proof.
  induction s as [|c s IH]; [reflexivity|].
  change (String c s +:+ "") with (String c (s +:+ "")). by rewrite IH.
Qed.

End RegexFacts.

Module TranslatorSpec.
Import JS Regex Eff SourceMap Translator TranslatorFacts RegexFacts.
Local Open Scope eff_scope.

(** A frame [at path:line:col] whose path holds no parenthesis and no
    [:] directly followed by a digit: the pattern captures the path, the
    line and the column, and no function name. *)
Lemma frame_without_parenthesis ws path l c :
  ws <> "" -> all_in is_space ws = true ->
  path <> "" -> all_in is_dot path = true -> head_in is_space path = false ->
  all_in not_paren path = true -> colon_digit_free path = true ->
  l <> "" -> all_in is_digit l = true ->
  c <> "" -> all_in is_digit c = true ->
  exec frame_re ("at" +:+ ws +:+ path +:+ ":" +:+ l +:+ ":" +:+ c)
  = Some (<[4%nat := c]> (<[3%nat := l]> (<[2%nat := path]> ∅))).
Proof.
  intros Hws1 Hws2 Hp1 Hp2 Hp3 Hp4 Hp5 Hl1 Hl2 Hc1 Hc2.
  apply exec_here. unfold frame_re.
  cbn [run]. rewrite lit_app.
  apply plus_greedy_all; [done..| |].
  { by rewrite head_in_app. }
  (* the optional function name cannot match: there is no parenthesis *)
  rewrite (plus_lazy_none is_dot _ (fun s => all_in not_paren s = true)); cycle 1.
  { rewrite !all_in_app, Hp4. cbn [all_in not_paren andb].
    rewrite (all_in_impl _ _ _ digit_not_paren Hl2), (all_in_impl _ _ _ digit_not_paren Hc2).
    reflexivity. }
  { intros x s' [_ H]%andb_true_iff. exact H. }
  { intros s' Hs'.
    apply (plus_greedy_none is_space _ (fun s => all_in not_paren s = true)); [done| |].
    - intros x s'' [_ H]%andb_true_iff. exact H.
    - intros s'' Hs''. by apply lit_paren_none. }
  (* the path: the shortest run followed by [:digits:digits] *)
  apply plus_lazy_first; [done..| |].
  { intros p q -> Hp Hq. destruct q as [|x q]; [done|].
    change (String x q +:+ ":" +:+ l +:+ ":" +:+ c)
      with (String x (q +:+ ":" +:+ l +:+ ":" +:+ c)).
    destruct (ascii_dec ":" x) as [<-|Hx]; [|by apply lit_mismatch].
    change (String ":" (q +:+ ":" +:+ l +:+ ":" +:+ c))
      with (":" +:+ (q +:+ ":" +:+ l +:+ ":" +:+ c)).
    rewrite lit_app. apply plus_greedy_head.
    destruct q as [|y q]; [reflexivity|].
    apply colon_digit_free_split in Hp5. exact Hp5. }
  rewrite lit_app.
  apply plus_greedy_all; [done..|reflexivity|].
  rewrite lit_app.
  rewrite <- (append_nil_r c).
  apply plus_greedy_all; [done..|reflexivity|].
  cbn [lit]. rewrite !consumed_app. by rewrite append_nil_r.
Qed.

(** C5: [translateStackTrace] returns exactly one entry per line of its
    input, in the order of the lines, each holding its line unchanged in
    [original]; a line the frame pattern does not match yields the entry
    [{ original: line, translated: null }]. *)
Theorem translateStackTrace_one_entry_per_line w stackTrace distDir :
  exists results,
    outcome (translateStackTrace w stackTrace distDir) = inr results
    /\ original <$> results = split "010" stackTrace
    /\ forall i line, split "010" stackTrace !! i = Some line ->
         exec frame_re (trim line) = None ->
         results !! i = Some {| original := line; translated := None;
                                obfuscated := None; error := None |}.
Proof.
  unfold translateStackTrace.
  destruct (forLines_entries w distDir (split "010" stackTrace) []) as (es & H1 & H2).
  exists es. split; [exact H1|]. split.
  - clear H1. induction H2 as [|line e lines es' He _ IH]; [reflexivity|].
    rewrite fmap_cons, IH. by destruct (translateLine_entry _ _ _ _ He) as [-> _].
  - intros i line Hi Hnone.
    destruct (Forall2_lookup_l _ _ _ _ _ H2 Hi) as (e & He & Hline).
    rewrite He. f_equal. by apply (translateLine_entry _ _ _ _ Hline).
Qed.

Lemma translateStackTrace_one_entry_per_line_witness :
  exists results,
    outcome (translateStackTrace Demo.translatorWorld Demo.trace "./sourcemaps") = inr results
    /\ original <$> results = ["Error: Test error"; "    at _0x3a4f2b (user.js:98:19)"]
    /\ results !! 0%nat = Some {| original := "Error: Test error"; translated := None;
                                  obfuscated := None; error := None |}.
Proof.
  destruct (translateStackTrace_one_entry_per_line
              Demo.translatorWorld Demo.trace "./sourcemaps") as (results & H1 & H2 & H3).
  exists results. split; [exact H1|]. split; [exact H2|].
  apply (H3 0%nat "Error: Test error"); vm_compute; reflexivity.
Defined.

(** C6: the frame pattern on the frame of the README, on frames
    without parentheses, and on an error-message line. *)
Theorem frame_pattern_parses :
  (exists m, exec frame_re (trim "    at _0x3a4f2b (d:\dist\user.js:98:19)") = Some m
     /\ functionName m = "_0x3a4f2b" /\ filePath m = Some "d:\dist\user.js"
     /\ lineNum m = Some 98 /\ column m = Some 19)
  /\ (forall ws path l c,
        ws <> "" -> all_in is_space ws = true ->
        path <> "" -> all_in is_dot path = true -> head_in is_space path = false ->
        all_in not_paren path = true -> colon_digit_free path = true ->
        l <> "" -> all_in is_digit l = true ->
        c <> "" -> all_in is_digit c = true ->
        exists m, exec frame_re ("at" +:+ ws +:+ path +:+ ":" +:+ l +:+ ":" +:+ c) = Some m
          /\ functionName m = "<anonymous>" /\ filePath m = Some (trim path)
          /\ lineNum m = Some (parseInt l) /\ column m = Some (parseInt c))
  /\ exec frame_re (trim "Error: Test error") = None.
Proof.
  split; [|split].
  - eexists. split; [vm_compute; reflexivity|]. by vm_compute.
  - intros ws path l c Hws1 Hws2 Hp1 Hp2 Hp3 Hp4 Hp5 Hl1 Hl2 Hc1 Hc2.
    eexists. split; [by apply frame_without_parenthesis|].
    unfold functionName, filePath, lineNum, column.
    rewrite lookup_insert_ne, lookup_insert_ne, lookup_insert_ne, lookup_empty by done.
    rewrite lookup_insert_ne, lookup_insert_ne, lookup_insert_eq by done.
    rewrite lookup_insert_ne, lookup_insert_eq by done.
    rewrite lookup_insert_eq.
    destruct path; [done|]. destruct l; [done|]. destruct c; [done|]. done.
  - by vm_compute.
Qed.

Lemma frame_pattern_parses_witness :
  exists m, exec frame_re (trim "    at d:\dist\user.js:98:19") = Some m
    /\ functionName m = "<anonymous>" /\ filePath m = Some "d:\dist\user.js"
    /\ lineNum m = Some 98 /\ column m = Some 19.
Proof.
  apply (proj1 (proj2 frame_pattern_parses) " " "d:\dist\user.js" "98" "19");
    solve [discriminate | vm_compute; reflexivity].
Defined.

Lemma translateFrame_loaded w distDir results line fn fp ln col content consumer :
  let path := sourceMapPath w distDir fp in
  fs_existsSync w path = true ->
  fs_readFileSync w path = inr content ->
  newSourceMapConsumer w content = inr consumer ->
  translateFrame w distDir results line fn fp ln col
  = ([EvExists path; EvRead path] ++ trace (lookup consumer ln col),
     inr (push results (resolved line fn fp ln col consumer
                          (outcome (lookup consumer ln col))))).
Proof.
  intros path Hex Hrd Hnew. unfold translateFrame. fold path.
  unfold call at 1. cbn [bind]. rewrite Hex.
  unfold call at 1. rewrite Hrd. cbn [bind]. rewrite Hnew. cbn [bind].
  destruct (lookup consumer ln col) as [log [e|p]]; cbn.
  - by rewrite app_nil_r.
  - destruct (truthy (op_source p)); cbn; by rewrite app_nil_r.
Qed.

Lemma lookup_cases consumer ln col :
  lookup consumer ln col =
  match originalPositionFor consumer (Some ln) (Some col) with
  | inl e => ([EvQuery (Some ln) (Some col)], inl e)
  | inr p =>
      if negb (truthy (op_source p)) && (0 <? col)
      then ([EvQuery (Some ln) (Some col); EvQuery (Some ln) (Some 0)],
            originalPositionFor consumer (Some ln) (Some 0))
      else ([EvQuery (Some ln) (Some col)], inr p)
  end.
Proof.
  unfold lookup, query, call. cbn [bind].
  destruct (originalPositionFor consumer (Some ln) (Some col)) as [e|p]; [reflexivity|].
  by destruct (negb (truthy (op_source p)) && (0 <? col)).
Qed.

Lemma translateFrame_missing w distDir results line fn fp ln col :
  let path := sourceMapPath w distDir fp in
  fs_existsSync w path = false ->
  translateFrame w distDir results line fn fp ln col
  = ([EvExists path], inr (push results (failure line ("Source map not found: " +:+ path)))).
Proof. intros path Hex. unfold translateFrame. fold path. cbn. by rewrite Hex. Qed.

Lemma translateFrame_unreadable w distDir results line fn fp ln col e :
  let path := sourceMapPath w distDir fp in
  fs_existsSync w path = true ->
  fs_readFileSync w path = inl e ->
  translateFrame w distDir results line fn fp ln col
  = ([EvExists path; EvRead path],
     inr (push results (failure line ("Error reading source map: " +:+ e)))).
Proof.
  intros path Hex Hrd. unfold translateFrame. fold path. cbn. rewrite Hex.
  cbn. by rewrite Hrd.
Qed.

Lemma translateFrame_undecodable w distDir results line fn fp ln col content e :
  let path := sourceMapPath w distDir fp in
  fs_existsSync w path = true ->
  fs_readFileSync w path = inr content ->
  newSourceMapConsumer w content = inl e ->
  translateFrame w distDir results line fn fp ln col
  = ([EvExists path; EvRead path],
     inr (push results (failure line ("Error reading source map: " +:+ e)))).
Proof.
  intros path Hex Hrd Hnew. unfold translateFrame. fold path. cbn. rewrite Hex.
  cbn. rewrite Hrd. cbn. by rewrite Hnew.
Qed.

(** Only a frame whose mapping document was loaded and whose position
    was resolved to a source gets a translation. *)
Lemma translateFrame_translated w distDir line fn fp ln col e t :
  outcome (translateFrame w distDir [] line fn fp ln col) = inr [e] ->
  translated e = Some t ->
  exists content consumer p,
    fs_readFileSync w (sourceMapPath w distDir fp) = inr content
    /\ newSourceMapConsumer w content = inr consumer
    /\ outcome (lookup consumer ln col) = inr p
    /\ truthy (op_source p) = true
    /\ e = success line fn fp ln col consumer p.
Proof.
  destruct (fs_existsSync w (sourceMapPath w distDir fp)) eqn:Hex.
  2: { rewrite translateFrame_missing by done. intros [= <-]. discriminate. }
  destruct (fs_readFileSync w (sourceMapPath w distDir fp)) as [err|content] eqn:Hrd.
  { rewrite (translateFrame_unreadable _ _ _ _ _ _ _ _ err) by done.
    intros [= <-]. discriminate. }
  destruct (newSourceMapConsumer w content) as [err|consumer] eqn:Hnew.
  { rewrite (translateFrame_undecodable _ _ _ _ _ _ _ _ content err) by done.
    intros [= <-]. discriminate. }
  rewrite (translateFrame_loaded _ _ _ _ _ _ _ _ content consumer) by done.
  cbn [outcome snd push app]. intros [= <-].
  destruct (outcome (lookup consumer ln col)) as [err|p] eqn:Hlk; cbn; [discriminate|].
  destruct (truthy (op_source p)) eqn:Hsrc; [|discriminate].
  intros _. exists content, consumer, p. by repeat split.
Qed.

Lemma translateLine_translated w distDir line e t :
  outcome (translateLine w distDir [] line) = inr [e] ->
  translated e = Some t ->
  exists m fp ln col,
    exec frame_re (trim line) = Some m
    /\ filePath m = Some fp /\ lineNum m = Some ln /\ column m = Some col
    /\ outcome (translateFrame w distDir [] line (functionName m) fp ln col) = inr [e].
Proof.
  unfold translateLine.
  destruct (exec frame_re (trim line)) as [m|]; [|intros [= <-]; discriminate].
  destruct (filePath m) as [[|c fp]|] eqn:Hfp, (lineNum m) as [ln|] eqn:Hln,
    (column m) as [col|] eqn:Hcol;
    try (intros [= <-]; discriminate).
  intros He _. exists m, (String c fp), ln, col. by repeat split.
Qed.

(** C7: in every translated entry the name is the resolved original
    name when there is one and it does not start with [_0x], and the
    function name parsed from the frame otherwise. *)
Theorem translated_name w stackTrace distDir results i e t :
  outcome (translateStackTrace w stackTrace distDir) = inr results ->
  results !! i = Some e ->
  translated e = Some t ->
  exists m fp ln col content consumer p,
    exec frame_re (trim (original e)) = Some m
    /\ filePath m = Some fp /\ lineNum m = Some ln /\ column m = Some col
    /\ fs_readFileSync w (sourceMapPath w distDir fp) = inr content
    /\ newSourceMapConsumer w content = inr consumer
    /\ outcome (lookup consumer ln col) = inr p
    /\ truthy (op_source p) = true
    /\ t_file t = op_source p
    /\ t_name t =
         match op_name p with
         | Some n =>
             if negb (String.eqb n "") && negb (String.prefix "_0x" n)
             then n else functionName m
         | None => functionName m
         end.
Proof.
  unfold translateStackTrace. intros Hrun Hi Ht.
  destruct (forLines_entries w distDir (split "010" stackTrace) []) as (es & Hes & Hall).
  rewrite Hes in Hrun. injection Hrun as <-.
  destruct (Forall2_lookup_r _ _ _ _ _ Hall Hi) as (line & _ & Hline).
  destruct (translateLine_entry _ _ _ _ Hline) as [Ho _].
  destruct (translateLine_translated _ _ _ _ _ Hline Ht)
    as (m & fp & ln & col & Hm & Hfp & Hln & Hcol & Hframe).
  destruct (translateFrame_translated _ _ _ _ _ _ _ _ _ Hframe Ht)
    as (content & consumer & p & Hrd & Hnew & Hlk & Hsrc & ->).
  exists m, fp, ln, col, content, consumer, p.
  rewrite Ho. repeat (split; [assumption|]).
  injection Ht as <-. split; [reflexivity|].
  cbn [t_name]. unfold displayName, cond, startsWith.
  destruct (op_name p) as [[|c n]|]; reflexivity.
Qed.

Lemma translated_name_witness :
  exists m fp ln col content consumer p,
    exec frame_re (trim Demo.frame) = Some m
    /\ filePath m = Some fp /\ lineNum m = Some ln /\ column m = Some col
    /\ Translator.fs_readFileSync Demo.translatorWorld
         (sourceMapPath Demo.translatorWorld "./sourcemaps" fp) = inr content
    /\ Translator.newSourceMapConsumer Demo.translatorWorld content = inr consumer
    /\ outcome (lookup consumer ln col) = inr p
    /\ truthy (op_source p) = true
    /\ t_file Demo.frameTranslated = op_source p
    /\ t_name Demo.frameTranslated =
         match op_name p with
         | Some n =>
             if negb (String.eqb n "") && negb (String.prefix "_0x" n)
             then n else functionName m
         | None => functionName m
         end.
Proof.
  apply (translated_name Demo.translatorWorld Demo.trace "./sourcemaps"
           [plain "Error: Test error"; Demo.frameEntry] 1%nat
           Demo.frameEntry Demo.frameTranslated);
    vm_compute; reflexivity.
Defined.

Lemma nearest_other_line line column segments : forall best,
  (forall m, m ∈ segments -> generatedLine m <> line) ->
  Resolver.nearest line column best segments = best.
Proof.
  induction segments as [|m rest IH]; intros best Hline; [reflexivity|].
  cbn [Resolver.nearest]. unfold Resolver.covers.
  destruct (Z.eqb_spec (generatedLine m) line) as [Heq|_].
  - exfalso. apply (Hline m); [left|exact Heq].
  - cbn. apply IH. intros m' Hm'. apply Hline. by right.
Qed.

(** A line without segments is a miss at every column. *)
Lemma resolve_empty_line segments line column :
  (forall m, m ∈ segments -> generatedLine m <> line) ->
  Resolver.resolve segments (Some line) column = Resolver.notFound.
Proof.
  intros Hline. unfold Resolver.resolve. destruct column as [column|]; [|reflexivity].
  by rewrite nearest_other_line.
Qed.

(** C3, as the script has it: the exact position is asked first; when
    it yields no source and the column is positive, column 0 of the same
    line is asked once more and decides; at column 0 nothing more is
    asked.  Every question is about the line of the frame, and a frame on
    a line without segments is reported as a miss. *)
Theorem column_0_fallback w distDir results line fn fp ln col content consumer p :
  fs_existsSync w (sourceMapPath w distDir fp) = true ->
  fs_readFileSync w (sourceMapPath w distDir fp) = inr content ->
  newSourceMapConsumer w content = inr consumer ->
  originalPositionFor consumer (Some ln) (Some col) = inr p ->
  let run := translateFrame w distDir results line fn fp ln col in
  (truthy (op_source p) = true ->
     queries (trace run) = [(Some ln, Some col)]
     /\ outcome run = inr (push results (success line fn fp ln col consumer p)))
  /\ (truthy (op_source p) = false -> 0 < col ->
        queries (trace run) = [(Some ln, Some col); (Some ln, Some 0)]
        /\ outcome run = inr (push results
             (resolved line fn fp ln col consumer
                (originalPositionFor consumer (Some ln) (Some 0)))))
  /\ (truthy (op_source p) = false -> col <= 0 ->
        queries (trace run) = [(Some ln, Some col)]
        /\ outcome run = inr (push results
             (failure line "No original position found in source map")))
  /\ Forall (fun q => fst q = Some ln) (queries (trace run))
  /\ (forall segments srcs contents,
        consumer = Resolver.consumerOf segments srcs contents ->
        (forall m, m ∈ segments -> generatedLine m <> ln) ->
        outcome run = inr (push results
          (failure line "No original position found in source map"))).
Proof.
  intros Hex Hrd Hnew Hq run. subst run.
  rewrite (translateFrame_loaded _ _ _ _ _ _ _ _ content consumer) by done.
  rewrite lookup_cases, Hq. cbn [trace outcome fst snd].
  split; [|split; [|split; [|split]]].
  - intros Hsrc. rewrite Hsrc. cbn. by rewrite Hsrc.
  - intros Hsrc Hcol. rewrite Hsrc. apply Z.ltb_lt in Hcol. rewrite Hcol. by cbn.
  - intros Hsrc Hcol. rewrite Hsrc.
    replace (0 <? col) with false by (symmetry; apply Z.ltb_ge; lia).
    cbn. by rewrite Hsrc.
  - destruct (negb (truthy (op_source p)) && (0 <? col)); cbn; repeat constructor.
  - intros segments srcs contents -> Hline.
    change (@inr Exn _ (Resolver.resolve segments (Some ln) (Some col)) = inr p) in Hq.
    rewrite resolve_empty_line in Hq by done. injection Hq as <-.
    change (originalPositionFor (Resolver.consumerOf segments srcs contents)
              (Some ln) (Some 0))
      with (@inr Exn _ (Resolver.resolve segments (Some ln) (Some 0))).
    rewrite resolve_empty_line by done.
    by destruct (0 <? col).
Qed.

Lemma column_0_fallback_witness :
  let run := translateFrame Demo.translatorWorld "./sourcemaps" []
               "    at main (app.js:3:37)" "main" "app.js" 3 37 in
  queries (trace run) = [(Some 3, Some 37); (Some 3, Some 0)]
  /\ outcome run = inr [success "    at main (app.js:3:37)" "main" "app.js" 3 37
                          Demo.consumerE
                          {| op_source := Some "app.ts"; op_line := Some 1;
                             op_column := Some 0; op_name := None |}].
Proof.
  apply (proj1 (proj2 (column_0_fallback Demo.translatorWorld "./sourcemaps" []
           "    at main (app.js:3:37)" "main" "app.js" 3 37
           "E" Demo.consumerE Resolver.notFound eq_refl eq_refl eq_refl eq_refl)));
    [reflexivity|lia].
Defined.

(** C3 as it is stated fails for a frame at column 0: the exact
    position yields no source, nothing is asked a second time, and the
    frame is reported as unresolved. *)
Lemma column_0_frame_not_retried :
  let run := translateLine Demo.translatorWorld "./sourcemaps" [] Demo.frameAtColumn0 in
  originalPositionFor Demo.consumerC (Some 7) (Some 0) = inr Resolver.notFound
  /\ queries (trace run) = [(Some 7, Some 0)]
  /\ queries (trace run) <> [(Some 7, Some 0); (Some 7, Some 0)]
  /\ outcome run
     = inr [failure Demo.frameAtColumn0 "No original position found in source map"].
Proof. vm_compute. repeat split; discriminate. Qed.

Lemma prefix_refl (p : string) : String.prefix p p = true.
Proof.
  induction p as [|c p IH]; [reflexivity|].
  cbn [String.prefix]. by destruct (ascii_dec c c).
Qed.

Lemma substring_none n (s : string) : substring n 0 s = "".
Proof.
  revert s. induction n as [|n IH]; intros [|c s]; cbn [substring]; auto.
Qed.

Lemma endsWith_app stem suffix : endsWith (stem +:+ suffix) suffix = true.
Proof.
  induction stem as [|c stem IH].
  - change ("" +:+ suffix) with suffix. destruct suffix; cbn [endsWith];
      by rewrite String.eqb_refl.
  - rewrite append_cons. cbn [endsWith]. rewrite IH. apply orb_true_r.
Qed.

(** When the pattern first occurs at the very end, [replace] rewrites
    the suffix. *)
Lemma replace_at_end pat rep stem :
  indexOf (stem +:+ pat) pat = Some (String.length stem) ->
  replace pat rep (stem +:+ pat) = stem +:+ rep.
Proof.
  induction stem as [|c stem IH].
  - intros _. change ("" +:+ pat) with pat. change ("" +:+ rep) with rep.
    destruct pat as [|x pat].
    + cbn. apply append_nil_r.
    + cbn [replace]. rewrite prefix_refl, Nat.sub_diag, substring_none.
      apply append_nil_r.
  - rewrite !append_cons. cbn [indexOf replace String.length].
    destruct (String.prefix pat (String c (stem +:+ pat))); [done|].
    destruct (indexOf (stem +:+ pat) pat) as [i|] eqn:Hi; [|done].
    cbn. intros [= ->]. by rewrite IH.
Qed.

(** C10: for a relative [.ts] file whose name holds [.ts] nowhere but
    at its end, the mapping document is the one of the [.js] artifact.  On
    a name that holds [.ts] earlier, the first [.ts] is the one replaced
    and the document is looked for under a name that keeps the [.ts]
    suffix. *)
Theorem ts_suffix_first_occurrence w distDir fp :
  path_isAbsolute w fp = false ->
  (forall stem,
     path_basename w fp = stem +:+ ".ts" ->
     indexOf (stem +:+ ".ts") ".ts" = Some (String.length stem) ->
     sourceMapPath w distDir fp = path_join w [distDir; (stem +:+ ".js") +:+ ".map"])
  /\ (path_basename w fp = "report.tsv.ts" ->
      sourceMapPath w distDir fp = path_join w [distDir; "report.jsv.ts.map"]
      /\ "report.jsv.ts.map" <> "report.tsv.js.map").
Proof.
  intros Habs. split.
  - intros stem Hbase Hfirst. unfold sourceMapPath.
    by rewrite Habs, Hbase, endsWith_app, replace_at_end.
  - intros Hbase. unfold sourceMapPath. rewrite Habs, Hbase.
    split; [reflexivity|discriminate].
Qed.

Lemma ts_suffix_first_occurrence_witness :
  sourceMapPath Demo.translatorWorld "./sourcemaps" "user.ts"
  = "./sourcemaps/user.js.map"
  /\ sourceMapPath Demo.translatorWorld "./sourcemaps" "report.tsv.ts"
     = "./sourcemaps/report.jsv.ts.map".
Proof.
  split.
  - apply (proj1 (ts_suffix_first_occurrence Demo.translatorWorld "./sourcemaps"
                    "user.ts" eq_refl) "user"); reflexivity.
  - apply (proj2 (ts_suffix_first_occurrence Demo.translatorWorld "./sourcemaps"
                    "report.tsv.ts" eq_refl)); reflexivity.
Defined.

End TranslatorSpec.

Module ChainFacts.
Import JS Eff SourceMap Chain TranslatorFacts.
Local Open Scope eff_scope.

(** The callback of [eachMapping], case by case. *)
Lemma chainMapping_cases tsConsumer generator mapping :
  chainMapping tsConsumer generator mapping =
  if negb (truthy (source mapping)) then ([], inr generator)
  else
    ([EvQuery (originalLine mapping) (originalColumn mapping)],
     match originalPositionFor tsConsumer (originalLine mapping) (originalColumn mapping) with
     | inl e => inl e
     | inr p =>
         inr (if truthy (op_source p)
              then addMapping generator
                     {| generated := (generatedLine mapping, generatedColumn mapping);
                        original := (op_line p, op_column p);
                        nm_source := op_source p;
                        nm_name := or_else (op_name p) (name mapping) |}
              else generator)
     end).
Proof.
  unfold chainMapping, query, call. destruct (negb (truthy (source mapping))); [reflexivity|].
  cbn [bind].
  destruct (originalPositionFor tsConsumer _ _) as [e|p]; [reflexivity|].
  by destruct (truthy (op_source p)).
Qed.

Lemma answers_cons tsConsumer m rest :
  answers tsConsumer (m :: rest) -> answers tsConsumer rest.
Proof. intros H m' Hm'. apply H. by right. Qed.

Lemma forEachMapping_keeps tsConsumer mappings : forall generator generator' x,
  outcome (forEachMapping tsConsumer mappings generator) = inr generator' ->
  x ∈ _mappings generator -> x ∈ _mappings generator'.
Proof.
  induction mappings as [|m rest IH]; intros g g' x; cbn [forEachMapping].
  - by intros [= <-].
  - destruct (outcome (chainMapping tsConsumer g m)) as [e|g1] eqn:Hstep.
    + by rewrite (outcome_bind_inl _ _ _ Hstep).
    + rewrite (outcome_bind_inr _ _ _ Hstep). intros Hrest Hx.
      apply (IH _ _ _ Hrest).
      rewrite chainMapping_cases in Hstep.
      destruct (negb (truthy (source m))); [by injection Hstep as <-|].
      cbn in Hstep. destruct (originalPositionFor tsConsumer _ _) as [e|p]; [done|].
      injection Hstep as <-. destruct (truthy (op_source p)); [|done].
      cbn. apply elem_of_app. by left.
Qed.

Lemma forEachMapping_total tsConsumer mappings : forall generator,
  answers tsConsumer mappings ->
  exists generator', outcome (forEachMapping tsConsumer mappings generator) = inr generator'.
Proof.
  induction mappings as [|m rest IH]; intros g Hans; cbn [forEachMapping]; [by eexists|].
  assert (exists g1, outcome (chainMapping tsConsumer g m) = inr g1) as [g1 Hstep].
  { rewrite chainMapping_cases. destruct (truthy (source m)) eqn:Hsrc; cbn; [|by eexists].
    destruct (Hans m) as [p ->]; [by left|done|]. by eexists. }
  rewrite (outcome_bind_inr _ _ _ Hstep). apply IH. by eapply answers_cons.
Qed.

End ChainFacts.

Module ChainSpec.
Import JS Eff SourceMap Chain TranslatorFacts ChainFacts.
Local Open Scope eff_scope.

Lemma forEachMapping_emits tsConsumer mappings : forall generator m p,
  answers tsConsumer mappings ->
  m ∈ mappings ->
  truthy (source m) = true ->
  originalPositionFor tsConsumer (originalLine m) (originalColumn m) = inr p ->
  truthy (op_source p) = true ->
  exists generator',
    outcome (forEachMapping tsConsumer mappings generator) = inr generator'
    /\ {| generated := (generatedLine m, generatedColumn m);
          original := (op_line p, op_column p);
          nm_source := op_source p;
          nm_name := if truthy (op_name p) then op_name p else name m |}
       ∈ _mappings generator'.
Proof.
  induction mappings as [|m0 rest IH]; intros g m p Hans Hin Hsrc Hq Hres.
  - by apply elem_of_nil in Hin.
  - cbn [forEachMapping].
    destruct (forEachMapping_total tsConsumer [m0] g) as [g1 Hstep].
    { intros m' Hm'. apply Hans. apply list_elem_of_singleton in Hm' as ->. by left. }
    cbn [forEachMapping] in Hstep.
    destruct (outcome (chainMapping tsConsumer g m0)) as [e|g1'] eqn:Hstep'.
    { by rewrite (outcome_bind_inl _ _ _ Hstep') in Hstep. }
    rewrite (outcome_bind_inr _ _ _ Hstep'). clear Hstep g1.
    apply elem_of_cons in Hin as [<-|Hin].
    + destruct (forEachMapping_total tsConsumer rest g1') as [g' Hrest].
      { by eapply answers_cons. }
      exists g'. split; [exact Hrest|].
      apply (forEachMapping_keeps _ _ _ _ _ Hrest).
      rewrite chainMapping_cases, Hsrc, Hq, Hres in Hstep'. cbn in Hstep'.
      injection Hstep' as <-. cbn. apply elem_of_app. right. by left.
    + apply IH; [by eapply answers_cons|done..].
Qed.

Lemma chainMapping_dropped tsConsumer generator m :
  dropped tsConsumer m ->
  outcome (chainMapping tsConsumer generator m) = inr generator.
Proof.
  rewrite chainMapping_cases. intros [Hsrc|(p & Hq & Hres)].
  - by rewrite Hsrc.
  - destruct (negb (truthy (source m))); [reflexivity|]. cbn. by rewrite Hq, Hres.
Qed.

Lemma forEachMapping_nothing_at tsConsumer mappings position : forall generator,
  answers tsConsumer mappings ->
  (forall m, m ∈ mappings -> (generatedLine m, generatedColumn m) = position ->
             dropped tsConsumer m) ->
  exists generator',
    outcome (forEachMapping tsConsumer mappings generator) = inr generator'
    /\ forall x, x ∈ _mappings generator' -> generated x = position ->
                 x ∈ _mappings generator.
Proof.
  induction mappings as [|m rest IH]; intros g Hans Hdrop; cbn [forEachMapping].
  - exists g. split; [reflexivity|auto].
  - destruct (forEachMapping_total tsConsumer [m] g) as [g1 Hstep].
    { intros m' Hm'. apply Hans. apply list_elem_of_singleton in Hm' as ->. by left. }
    cbn [forEachMapping] in Hstep.
    destruct (outcome (chainMapping tsConsumer g m)) as [e|g1'] eqn:Hstep'.
    { by rewrite (outcome_bind_inl _ _ _ Hstep') in Hstep. }
    rewrite (outcome_bind_inr _ _ _ Hstep'). clear Hstep g1.
    destruct (IH g1') as (g' & Hrest & Hnone).
    { by eapply answers_cons. }
    { intros m' Hm'. apply Hdrop. by right. }
    exists g'. split; [exact Hrest|].
    intros x Hx Hpos. specialize (Hnone x Hx Hpos).
    rewrite chainMapping_cases in Hstep'.
    destruct (truthy (source m)) eqn:Hsrc; cbn in Hstep'; [|by injection Hstep' as <-].
    destruct (originalPositionFor tsConsumer _ _) as [e|p] eqn:Hq; [done|].
    injection Hstep' as <-.
    destruct (truthy (op_source p)) eqn:Hres; [|done].
    cbn in Hnone. apply elem_of_app in Hnone as [Hold|Hnew]; [done|].
    apply list_elem_of_singleton in Hnew as ->. cbn in Hpos.
    destruct (Hdrop m) as [Hsrc'|(p' & Hq' & Hres')]; [by left|done| |]; congruence.
Qed.

(** Reading one source never fails: the content is stored when the
    file is there and can be read, and the generator is left as it was
    otherwise. *)
Lemma readSourceContent_outcome w tsSourceMapPath generator source :
  outcome (readSourceContent w tsSourceMapPath generator source)
  = inr (let sourceFilePath :=
           path_resolve w [path_dirname w tsSourceMapPath; source] in
         if fs_existsSync w sourceFilePath then
           match fs_readFileSync w sourceFilePath with
           | inr content => setSourceContent generator source (Some content)
           | inl _ => generator
           end
         else generator).
Proof.
  unfold readSourceContent. cbn.
  destruct (fs_existsSync w _); cbn; [|reflexivity].
  by destruct (fs_readFileSync w _).
Qed.

Lemma forEachSource_outcome w tsSourceMapPath sources : forall generator,
  exists generator',
    outcome (forEachSource w tsSourceMapPath sources generator) = inr generator'
    /\ _mappings generator' = _mappings generator
    /\ _file generator' = _file generator
    /\ forall source,
         _sourcesContents generator' !! source =
           let sourceFilePath :=
             path_resolve w [path_dirname w tsSourceMapPath; source] in
           if bool_decide (source ∈ sources) && fs_existsSync w sourceFilePath then
             match fs_readFileSync w sourceFilePath with
             | inr content => Some content
             | inl _ => _sourcesContents generator !! source
             end
           else _sourcesContents generator !! source.
Proof.
  induction sources as [|s0 rest IH]; intros g; cbn [forEachSource].
  - exists g. by repeat split.
  - rewrite (outcome_bind_inr _ _ _ (readSourceContent_outcome w tsSourceMapPath g s0)).
    match goal with |- context [forEachSource _ _ _ ?g1] => set (g1' := g1) end.
    destruct (IH g1') as (g' & Hrun & Hmap & Hfile & Hlook).
    exists g'. split; [exact Hrun|].
    assert (Hg1 : _mappings g1' = _mappings g /\ _file g1' = _file g
                  /\ forall source, _sourcesContents g1' !! source =
                       if bool_decide (source = s0)
                          && fs_existsSync w (path_resolve w [path_dirname w tsSourceMapPath; s0])
                       then match fs_readFileSync w
                                    (path_resolve w [path_dirname w tsSourceMapPath; s0]) with
                            | inr content => Some content
                            | inl _ => _sourcesContents g !! source
                            end
                       else _sourcesContents g !! source).
    { subst g1'. cbn zeta.
      destruct (fs_existsSync w _); cbn.
      - destruct (fs_readFileSync w _) as [e|content]; cbn.
        + repeat split. intros source. by destruct (bool_decide (source = s0)).
        + repeat split. intros source.
          destruct (bool_decide_reflect (source = s0)) as [->|Hne]; cbn.
          * by rewrite lookup_insert_eq.
          * by rewrite lookup_insert_ne.
      - repeat split. intros source. by rewrite andb_false_r. }
    destruct Hg1 as (Hmap1 & Hfile1 & Hlook1).
    split; [congruence|]. split; [congruence|].
    intros source. rewrite Hlook, Hlook1. cbn zeta.
    destruct (decide (source = s0)) as [->|Hne].
    + rewrite (bool_decide_eq_true_2 (s0 = s0)) by done.
      rewrite (bool_decide_eq_true_2 (s0 ∈ s0 :: rest)) by (by left).
      destruct (fs_existsSync w _); cbn; [|by rewrite andb_false_r].
      rewrite andb_true_r.
      destruct (fs_readFileSync w _); [|by destruct (bool_decide _)].
      by destruct (bool_decide _).
    + rewrite (bool_decide_eq_false_2 (source = s0)) by done. cbn.
      assert (bool_decide (source ∈ s0 :: rest) = bool_decide (source ∈ rest)) as ->.
      { apply bool_decide_ext. rewrite elem_of_cons. split; [by intros [?|?]|by right]. }
      reflexivity.
Qed.

Lemma forEachMapping_contents tsConsumer mappings : forall generator generator',
  outcome (forEachMapping tsConsumer mappings generator) = inr generator' ->
  _sourcesContents generator' = _sourcesContents generator
  /\ _file generator' = _file generator.
Proof.
  induction mappings as [|m rest IH]; intros g g'; cbn [forEachMapping].
  - by intros [= <-].
  - destruct (outcome (chainMapping tsConsumer g m)) as [e|g1] eqn:Hstep.
    + by rewrite (outcome_bind_inl _ _ _ Hstep).
    + rewrite (outcome_bind_inr _ _ _ Hstep). intros [H1 H2]%IH.
      rewrite H1, H2. rewrite chainMapping_cases in Hstep.
      destruct (negb (truthy (source m))); [by injection Hstep as <-|].
      cbn in Hstep. destruct (originalPositionFor tsConsumer _ _) as [e|p]; [done|].
      injection Hstep as <-. by destruct (truthy (op_source p)).
Qed.

Lemma forEachEmbedded_mappings contents sources : forall index generator,
  _mappings (forEachEmbedded contents sources index generator) = _mappings generator.
Proof.
  induction sources as [|source rest IH]; intros index g; [reflexivity|].
  cbn [forEachEmbedded]. by rewrite IH.
Qed.

(** Once both documents are loaded, what is left of the composition is
    the loop over the segments of B, run on a generator that holds the
    source contents and no segment yet. *)
Lemma chainGenerator_loaded w tsSourceMapPath obfSourceMapPath
    tsMapContent obfMapContent tsConsumer obfConsumer :
  loads w tsSourceMapPath obfSourceMapPath tsMapContent obfMapContent
        tsConsumer obfConsumer ->
  exists generator,
    outcome (addSourceContents w tsSourceMapPath tsMapContent
               (newGenerator
                  match mc_file obfMapContent with
                  | Some (String _ _ as f) => f
                  | _ => path_basename_ext w obfSourceMapPath ".map"
                  end)) = inr generator
    /\ _mappings generator = []
    /\ outcome (chainGenerator w tsSourceMapPath obfSourceMapPath)
       = outcome (forEachMapping tsConsumer (eachMapping obfConsumer) generator).
Proof.
  intros (tsText & obfText & H1 & H2 & H3 & H4 & H5 & H6).
  unfold chainGenerator, call.
  rewrite H1. cbn [bind]. rewrite H2. cbn [bind]. rewrite H3. cbn [bind].
  rewrite H4. cbn [bind]. rewrite H5. cbn [bind]. rewrite H6. cbn [bind].
  match goal with |- context [newGenerator ?f] => set (g0 := newGenerator f) end.
  assert (exists g1, outcome (addSourceContents w tsSourceMapPath tsMapContent g0) = inr g1
                     /\ _mappings g1 = []) as (g1 & Hg1 & Hmap).
  { unfold addSourceContents. destruct (mc_sourcesContent tsMapContent) as [contents|].
    - eexists. split; [reflexivity|]. by rewrite forEachEmbedded_mappings.
    - destruct (forEachSource_outcome w tsSourceMapPath (mc_sources tsMapContent) g0)
        as (g1 & Hrun & Hmap & _). by exists g1. }
  exists g1. split; [exact Hg1|]. split; [exact Hmap|].
  rewrite <- (outcome_bind_inr _ (fun g => forEachMapping tsConsumer (eachMapping obfConsumer) g)
                _ Hg1).
  match goal with |- context [bind ?m ?f] => destruct (bind m f) as [log r] end.
  reflexivity.
Qed.

Lemma chainSourceMaps_outcome w tsSourceMapPath obfSourceMapPath :
  outcome (chainSourceMaps w tsSourceMapPath obfSourceMapPath)
  = inr match outcome (chainGenerator w tsSourceMapPath obfSourceMapPath) with
        | inr generator => Some (generator_toString w generator)
        | inl _ => None
        end.
Proof.
  unfold chainSourceMaps.
  destruct (chainGenerator w tsSourceMapPath obfSourceMapPath) as [log [e|g]]; reflexivity.
Qed.

(** C8: when the first document embeds no contents, every source of it
    is looked for next to the document; the content that can be read
    is stored under its source, a source that is missing or cannot be read
    gets none, and the composition goes on. *)
Theorem source_contents_embedded w tsSourceMapPath obfSourceMapPath
    tsMapContent obfMapContent tsConsumer obfConsumer :
  loads w tsSourceMapPath obfSourceMapPath tsMapContent obfMapContent
        tsConsumer obfConsumer ->
  answers tsConsumer (eachMapping obfConsumer) ->
  mc_sourcesContent tsMapContent = None ->
  exists composed,
    outcome (chainGenerator w tsSourceMapPath obfSourceMapPath) = inr composed
    /\ outcome (chainSourceMaps w tsSourceMapPath obfSourceMapPath)
       = inr (Some (generator_toString w composed))
    /\ forall source,
         _sourcesContents composed !! source =
           let sourceFilePath :=
             path_resolve w [path_dirname w tsSourceMapPath; source] in
           if bool_decide (source ∈ mc_sources tsMapContent)
              && fs_existsSync w sourceFilePath
           then match fs_readFileSync w sourceFilePath with
                | inr content => Some content
                | inl _ => None
                end
           else None.
Proof.
  intros Hloads Hans Hnone.
  rewrite chainSourceMaps_outcome.
  destruct (chainGenerator_loaded _ _ _ _ _ _ _ Hloads) as (g1 & Hg1 & _ & ->).
  unfold addSourceContents in Hg1. rewrite Hnone in Hg1.
  match type of Hg1 with context [newGenerator ?f] => set (g0 := newGenerator f) in * end.
  destruct (forEachSource_outcome w tsSourceMapPath (mc_sources tsMapContent) g0)
    as (g1' & Hsrc & _ & _ & Hlook).
  rewrite Hsrc in Hg1. injection Hg1 as ->.
  destruct (forEachMapping_total tsConsumer (eachMapping obfConsumer) g1 Hans)
    as [composed Hrun].
  rewrite Hrun. exists composed. split; [reflexivity|]. split; [reflexivity|].
  intros source. destruct (forEachMapping_contents _ _ _ _ Hrun) as [-> _].
  rewrite Hlook. subst g0. cbn [newGenerator _sourcesContents]. cbn zeta.
  by rewrite lookup_empty.
Qed.

Lemma source_contents_embedded_witness :
  exists composed,
    outcome (chainGenerator Demo.chainWorld Demo.tsMapPath Demo.obfMapPath) = inr composed
    /\ outcome (chainSourceMaps Demo.chainWorld Demo.tsMapPath Demo.obfMapPath)
       = inr (Some "{user.js}")
    /\ _sourcesContents composed !! "user.ts" = Some "const userController = 1;"
    /\ _sourcesContents composed !! "types.ts" = None.
Proof.
  destruct (source_contents_embedded Demo.chainWorld Demo.tsMapPath Demo.obfMapPath
              Demo.contentA Demo.contentB Demo.consumerA
              (Resolver.consumerOf Demo.segmentsB' ["user.js"] None))
    as (composed & Hgen & Hchain & Hlook).
  - exists "A", "B". by repeat split.
  - intros m _ _. eexists. reflexivity.
  - reflexivity.
  - exists composed. split; [exact Hgen|]. split.
    + rewrite Hchain. f_equal. f_equal.
      assert (Hc : outcome (chainGenerator Demo.chainWorld Demo.tsMapPath Demo.obfMapPath)
                   = inr composed) by exact Hgen.
      vm_compute in Hc. injection Hc as <-. reflexivity.
    + split; rewrite Hlook; reflexivity.
Defined.

(** C1: a segment of B with an original position that A resolves to a
    source is emitted at B's generated position, with A's original
    position and source, and with A's name when A has one and B's name
    otherwise.  On the two maps of the end-to-end scenario the composed
    document resolves 98:19 to [user.ts] 2:3, name [userController]. *)
Theorem chained_segment_emitted :
  (forall w tsSourceMapPath obfSourceMapPath tsMapContent obfMapContent
          tsConsumer obfConsumer m p,
     loads w tsSourceMapPath obfSourceMapPath tsMapContent obfMapContent
           tsConsumer obfConsumer ->
     answers tsConsumer (eachMapping obfConsumer) ->
     m ∈ eachMapping obfConsumer ->
     truthy (source m) = true ->
     originalPositionFor tsConsumer (originalLine m) (originalColumn m) = inr p ->
     truthy (op_source p) = true ->
     exists composed,
       outcome (chainGenerator w tsSourceMapPath obfSourceMapPath) = inr composed
       /\ {| generated := (generatedLine m, generatedColumn m);
             original := (op_line p, op_column p);
             nm_source := op_source p;
             nm_name := if truthy (op_name p) then op_name p else name m |}
          ∈ _mappings composed)
  /\ exists composed,
       outcome (chainGenerator Demo.chainWorld Demo.tsMapPath Demo.obfMapPath)
       = inr composed
       /\ Resolver.resolve (Resolver.asSegments (_mappings composed)) (Some 98) (Some 19)
          = {| op_source := Some "user.ts"; op_line := Some 2; op_column := Some 3;
               op_name := Some "userController" |}.
Proof.
  split.
  - intros w ts obf A B tsConsumer obfConsumer m p Hloads Hans Hm Hsrc Hq Hres.
    destruct (chainGenerator_loaded _ _ _ _ _ _ _ Hloads) as (g1 & _ & _ & ->).
    by apply forEachMapping_emits.
  - eexists. split; vm_compute; reflexivity.
Qed.

Lemma chained_segment_emitted_witness :
  exists composed,
    outcome (chainGenerator Demo.chainWorld Demo.tsMapPath Demo.obfMapPath) = inr composed
    /\ {| generated := (98, 19); original := (Some 2, Some 3);
          nm_source := Some "user.ts"; nm_name := Some "userController" |}
       ∈ _mappings composed.
Proof.
  apply (proj1 chained_segment_emitted Demo.chainWorld Demo.tsMapPath Demo.obfMapPath
           Demo.contentA Demo.contentB Demo.consumerA
           (Resolver.consumerOf Demo.segmentsB' ["user.js"] None)
           {| source := Some "user.js"; generatedLine := 98; generatedColumn := 19;
              originalLine := Some 5; originalColumn := Some 10;
              name := Some "_0x3a4f2b" |}
           {| op_source := Some "user.ts"; op_line := Some 2; op_column := Some 3;
              op_name := Some "userController" |}).
  - exists "A", "B". by repeat split.
  - intros m _ _. eexists. reflexivity.
  - cbn. unfold Demo.segmentsB', Demo.segmentsB. cbn [app].
    apply elem_of_cons; right. apply elem_of_cons; right. apply elem_of_cons; by left.
  - reflexivity.
  - reflexivity.
  - reflexivity.
Defined.

(** C2: a segment of B without an original position, or whose
    original position A does not resolve to a source, leaves the
    generator as it was and raises nothing; when all the segments of B at
    a generated position are such, the composed output holds no segment
    at that position. *)
Theorem unresolved_segments_dropped :
  (forall tsConsumer generator m,
     truthy (source m) = false ->
     chainMapping tsConsumer generator m = ([], inr generator))
  /\ (forall tsConsumer generator m p,
        truthy (source m) = true ->
        originalPositionFor tsConsumer (originalLine m) (originalColumn m) = inr p ->
        truthy (op_source p) = false ->
        chainMapping tsConsumer generator m
        = ([EvQuery (originalLine m) (originalColumn m)], inr generator))
  /\ (forall w tsSourceMapPath obfSourceMapPath tsMapContent obfMapContent
             tsConsumer obfConsumer line column,
        loads w tsSourceMapPath obfSourceMapPath tsMapContent obfMapContent
              tsConsumer obfConsumer ->
        answers tsConsumer (eachMapping obfConsumer) ->
        (forall m, m ∈ eachMapping obfConsumer ->
           (generatedLine m, generatedColumn m) = (line, column) ->
           dropped tsConsumer m) ->
        exists composed,
          outcome (chainGenerator w tsSourceMapPath obfSourceMapPath) = inr composed
          /\ forall x, x ∈ _mappings composed -> generated x <> (line, column)).
Proof.
  split; [|split].
  - intros c g m Hsrc. by rewrite chainMapping_cases, Hsrc.
  - intros c g m p Hsrc Hq Hres. by rewrite chainMapping_cases, Hsrc, Hq, Hres.
  - intros w ts obf A B tsConsumer obfConsumer line column Hloads Hans Hdrop.
    destruct (chainGenerator_loaded _ _ _ _ _ _ _ Hloads) as (g1 & _ & Hempty & ->).
    destruct (forEachMapping_nothing_at tsConsumer (eachMapping obfConsumer)
                (line, column) g1 Hans Hdrop) as (g' & Hrun & Hnone).
    exists g'. split; [exact Hrun|].
    intros x Hx Hpos. specialize (Hnone x Hx Hpos). rewrite Hempty in Hnone.
    by apply elem_of_nil in Hnone.
Qed.

Lemma unresolved_segments_dropped_witness :
  exists composed,
    outcome (chainGenerator Demo.chainWorld Demo.tsMapPath Demo.obfMapPath) = inr composed
    /\ forall x, x ∈ _mappings composed -> generated x <> (2, 5).
Proof.
  apply (proj2 (proj2 unresolved_segments_dropped)
           Demo.chainWorld Demo.tsMapPath Demo.obfMapPath
           Demo.contentA Demo.contentB Demo.consumerA
           (Resolver.consumerOf Demo.segmentsB' ["user.js"] None) 2 5).
  - exists "A", "B". by repeat split.
  - intros m _ _. eexists. reflexivity.
  - intros m Hm Hpos. right. eexists. split; [reflexivity|].
    cbn in Hm. unfold Demo.segmentsB', Demo.segmentsB in Hm. cbn [app] in Hm.
    repeat (apply elem_of_cons in Hm as [->|Hm]; [try discriminate; reflexivity|]).
    by apply elem_of_nil in Hm.
Defined.

Lemma trace_bind {A B} (m : M A) (f : A -> M B) :
  trace (bind m f)
  = trace m ++ match outcome m with
               | inr a => trace (f a)
               | inl _ => []
               end.
Proof.
  destruct m as [log [e|a]]; cbn; [by rewrite app_nil_r|].
  by destruct (f a).
Qed.

(** One document of the loop of [main]: whatever happens to it, it is
    counted once, as chained or as failed, provided the composed map can
    be written. *)
Lemma chainFile_counted w chainedCount failedCount tsMapPath :
  (forall path content, fs_writeFileSync w path content = inr tt) ->
  exists chainedCount' failedCount',
    outcome (chainFile w (chainedCount, failedCount) tsMapPath)
    = inr (chainedCount', failedCount')
    /\ chainedCount' + failedCount' = chainedCount + failedCount + 1
    /\ EvExists (path_join w [DIST_DIR; path_relative w TS_BACKUP_DIR tsMapPath])
       ∈ trace (chainFile w (chainedCount, failedCount) tsMapPath).
Proof.
  intros Hwrite. unfold chainFile.
  set (obfMapPath := path_join w [DIST_DIR; path_relative w TS_BACKUP_DIR tsMapPath]).
  rewrite trace_bind.
  rewrite (outcome_bind_inr (call (EvExists obfMapPath) (inr (fs_existsSync w obfMapPath)))
             _ (fs_existsSync w obfMapPath) eq_refl).
  cbn [call trace outcome fst snd app].
  assert (Hhead : forall rest, EvExists obfMapPath ∈ EvExists obfMapPath :: rest)
    by (intros; by left).
  destruct (fs_existsSync w obfMapPath); cbn [negb].
  - assert (Hchain := chainSourceMaps_outcome w tsMapPath obfMapPath).
    rewrite (outcome_bind_inr _ _ _ Hchain).
    destruct (outcome (chainGenerator w tsMapPath obfMapPath)) as [e|g].
    + exists chainedCount, (failedCount + 1).
      split; [reflexivity|]. split; [lia|apply Hhead].
    + destruct (generator_toString w g) as [|c text] eqn:Htext.
      * exists chainedCount, (failedCount + 1).
        split; [reflexivity|]. split; [lia|apply Hhead].
      * exists (chainedCount + 1), failedCount. unfold call. rewrite Hwrite.
        split; [reflexivity|]. split; [lia|apply Hhead].
  - exists chainedCount, (failedCount + 1).
    split; [reflexivity|]. split; [lia|apply Hhead].
Qed.

Lemma forMapFiles_counted w tsMapFiles : forall chainedCount failedCount,
  (forall path content, fs_writeFileSync w path content = inr tt) ->
  exists chainedCount' failedCount',
    outcome (forMapFiles w tsMapFiles (chainedCount, failedCount))
    = inr (chainedCount', failedCount')
    /\ chainedCount' + failedCount'
       = chainedCount + failedCount + Z.of_nat (length tsMapFiles)
    /\ forall tsMapPath, tsMapPath ∈ tsMapFiles ->
         EvExists (path_join w [DIST_DIR; path_relative w TS_BACKUP_DIR tsMapPath])
         ∈ trace (forMapFiles w tsMapFiles (chainedCount, failedCount)).
Proof.
  induction tsMapFiles as [|f rest IH]; intros c n Hwrite; cbn [forMapFiles].
  - exists c, n. split; [reflexivity|]. split; [cbn; lia|].
    intros p Hp. by apply elem_of_nil in Hp.
  - destruct (chainFile_counted w c n f Hwrite) as (c1 & n1 & Hstep & Hsum & Hev).
    destruct (IH c1 n1 Hwrite) as (c2 & n2 & Hrest & Hsum' & Hev').
    exists c2, n2. rewrite (outcome_bind_inr _ _ _ Hstep). split; [exact Hrest|].
    split; [rewrite length_cons; lia|].
    intros p Hp. rewrite trace_bind, Hstep. apply elem_of_app.
    apply elem_of_cons in Hp as [->|Hp]; [by left|right; auto].
Qed.

End ChainSpec.

Module PipelineSpec.
Import JS Eff SourceMap TranslatorFacts TranslatorSpec ChainFacts ChainSpec.
Local Open Scope eff_scope.

Lemma chainGenerator_unreadable w tsSourceMapPath obfSourceMapPath e :
  Chain.fs_readFileSync w tsSourceMapPath = inl e ->
  outcome (Chain.chainGenerator w tsSourceMapPath obfSourceMapPath) = inl e.
Proof. intros H. unfold Chain.chainGenerator, call. by rewrite H. Qed.

Lemma chainGenerator_undecodable w tsSourceMapPath obfSourceMapPath text e :
  Chain.fs_readFileSync w tsSourceMapPath = inr text ->
  Chain.JSON_parse w text = inl e ->
  outcome (Chain.chainGenerator w tsSourceMapPath obfSourceMapPath) = inl e.
Proof.
  intros H1 H2. unfold Chain.chainGenerator, call. rewrite H1. cbn [bind]. by rewrite H2.
Qed.

(** C4: a frame whose mapping document is missing, cannot be read or
    decoded, or does not resolve the position gets an entry with the reason
    in [error] and no translation, and the loop over the lines goes on to
    the end; a composition that fails returns [null], and the loop of
    [main] goes on to the next document. *)
Theorem failures_are_contained :
  (forall w distDir results line fn fp ln col,
     let path := Translator.sourceMapPath w distDir fp in
     let run := outcome (Translator.translateFrame w distDir results line fn fp ln col) in
     (Translator.fs_existsSync w path = false ->
        run = inr (Translator.push results
                     (Translator.failure line ("Source map not found: " +:+ path))))
     /\ (forall e,
           Translator.fs_existsSync w path = true ->
           Translator.fs_readFileSync w path = inl e ->
           run = inr (Translator.push results
                        (Translator.failure line ("Error reading source map: " +:+ e))))
     /\ (forall content e,
           Translator.fs_existsSync w path = true ->
           Translator.fs_readFileSync w path = inr content ->
           Translator.newSourceMapConsumer w content = inl e ->
           run = inr (Translator.push results
                        (Translator.failure line ("Error reading source map: " +:+ e))))
     /\ (forall content consumer e,
           Translator.fs_existsSync w path = true ->
           Translator.fs_readFileSync w path = inr content ->
           Translator.newSourceMapConsumer w content = inr consumer ->
           outcome (Translator.lookup consumer ln col) = inl e ->
           run = inr (Translator.push results
                        (Translator.failure line ("Error reading source map: " +:+ e))))
     /\ (forall content consumer p,
           Translator.fs_existsSync w path = true ->
           Translator.fs_readFileSync w path = inr content ->
           Translator.newSourceMapConsumer w content = inr consumer ->
           outcome (Translator.lookup consumer ln col) = inr p ->
           truthy (op_source p) = false ->
           run = inr (Translator.push results
                        (Translator.failure line "No original position found in source map"))))
  /\ (forall w stackTrace distDir,
        exists results,
          outcome (Translator.translateStackTrace w stackTrace distDir) = inr results
          /\ length results = length (split "010" stackTrace))
  /\ (forall w tsSourceMapPath obfSourceMapPath,
        exists r,
          outcome (Chain.chainSourceMaps w tsSourceMapPath obfSourceMapPath) = inr r
          /\ (forall e, Chain.fs_readFileSync w tsSourceMapPath = inl e -> r = None)
          /\ (forall text e,
                Chain.fs_readFileSync w tsSourceMapPath = inr text ->
                Chain.JSON_parse w text = inl e -> r = None)
          /\ (forall e,
                outcome (Chain.chainGenerator w tsSourceMapPath obfSourceMapPath) = inl e ->
                r = None))
  /\ (forall w tsMapFiles chainedCount failedCount,
        (forall path content, Chain.fs_writeFileSync w path content = inr tt) ->
        exists chainedCount' failedCount',
          outcome (Chain.forMapFiles w tsMapFiles (chainedCount, failedCount))
          = inr (chainedCount', failedCount')
          /\ chainedCount' + failedCount'
             = chainedCount + failedCount + Z.of_nat (length tsMapFiles)
          /\ forall tsMapPath, tsMapPath ∈ tsMapFiles ->
               EvExists (Chain.path_join w
                           [Chain.DIST_DIR;
                            Chain.path_relative w Chain.TS_BACKUP_DIR tsMapPath])
               ∈ trace (Chain.forMapFiles w tsMapFiles (chainedCount, failedCount))).
Proof.
  split; [|split; [|split]].
  - intros w distDir results line fn fp ln col path run. subst path run.
    split; [|split; [|split; [|split]]].
    + intros Hex. by rewrite translateFrame_missing.
    + intros e Hex Hrd. by rewrite (translateFrame_unreadable _ _ _ _ _ _ _ _ e).
    + intros content e Hex Hrd Hnew.
      by rewrite (translateFrame_undecodable _ _ _ _ _ _ _ _ content e).
    + intros content consumer e Hex Hrd Hnew Hlk.
      rewrite (translateFrame_loaded _ _ _ _ _ _ _ _ content consumer) by done.
      cbn [outcome snd]. by rewrite Hlk.
    + intros content consumer p Hex Hrd Hnew Hlk Hsrc.
      rewrite (translateFrame_loaded _ _ _ _ _ _ _ _ content consumer) by done.
      cbn [outcome snd]. rewrite Hlk. cbn. by rewrite Hsrc.
  - intros w stackTrace distDir.
    destruct (forLines_entries w distDir (split "010" stackTrace) [])
      as (results & Hrun & Hall).
    exists results. split; [exact Hrun|]. symmetry. exact (Forall2_length _ _ _ Hall).
  - intros w ts obf. eexists. split; [apply chainSourceMaps_outcome|].
    split; [|split].
    + intros e H. by rewrite (chainGenerator_unreadable _ _ _ _ H).
    + intros text e H1 H2. by rewrite (chainGenerator_undecodable _ _ _ _ _ H1 H2).
    + by intros e ->.
  - intros w files c n Hwrite. by apply forMapFiles_counted.
Qed.

Lemma failures_are_contained_witness :
  outcome (Translator.translateFrame Demo.translatorWorld "./sourcemaps" []
             "    at handler (index.js:234:15)" "handler" "index.js" 234 15)
  = inr [Translator.failure "    at handler (index.js:234:15)"
           "Source map not found: ./sourcemaps/index.js.map"]
  /\ exists chainedCount' failedCount',
       outcome (Chain.forMapFiles Demo.chainWorld
                  [Demo.tsMapPath; "./dist-sourcemaps-backup/index.js.map"] (0, 0))
       = inr (chainedCount', failedCount')
       /\ chainedCount' + failedCount' = 0 + 0 + 2.
Proof.
  split.
  - apply (proj1 (proj1 failures_are_contained Demo.translatorWorld "./sourcemaps" []
                    "    at handler (index.js:234:15)" "handler" "index.js" 234 15)).
    reflexivity.
  - destruct (proj2 (proj2 (proj2 failures_are_contained)) Demo.chainWorld
                [Demo.tsMapPath; "./dist-sourcemaps-backup/index.js.map"] 0 0)
      as (c & n & Hrun & Hsum & _); [reflexivity|].
    exists c, n. split; [exact Hrun|exact Hsum].
Defined.

End PipelineSpec.

Module CodecFacts.
Import JS Codec RegexFacts.

(** *** Base64 digits *)

Lemma base64_decode_encode d :
  0 <= d < 64 -> base64_decode (base64_encode d) = Some d.
Proof.
  intros Hd. rewrite <- (Z2Nat.id d) by lia.
  assert (Hn : (Z.to_nat d < 64)%nat) by lia.
  revert Hn. generalize (Z.to_nat d). clear d Hd. intros n Hn.
  do 64 (destruct n as [|n]; [vm_compute; reflexivity|]).
  lia.
Qed.

Lemma base64_not_separator d : not_separator (base64_encode d) = true.
Proof.
  unfold base64_encode.
  generalize (Z.to_nat d). intros n.
  do 64 (destruct n as [|n]; [vm_compute; reflexivity|]).
  reflexivity.
Qed.

Lemma low_digit v : 0 <= v -> 0 <= Z.land v 31 < 32.
Proof.
  intros Hv. change 31 with (Z.ones 5). rewrite Z.land_ones by lia.
  apply Z.mod_pos_bound. lia.
Qed.

Lemma continued_digit d :
  0 <= d < 32 -> 0 <= Z.lor d 32 < 64 /\ Z.land (Z.lor d 32) 31 = d /\ 32 <= Z.lor d 32.
Proof.
  intros Hd. rewrite <- (Z2Nat.id d) by lia.
  assert (Hn : (Z.to_nat d < 32)%nat) by lia.
  revert Hn. generalize (Z.to_nat d). clear d Hd. intros n Hn.
  do 32 (destruct n as [|n]; [vm_compute; repeat split; discriminate|]).
  lia.
Qed.

Lemma last_digit d : 0 <= d < 32 -> Z.land d 31 = d.
Proof.
  intros Hd. change 31 with (Z.ones 5). rewrite Z.land_ones by lia.
  apply Z.mod_small. lia.
Qed.

(** *** Variable-length quantities *)

Lemma vlq_digits_decode n : forall v rest shift acc pending,
  0 <= v < 2 ^ (5 * Z.of_nat n) -> (0 < n)%nat -> 0 <= shift ->
  vlq_decode_all (vlq_digits n v +:+ rest) shift acc pending
  = cons (from_vlq_signed (acc + Z.shiftl v shift)) <$> vlq_decode_all rest 0 0 false.
Proof.
  induction n as [|n IH]; intros v rest shift acc pending Hv Hn Hshift; [lia|].
  cbn [vlq_digits].
  assert (Hdigit := low_digit v (proj1 Hv)).
  assert (Hrest : Z.shiftr v 5 = v / 32) by (rewrite Z.shiftr_div_pow2 by lia; reflexivity).
  assert (Hsplit : v = Z.land v 31 + 32 * (v / 32)).
  { change 31 with (Z.ones 5). rewrite Z.land_ones by lia. change (2 ^ 5) with 32.
    pose proof (Z.div_mod v 32). lia. }
  destruct (Z.ltb_spec 0 (Z.shiftr v 5)) as [Hmore|Hlast].
  - destruct (continued_digit _ Hdigit) as (Hrange & Hlow & Hflag).
    rewrite append_cons. cbn [vlq_decode_all].
    rewrite base64_decode_encode by exact Hrange. rewrite Hlow.
    apply Z.leb_le in Hflag. rewrite Hflag.
    rewrite IH.
    + do 2 f_equal. rewrite <- Z.add_assoc. f_equal.
      rewrite !Z.shiftl_mul_pow2 by lia. rewrite Hrest.
      rewrite Z.pow_add_r by lia. change (2 ^ 5) with 32. lia.
    + rewrite Hrest. split; [apply Z.div_pos; lia|].
      apply Z.div_lt_upper_bound; [lia|].
      replace (5 * Z.of_nat (S n)) with (5 + 5 * Z.of_nat n) in Hv by lia.
      rewrite Z.pow_add_r in Hv by lia. change (2 ^ 5) with 32 in Hv. lia.
    + destruct n; [|lia]. rewrite Hrest in Hmore.
      change (2 ^ (5 * Z.of_nat 1)) with 32 in Hv.
      assert (v / 32 = 0) by (apply Z.div_small; lia). lia.
    + lia.
  - rewrite append_cons. cbn [vlq_decode_all].
    rewrite base64_decode_encode by lia.
    rewrite (last_digit _ Hdigit).
    destruct (Z.leb_spec 32 (Z.land v 31)) as [Hbad|_]; [lia|].
    change ("" +:+ rest) with rest.
    rewrite Hrest in Hlast.
    assert (0 <= v / 32) by (apply Z.div_pos; lia).
    assert (Hv' : Z.land v 31 = v) by lia.
    by rewrite Hv'.
Qed.

Lemma from_to_vlq_signed v : from_vlq_signed (to_vlq_signed v) = v.
Proof.
  unfold from_vlq_signed, to_vlq_signed.
  destruct (Z.ltb_spec v 0) as [Hneg|Hpos].
  - rewrite Z.shiftl_mul_pow2 by lia. change (2 ^ 1) with 2.
    rewrite Z.bit0_odd.
    replace (- v * 2 + 1) with (1 + 2 * (- v)) by lia.
    rewrite Z.odd_add_mul_2. cbn [Z.odd].
    rewrite Z.shiftr_div_pow2 by lia. change (2 ^ 1) with 2.
    replace (1 + 2 * - v) with (1 + (- v) * 2) by lia.
    rewrite Z.div_add by lia. change (1 / 2) with 0. lia.
  - rewrite Z.shiftl_mul_pow2 by lia. change (2 ^ 1) with 2.
    rewrite Z.bit0_odd.
    replace (v * 2) with (0 + 2 * v) by lia.
    rewrite Z.odd_add_mul_2. cbn [Z.odd].
    rewrite Z.shiftr_div_pow2 by lia. change (2 ^ 1) with 2.
    replace (0 + 2 * v) with (v * 2) by lia.
    by rewrite Z.div_mul.
Qed.

Lemma to_vlq_signed_nonneg v : 0 <= to_vlq_signed v.
Proof.
  unfold to_vlq_signed. destruct (Z.ltb_spec v 0).
  - rewrite Z.shiftl_mul_pow2 by lia. lia.
  - rewrite Z.shiftl_mul_pow2 by lia. lia.
Qed.

Lemma vlq_encode_decode v rest :
  vlq_decode_all (vlq_encode v +:+ rest) 0 0 false
  = cons v <$> vlq_decode_all rest 0 0 false.
Proof.
  unfold vlq_encode.
  assert (Hu := to_vlq_signed_nonneg v).
  rewrite vlq_digits_decode; [| |lia|lia].
  - rewrite Z.shiftl_0_r, Z.add_0_l. by rewrite from_to_vlq_signed.
  - split; [exact Hu|].
    destruct (Z.eq_dec (to_vlq_signed v) 0) as [->|Hne]; [by vm_compute|].
    assert (Hlog := Z.log2_nonneg (to_vlq_signed v)).
    destruct (Z.log2_spec (to_vlq_signed v)) as [_ Hlt]; [lia|].
    eapply Z.lt_le_trans; [exact Hlt|].
    apply Z.pow_le_mono_r; lia.
Qed.

Lemma decode_encode_fields fields : decode_fields (encode_fields fields) = Some fields.
Proof.
  unfold decode_fields. induction fields as [|v fields IH]; [reflexivity|].
  cbn [encode_fields foldr]. rewrite vlq_encode_decode.
  fold (encode_fields fields). by rewrite IH.
Qed.

(** *** Separators *)

Lemma split_lacks sep s : lacks sep s = true -> split sep s = [s].
Proof.
  induction s as [|c s IH]; [reflexivity|].
  cbn [lacks all_in split]. intros [Hc Hs]%andb_true_iff.
  apply negb_true_iff in Hc. rewrite Hc. fold (lacks sep s) in Hs.
  by rewrite (IH Hs).
Qed.

Lemma split_app sep s rest :
  lacks sep s = true ->
  split sep (s +:+ String sep rest) = s :: split sep rest.
Proof.
  induction s as [|c s IH].
  - intros _. change ("" +:+ String sep rest) with (String sep rest).
    cbn [split]. by rewrite Ascii.eqb_refl.
  - cbn [lacks all_in]. intros [Hc Hs]%andb_true_iff.
    apply negb_true_iff in Hc. rewrite append_cons. cbn [split]. rewrite Hc.
    fold (lacks sep s) in Hs. by rewrite (IH Hs).
Qed.

Lemma split_join sep pieces :
  pieces <> [] -> Forall (fun piece => lacks sep piece = true) pieces ->
  split sep (join (String sep "") pieces) = pieces.
Proof.
  induction pieces as [|piece rest IH]; [done|]. intros _ Hall.
  apply Forall_cons in Hall as [Hpiece Hrest].
  destruct rest as [|piece' rest'].
  - cbn [join]. by apply split_lacks.
  - change (join (String sep "") (piece :: piece' :: rest'))
      with (piece +:+ String sep "" +:+ join (String sep "") (piece' :: rest')).
    change (String sep "" +:+ join (String sep "") (piece' :: rest'))
      with (String sep (join (String sep "") (piece' :: rest'))).
    rewrite split_app by done. by rewrite IH.
Qed.

Lemma vlq_digits_chars n : forall v, all_in not_separator (vlq_digits n v) = true.
Proof.
  induction n as [|n IH]; intros v; [reflexivity|].
  cbn [vlq_digits]. destruct (0 <? Z.shiftr v 5); cbn [all_in].
  - by rewrite base64_not_separator, IH.
  - by rewrite base64_not_separator.
Qed.

Lemma encode_fields_chars fields : all_in not_separator (encode_fields fields) = true.
Proof.
  induction fields as [|v fields IH]; [reflexivity|].
  cbn [encode_fields foldr]. fold (encode_fields fields).
  rewrite all_in_app, IH. unfold vlq_encode. by rewrite vlq_digits_chars.
Qed.

Lemma encode_fields_nonempty fields : fields <> [] -> encode_fields fields <> "".
Proof.
  destruct fields as [|v fields]; [done|]. intros _.
  cbn [encode_fields foldr]. unfold vlq_encode. cbn [vlq_digits].
  by destruct (0 <? _).
Qed.

Lemma encode_segment_nonempty p seg : encode_segment p seg <> [].
Proof.
  unfold encode_segment.
  by destruct (sourceIndex seg), (originalLine seg), (originalColumn seg).
Qed.

Lemma not_separator_lacks s :
  all_in not_separator s = true -> lacks "," s = true /\ lacks ";" s = true.
Proof.
  intros H. split; apply (all_in_impl not_separator); try exact H;
    intros c [H1 H2]%andb_true_iff; assumption.
Qed.

(** *** Segments *)

Lemma decode_encode_segment srcs nms p line seg :
  well_shaped srcs nms seg -> generatedLine seg = line ->
  decode_segment srcs nms p line (encode_segment p seg) = Some seg.
Proof.
  unfold well_shaped, encode_segment, decode_segment.
  destruct seg as [gl gc [s|] [l|] [c|] [n|]]; cbn; try done; intros Hshape <-.
  - destruct Hshape as [Hs Hn].
    replace (prevSource p + (s - prevSource p)) with s by lia.
    replace (prevName p + (n - prevName p)) with n by lia.
    rewrite Hs, Hn. cbn. do 2 f_equal; f_equal; lia.
  - replace (prevSource p + (s - prevSource p)) with s by lia.
    rewrite Hshape. do 2 f_equal; f_equal; lia.
  - do 2 f_equal. lia.
Qed.

Lemma decode_segment_shaped srcs nms p line fields seg :
  decode_segment srcs nms p line fields = Some seg ->
  well_shaped srcs nms seg /\ generatedLine seg = line.
Proof.
  unfold decode_segment, well_shaped.
  destruct fields as [|dc [|ds [|dl [|dcol [|dn [|x fields]]]]]]; try done.
  - by intros [= <-].
  - destruct (in_table _ srcs) eqn:Hs; [|done]. by intros [= <-].
  - destruct (in_table _ srcs) eqn:Hs; [|done].
    destruct (in_table _ nms) eqn:Hn; [|done]. by intros [= <-].
Qed.

Lemma decode_encode_pieces srcs nms line : forall segs p k,
  Forall (fun seg => well_shaped srcs nms seg /\ generatedLine seg = line) segs ->
  decode_pieces srcs nms p line k (fst (encode_pieces p segs))
  = inr (segs, snd (encode_pieces p segs)).
Proof.
  induction segs as [|seg rest IH]; intros p k Hall; [reflexivity|].
  apply Forall_cons in Hall as [[Hshape Hline] Hrest].
  cbn [encode_pieces].
  destruct (encode_pieces (after p seg) rest) as [pieces p'] eqn:Henc.
  cbn [fst snd decode_pieces].
  rewrite decode_encode_fields. cbn [mbind option_bind].
  rewrite decode_encode_segment by done.
  specialize (IH (after p seg) (k + 1) Hrest). rewrite Henc in IH. cbn [fst snd] in IH.
  by rewrite IH.
Qed.

Lemma decode_pieces_shaped srcs nms line : forall pieces p k segs p',
  decode_pieces srcs nms p line k pieces = inr (segs, p') ->
  Forall (fun seg => well_shaped srcs nms seg /\ generatedLine seg = line) segs.
Proof.
  induction pieces as [|piece rest IH]; intros p k segs p'; cbn [decode_pieces].
  - intros [= <- _]. constructor.
  - destruct (decode_fields piece ≫= decode_segment srcs nms p line) as [seg|] eqn:Hseg;
      [|done].
    destruct (decode_pieces srcs nms (after p seg) line (k + 1) rest)
      as [e|[segs' p'']] eqn:Hrest; [done|].
    intros [= <- _]. constructor; [|by eapply IH].
    destruct (decode_fields piece) as [fields|]; [|done].
    by eapply decode_segment_shaped.
Qed.

Lemma encode_pieces_chars : forall segs p,
  Forall (fun piece => all_in not_separator piece = true /\ piece <> "")
         (fst (encode_pieces p segs)).
Proof.
  induction segs as [|seg rest IH]; intros p; [constructor|].
  cbn [encode_pieces]. specialize (IH (after p seg)).
  destruct (encode_pieces (after p seg) rest) as [pieces p'].
  constructor; [|exact IH]. split; [apply encode_fields_chars|].
  apply encode_fields_nonempty, encode_segment_nonempty.
Qed.

Lemma join_chars sep cls pieces :
  all_in cls sep = true -> Forall (fun piece => all_in cls piece = true) pieces ->
  all_in cls (join sep pieces) = true.
Proof.
  intros Hsep. induction pieces as [|piece rest IH]; [reflexivity|].
  intros [Hpiece Hrest]%Forall_cons. destruct rest as [|piece' rest']; [exact Hpiece|].
  change (join sep (piece :: piece' :: rest'))
    with (piece +:+ sep +:+ join sep (piece' :: rest')).
  by rewrite !all_in_app, Hpiece, Hsep, IH.
Qed.

(** what a line is rendered to is read back as its pieces *)
Lemma pieces_of_join pieces :
  Forall (fun piece => all_in not_separator piece = true /\ piece <> "") pieces ->
  pieces_of (join "," pieces) = pieces.
Proof.
  intros Hall. destruct pieces as [|piece rest]; [reflexivity|].
  assert (Hne : join "," (piece :: rest) <> "").
  { apply Forall_cons in Hall as [[_ Hpiece] _].
    destruct rest; cbn [join]; [exact Hpiece|]. by destruct piece. }
  unfold pieces_of. destruct (join "," (piece :: rest)) eqn:Hj; [done|].
  rewrite <- Hj. apply split_join; [done|].
  eapply Forall_impl; [exact Hall|]. intros x [Hx _]. by apply not_separator_lacks.
Qed.

(** *** Lines *)

Lemma decode_encode_lines srcs nms : forall lines p line,
  lines_ok srcs nms line lines ->
  decode_lines srcs nms p line (encode_lines p lines) = inr (concat lines).
Proof.
  induction lines as [|segs rest IH]; intros p line Hok; [reflexivity|].
  destruct Hok as [Hsegs Hrest].
  cbn [encode_lines].
  assert (Hchars := encode_pieces_chars segs (newLine p)).
  assert (Hdec := decode_encode_pieces srcs nms line segs (newLine p) 0 Hsegs).
  destruct (encode_pieces (newLine p) segs) as [pieces p'].
  cbn [fst snd] in Hchars, Hdec. cbn [decode_lines].
  rewrite pieces_of_join by exact Hchars. rewrite Hdec.
  by rewrite (IH p' (line + 1) Hrest).
Qed.

Lemma encode_lines_chars : forall lines p,
  Forall (fun text => lacks ";" text = true) (encode_lines p lines).
Proof.
  induction lines as [|segs rest IH]; intros p; [constructor|].
  cbn [encode_lines].
  assert (Hchars := encode_pieces_chars segs (newLine p)).
  destruct (encode_pieces (newLine p) segs) as [pieces p'].
  constructor; [|apply IH].
  apply join_chars; [reflexivity|].
  eapply Forall_impl; [exact Hchars|]. intros x [Hx _]. by apply not_separator_lacks.
Qed.

Lemma encode_lines_nonempty lines p : lines <> [] -> encode_lines p lines <> [].
Proof.
  destruct lines as [|segs rest]; [done|]. intros _. cbn [encode_lines].
  by destruct (encode_pieces (newLine p) segs).
Qed.

Lemma lines_ok_replicate srcs nms lines : forall k line,
  lines_ok srcs nms (line + Z.of_nat k) lines ->
  lines_ok srcs nms line (replicate k [] ++ lines).
Proof.
  induction k as [|k IH]; intros line Hok.
  - by replace (line + Z.of_nat 0) with line in Hok by lia.
  - cbn [replicate app lines_ok]. split; [constructor|].
    apply IH. by replace (line + 1 + Z.of_nat k) with (line + Z.of_nat (S k)) by lia.
Qed.

Lemma concat_replicate_nil {A} k (lines : list (list A)) :
  concat (replicate k [] ++ lines) = concat lines.
Proof. induction k as [|k IH]; [reflexivity|exact IH]. Qed.

Lemma lines_from_spec srcs nms : forall segs line,
  ordered_from line segs -> Forall (well_shaped srcs nms) segs ->
  lines_from line segs <> []
  /\ lines_ok srcs nms line (lines_from line segs)
  /\ concat (lines_from line segs) = segs.
Proof.
  induction segs as [|seg rest IH]; intros line Hord Hshape.
  - cbn. repeat split; [done|constructor].
  - destruct Hord as [Hline Hord]. apply Forall_cons in Hshape as [Hseg Hshape].
    cbn [lines_from].
    replace (line + Z.of_nat (Z.to_nat (generatedLine seg - line)))
      with (generatedLine seg) by lia.
    destruct (IH (generatedLine seg) Hord Hshape) as (Hne & Hok & Hcat).
    destruct (lines_from (generatedLine seg) rest) as [|current below]; [done|].
    split; [by destruct (Z.to_nat _)|]. split.
    + apply lines_ok_replicate.
      replace (line + Z.of_nat (Z.to_nat (generatedLine seg - line)))
        with (generatedLine seg) by lia.
      destruct Hok as [Hcur Hbelow]. split; [|exact Hbelow].
      constructor; [by split|exact Hcur].
    + rewrite concat_replicate_nil. cbn [concat app] in *. by rewrite Hcat.
Qed.

Lemma ordered_from_le line line' segs :
  line' <= line -> ordered_from line segs -> ordered_from line' segs.
Proof. destruct segs as [|seg rest]; [done|]. intros Hle [H1 H2]. split; [lia|exact H2]. Qed.

Lemma ordered_from_app srcs nms line segs1 segs2 :
  Forall (fun seg => well_shaped srcs nms seg /\ generatedLine seg = line) segs1 ->
  ordered_from (line + 1) segs2 ->
  ordered_from line (segs1 ++ segs2).
Proof.
  induction segs1 as [|seg rest IH]; intros Hall Hord.
  - apply (ordered_from_le (line + 1)); [lia|exact Hord].
  - apply Forall_cons in Hall as [[_ Hline] Hrest].
    cbn [app ordered_from]. rewrite Hline. split; [lia|by apply IH].
Qed.

Lemma decode_lines_spec srcs nms : forall texts p line segs,
  decode_lines srcs nms p line texts = inr segs ->
  ordered_from line segs /\ Forall (well_shaped srcs nms) segs.
Proof.
  induction texts as [|text rest IH]; intros p line segs; cbn [decode_lines].
  - intros [= <-]. split; constructor.
  - destruct (decode_pieces srcs nms (newLine p) line 0 (pieces_of text))
      as [e|[segs1 p']] eqn:Hline; [done|].
    destruct (decode_lines srcs nms p' (line + 1) rest) as [e|segs2] eqn:Hrest; [done|].
    intros [= <-].
    apply decode_pieces_shaped in Hline. destruct (IH _ _ _ Hrest) as [Hord Hshape].
    split; [by eapply ordered_from_app|].
    apply Forall_app. split; [|exact Hshape].
    eapply Forall_impl; [exact Hline|]. by intros x [Hx _].
Qed.

(** Encoding an ordered, well-shaped sequence and decoding the result
    gives the sequence and the tables back. *)
Lemma decode_encode d contents file :
  ordered_from 0 (segments d) ->
  Forall (well_shaped (d_sources d) (d_names d)) (segments d) ->
  decode (encode d contents file) = inr d.
Proof.
  intros Hord Hshape. unfold decode, encode.
  cbn [sources names mappings].
  destruct (lines_from_spec _ _ _ _ Hord Hshape) as (Hne & Hok & Hcat).
  change ";"%string with (String ";"%char "").
  rewrite split_join;
    [|by apply encode_lines_nonempty|apply encode_lines_chars].
  rewrite (decode_encode_lines _ _ _ _ _ Hok), Hcat. by destruct d.
Qed.

Lemma decode_canonical doc d :
  decode doc = inr d ->
  ordered_from 0 (segments d)
  /\ Forall (well_shaped (d_sources d) (d_names d)) (segments d).
Proof.
  unfold decode.
  destruct (decode_lines (sources doc) (names doc) start 0 (split ";" (mappings doc)))
    as [e|segs] eqn:Hdec; [done|].
  intros [= <-]. cbn [segments d_sources d_names]. by eapply decode_lines_spec.
Qed.

End CodecFacts.

Module CodecSpec.
Import JS Codec CodecFacts.

(** C9: whatever a document decodes to, encoding it and decoding the
    result gives the same segment sequence and the same sources and names
    tables. *)
Theorem decode_encode_decode doc d contents file :
  decode doc = inr d ->
  decode (encode d contents file) = inr d.
Proof.
  intros Hdec. destruct (decode_canonical doc d Hdec) as [Hord Hshape].
  by apply decode_encode.
Qed.

Lemma decode_encode_decode_witness :
  exists d,
    decode example = inr d
    /\ length (segments d) = 4%nat
    /\ mappings (encode d None None) = ";;;;;UAEGA,C;AAAA,E"
    /\ decode (encode d None None) = inr d.
Proof.
  eexists. split; [vm_compute; reflexivity|].
  split; [reflexivity|]. split; [vm_compute; reflexivity|].
  apply (decode_encode_decode example). vm_compute. reflexivity.
Defined.

End CodecSpec.

Module ChainMore.
Import JS Eff SourceMap Chain TranslatorFacts ChainFacts ChainSpec.
Local Open Scope eff_scope.

Lemma bind_value {A B} log (a : A) (f : A -> M B) log' r :
  f a = (log', r) -> bind (log, inr a) f = (log ++ log', r).
Proof. intros H. cbn. by rewrite H. Qed.

(** The loop over the segments of B, in full: what is asked of A, and
    what is added to the generator. *)
Lemma forEachMapping_added tsConsumer mappings : forall generator,
  answers tsConsumer mappings ->
  exists added,
    forEachMapping tsConsumer mappings generator
    = ((fun m => EvQuery (originalLine m) (originalColumn m))
         <$> filter (fun m => truthy (source m) = true) mappings,
       inr {| _file := _file generator;
              _sourcesContents := _sourcesContents generator;
              _mappings := _mappings generator ++ added |})
    /\ (generated <$> added)
         `sublist_of` ((fun m => (generatedLine m, generatedColumn m)) <$> mappings)
    /\ Forall (fun x => exists m p,
                 m ∈ mappings /\ truthy (source m) = true
                 /\ originalPositionFor tsConsumer (originalLine m) (originalColumn m) = inr p
                 /\ truthy (op_source p) = true
                 /\ x = {| generated := (generatedLine m, generatedColumn m);
                           original := (op_line p, op_column p);
                           nm_source := op_source p;
                           nm_name := or_else (op_name p) (name m) |}) added.
Proof.
  induction mappings as [|m rest IH]; intros g Hans.
  - exists []. cbn. rewrite app_nil_r. split; [by destruct g|]. split; constructor.
  - assert (Hrest : answers tsConsumer rest) by (by eapply answers_cons).
    cbn [forEachMapping]. rewrite chainMapping_cases.
    destruct (truthy (source m)) eqn:Hsrc; cbn [negb].
    + destruct (Hans m) as [p Hq]; [by left|done|]. rewrite Hq.
      rewrite filter_cons_True by done. rewrite fmap_cons.
      destruct (truthy (op_source p)) eqn:Hres.
      * destruct (IH (addMapping g
                        {| generated := (generatedLine m, generatedColumn m);
                           original := (op_line p, op_column p);
                           nm_source := op_source p;
                           nm_name := or_else (op_name p) (name m) |}) Hrest)
          as (added & Hrun & Hsub & Hall).
        eexists (_ :: added). split; [|split].
        -- erewrite bind_value by exact Hrun. cbn. by rewrite <- app_assoc.
        -- rewrite !fmap_cons. by constructor.
        -- constructor.
           ++ exists m, p. repeat split; [by left|done..].
           ++ eapply Forall_impl; [exact Hall|].
              intros x (m' & p' & Hm' & H'). exists m', p'. split; [by right|exact H'].
      * destruct (IH g Hrest) as (added & Hrun & Hsub & Hall).
        exists added. split; [|split].
        -- by erewrite bind_value by exact Hrun.
        -- rewrite fmap_cons. by constructor.
        -- eapply Forall_impl; [exact Hall|].
           intros x (m' & p' & Hm' & H'). exists m', p'. split; [by right|exact H'].
    + destruct (IH g Hrest) as (added & Hrun & Hsub & Hall).
      rewrite filter_cons_False by (by rewrite Hsrc).
      exists added. split; [|split].
      -- by erewrite bind_value by exact Hrun.
      -- rewrite fmap_cons. by constructor.
      -- eapply Forall_impl; [exact Hall|].
         intros x (m' & p' & Hm' & H'). exists m', p'. split; [by right|exact H'].
Qed.

Lemma chainGenerator_run w tsSourceMapPath obfSourceMapPath
    tsMapContent obfMapContent tsConsumer obfConsumer :
  loads w tsSourceMapPath obfSourceMapPath tsMapContent obfMapContent
        tsConsumer obfConsumer ->
  exists generator,
    outcome (addSourceContents w tsSourceMapPath tsMapContent
               (newGenerator
                  match mc_file obfMapContent with
                  | Some (String _ _ as f) => f
                  | _ => path_basename_ext w obfSourceMapPath ".map"
                  end)) = inr generator
    /\ _mappings generator = []
    /\ chainGenerator w tsSourceMapPath obfSourceMapPath
       = ([EvRead tsSourceMapPath; EvRead obfSourceMapPath]
          ++ trace (addSourceContents w tsSourceMapPath tsMapContent
                      (newGenerator
                         match mc_file obfMapContent with
                         | Some (String _ _ as f) => f
                         | _ => path_basename_ext w obfSourceMapPath ".map"
                         end))
          ++ trace (forEachMapping tsConsumer (eachMapping obfConsumer) generator),
          outcome (forEachMapping tsConsumer (eachMapping obfConsumer) generator)).
Proof.
  intros Hloads.
  destruct (chainGenerator_loaded _ _ _ _ _ _ _ Hloads) as (g1 & Hg1 & Hmap & _).
  exists g1. split; [exact Hg1|]. split; [exact Hmap|].
  destruct Hloads as (tsText & obfText & H1 & H2 & H3 & H4 & H5 & H6).
  unfold chainGenerator, call.
  rewrite H1. cbn [bind]. rewrite H2. cbn [bind]. rewrite H3. cbn [bind].
  rewrite H4. cbn [bind]. rewrite H5. cbn [bind]. rewrite H6. cbn [bind].
  match goal with |- context [addSourceContents ?a ?b ?c ?d] =>
    destruct (addSourceContents a b c d) as [la ra] end.
  cbn in Hg1. subst ra. cbn [bind trace fst].
  destruct (forEachMapping tsConsumer (eachMapping obfConsumer) g1) as [lm rm].
  reflexivity.
Qed.

Lemma queries_app l1 l2 : queries (l1 ++ l2) = queries l1 ++ queries l2.
Proof. apply omap_app. Qed.

Lemma queries_of_queries {A} (f : A -> option Z * option Z) (l : list A) :
  queries ((fun x => EvQuery (fst (f x)) (snd (f x))) <$> l) = f <$> l.
Proof.
  induction l as [|x l IH]; [reflexivity|].
  rewrite !fmap_cons. cbn. fold (queries ((fun x => EvQuery (f x).1 (f x).2) <$> l)).
  rewrite IH. by destruct (f x).
Qed.

Lemma forEachSource_no_query w tsSourceMapPath sources : forall generator,
  queries (trace (forEachSource w tsSourceMapPath sources generator)) = [].
Proof.
  induction sources as [|s rest IH]; intros g; [reflexivity|].
  cbn [forEachSource]. rewrite trace_bind, queries_app.
  rewrite (readSourceContent_outcome w tsSourceMapPath g s), IH, app_nil_r.
  unfold readSourceContent. cbn.
  destruct (fs_existsSync w _); cbn; [|reflexivity].
  by destruct (fs_readFileSync w _).
Qed.

(** Every segment of the composed map comes from a segment of B that
    has a source and that A resolves to a source, and the composed
    segments follow the order of B. *)
Theorem composed_segments_come_from_B w tsSourceMapPath obfSourceMapPath
    tsMapContent obfMapContent tsConsumer obfConsumer :
  loads w tsSourceMapPath obfSourceMapPath tsMapContent obfMapContent
        tsConsumer obfConsumer ->
  answers tsConsumer (eachMapping obfConsumer) ->
  exists composed,
    outcome (chainGenerator w tsSourceMapPath obfSourceMapPath) = inr composed
    /\ (generated <$> _mappings composed)
         `sublist_of` ((fun m => (generatedLine m, generatedColumn m))
                         <$> eachMapping obfConsumer)
    /\ forall x, x ∈ _mappings composed ->
         exists m p,
           m ∈ eachMapping obfConsumer
           /\ truthy (source m) = true
           /\ originalPositionFor tsConsumer (originalLine m) (originalColumn m) = inr p
           /\ truthy (op_source p) = true
           /\ generated x = (generatedLine m, generatedColumn m)
           /\ original x = (op_line p, op_column p)
           /\ nm_source x = op_source p
           /\ nm_name x = (if truthy (op_name p) then op_name p else name m).
Proof.
  intros Hloads Hans.
  destruct (chainGenerator_run _ _ _ _ _ _ _ Hloads) as (g1 & _ & Hempty & ->).
  destruct (forEachMapping_added tsConsumer (eachMapping obfConsumer) g1 Hans)
    as (added & Hrun & Hsub & Hall).
  rewrite Hrun. cbn [outcome snd]. eexists. split; [reflexivity|].
  cbn [_mappings]. rewrite Hempty. cbn [app]. split; [exact Hsub|].
  intros x Hx. rewrite Forall_forall in Hall.
  destruct (Hall x Hx) as (m & p & Hm & Hsrc & Hq & Hres & ->).
  exists m, p. by repeat split.
Qed.

Lemma composed_segments_come_from_B_witness :
  exists composed,
    outcome (chainGenerator Demo.chainWorld Demo.tsMapPath Demo.obfMapPath) = inr composed
    /\ (generated <$> _mappings composed) `sublist_of` [(1, 0); (2, 5); (98, 19)].
Proof.
  destruct (composed_segments_come_from_B Demo.chainWorld Demo.tsMapPath Demo.obfMapPath
              Demo.contentA Demo.contentB Demo.consumerA
              (Resolver.consumerOf Demo.segmentsB' ["user.js"] None))
    as (composed & Hrun & Hsub & _).
  - exists "A", "B". by repeat split.
  - intros m _ _. eexists. reflexivity.
  - exists composed. split; [exact Hrun|exact Hsub].
Defined.

(** A's resolver is asked once for every segment of B that has a
    source, in the order of B, about that segment's original position, and
    about nothing else. *)
Theorem resolver_asked_once_per_segment w tsSourceMapPath obfSourceMapPath
    tsMapContent obfMapContent tsConsumer obfConsumer :
  loads w tsSourceMapPath obfSourceMapPath tsMapContent obfMapContent
        tsConsumer obfConsumer ->
  answers tsConsumer (eachMapping obfConsumer) ->
  queries (trace (chainGenerator w tsSourceMapPath obfSourceMapPath))
  = (fun m => (originalLine m, originalColumn m))
      <$> filter (fun m => truthy (source m) = true) (eachMapping obfConsumer).
Proof.
  intros Hloads Hans.
  destruct (chainGenerator_run _ _ _ _ _ _ _ Hloads) as (g1 & _ & _ & ->).
  destruct (forEachMapping_added tsConsumer (eachMapping obfConsumer) g1 Hans)
    as (added & Hrun & _). rewrite Hrun.
  cbn [trace fst]. rewrite !queries_app.
  assert (Hno : queries (trace (addSourceContents w tsSourceMapPath tsMapContent
                           (newGenerator
                              match mc_file obfMapContent with
                              | Some (String _ _ as f) => f
                              | _ => path_basename_ext w obfSourceMapPath ".map"
                              end))) = []).
  { unfold addSourceContents. destruct (mc_sourcesContent tsMapContent); [reflexivity|].
    apply forEachSource_no_query. }
  rewrite Hno.
  apply (queries_of_queries (fun m => (originalLine m, originalColumn m))).
Qed.

Lemma resolver_asked_once_per_segment_witness :
  queries (trace (chainGenerator Demo.chainWorld Demo.tsMapPath Demo.obfMapPath))
  = [(Some 9, Some 0); (Some 5, Some 10)].
Proof.
  apply (resolver_asked_once_per_segment Demo.chainWorld Demo.tsMapPath Demo.obfMapPath
           Demo.contentA Demo.contentB Demo.consumerA
           (Resolver.consumerOf Demo.segmentsB' ["user.js"] None)).
  - exists "A", "B". by repeat split.
  - intros m _ _. eexists. reflexivity.
Defined.

Lemma setSourceContent_lookup g source content key :
  _sourcesContents (setSourceContent g source content) !! key
  = if decide (source = key) then content else _sourcesContents g !! key.
Proof.
  unfold setSourceContent. cbn [_sourcesContents].
  destruct content as [c|]; case_decide as Heq.
  - subst. by rewrite lookup_insert_eq.
  - by rewrite lookup_insert_ne.
  - subst. by rewrite lookup_delete_eq.
  - by rewrite lookup_delete_ne.
Qed.

Lemma forEachEmbedded_lookup contents sources : forall index generator,
  NoDup sources ->
  (forall i source, sources !! i = Some source ->
     _sourcesContents (forEachEmbedded contents sources index generator) !! source
     = mjoin (contents !! (index + i)%nat))
  /\ (forall source, source ∉ sources ->
        _sourcesContents (forEachEmbedded contents sources index generator) !! source
        = _sourcesContents generator !! source).
Proof.
  induction sources as [|s rest IH]; intros index g Hnodup.
  - split; [intros i source Hi; by rewrite lookup_nil in Hi|done].
  - apply NoDup_cons in Hnodup as [Hfresh Hnodup]. cbn [forEachEmbedded].
    destruct (IH (S index) (setSourceContent g s (mjoin (contents !! index))) Hnodup)
      as [Hin Hout].
    split.
    + intros [|i] source Hi; cbn in Hi.
      * injection Hi as <-. rewrite (Hout s Hfresh), setSourceContent_lookup.
        rewrite decide_True by done. by rewrite Nat.add_0_r.
      * rewrite (Hin i source Hi). by replace (S index + i)%nat with (index + S i)%nat by lia.
    + intros source Hsource. apply not_elem_of_cons in Hsource as [Hne Hrest].
      rewrite (Hout source Hrest), setSourceContent_lookup.
      by rewrite decide_False by done.
Qed.

(** When the first document embeds its contents, no source file is
    looked for: the run reads the two documents and asks the resolver,
    nothing else.  A source gets the entry of [sourcesContent] at its own
    index; a [null] entry, or an index past the end of [sourcesContent],
    leaves it without content. *)
Theorem embedded_contents_are_carried_over w tsSourceMapPath obfSourceMapPath
    tsMapContent obfMapContent tsConsumer obfConsumer contents :
  loads w tsSourceMapPath obfSourceMapPath tsMapContent obfMapContent
        tsConsumer obfConsumer ->
  answers tsConsumer (eachMapping obfConsumer) ->
  mc_sourcesContent tsMapContent = Some contents ->
  NoDup (mc_sources tsMapContent) ->
  exists composed,
    chainGenerator w tsSourceMapPath obfSourceMapPath
    = (EvRead tsSourceMapPath :: EvRead obfSourceMapPath
         :: ((fun m => EvQuery (originalLine m) (originalColumn m))
               <$> filter (fun m => truthy (source m) = true) (eachMapping obfConsumer)),
       inr composed)
    /\ (forall i source,
          mc_sources tsMapContent !! i = Some source ->
          _sourcesContents composed !! source = mjoin (contents !! i))
    /\ (forall source,
          source ∉ mc_sources tsMapContent ->
          _sourcesContents composed !! source = None).
Proof.
  intros Hloads Hans Hsome Hnodup.
  destruct (chainGenerator_run _ _ _ _ _ _ _ Hloads) as (g1 & Hg1 & _ & ->).
  unfold addSourceContents in *. rewrite Hsome in *. cbn in Hg1. injection Hg1 as <-.
  match goal with |- context [forEachEmbedded contents _ 0 ?g] => set (g0 := g) end.
  destruct (forEachMapping_added tsConsumer (eachMapping obfConsumer)
              (forEachEmbedded contents (mc_sources tsMapContent) 0 g0) Hans)
    as (added & Hrun & _). rewrite Hrun.
  eexists. split; [reflexivity|]. cbn [_sourcesContents].
  destruct (forEachEmbedded_lookup contents (mc_sources tsMapContent) 0 g0 Hnodup)
    as [Hin Hout].
  split.
  - intros i source Hi. by rewrite (Hin i source Hi).
  - intros source Hsource. rewrite (Hout source Hsource). subst g0. apply lookup_empty.
Qed.

Lemma embedded_contents_are_carried_over_witness :
  exists composed,
    chainGenerator Demo2.chainWorld' Demo.tsMapPath Demo.obfMapPath
    = ([EvRead Demo.tsMapPath; EvRead Demo.obfMapPath;
        EvQuery (Some 9) (Some 0); EvQuery (Some 5) (Some 10)], inr composed)
    /\ _sourcesContents composed !! "user.ts" = Some "const userController = 1;"
    /\ _sourcesContents composed !! "types.ts" = None.
Proof.
  destruct (embedded_contents_are_carried_over Demo2.chainWorld' Demo.tsMapPath
              Demo.obfMapPath Demo2.contentA' Demo.contentB Demo.consumerA
              (Resolver.consumerOf Demo.segmentsB' ["user.js"] None)
              [Some "const userController = 1;"])
    as (composed & Hrun & Hin & _).
  - exists "A", "B". by repeat split.
  - intros m _ _. eexists. reflexivity.
  - reflexivity.
  - apply NoDup_cons. split; [|apply NoDup_singleton].
    intros H%list_elem_of_singleton. discriminate.
  - exists composed. split; [exact Hrun|]. split.
    + exact (Hin 0%nat "user.ts" eq_refl).
    + exact (Hin 1%nat "types.ts" eq_refl).
Defined.

Import Demo2.

Lemma outcome_bind {A B} (m : M A) (f : A -> M B) :
  outcome (bind m f) = match outcome m with
                       | inr a => outcome (f a)
                       | inl e => inl e
                       end.
Proof. destruct m as [log [e|a]]; cbn; [reflexivity|]. by destruct (f a). Qed.

Lemma writes_app l1 l2 : writes (l1 ++ l2) = writes l1 ++ writes l2.
Proof. apply omap_app. Qed.

Lemma trace_try_catch {A} (m : M A) (h : Exn -> M A) :
  trace (try_catch m h)
  = trace m ++ match outcome m with
               | inl e => trace (h e)
               | inr _ => []
               end.
Proof.
  destruct m as [log [e|a]]; cbn; [|by rewrite app_nil_r].
  by destruct (h e).
Qed.

Lemma forEachSource_no_write w tsSourceMapPath sources : forall generator,
  writes (trace (forEachSource w tsSourceMapPath sources generator)) = [].
Proof.
  induction sources as [|s rest IH]; intros g; [reflexivity|].
  cbn [forEachSource]. rewrite trace_bind, writes_app.
  rewrite (readSourceContent_outcome w tsSourceMapPath g s), IH, app_nil_r.
  unfold readSourceContent. cbn.
  destruct (fs_existsSync w _); cbn; [|reflexivity].
  by destruct (fs_readFileSync w _).
Qed.

Lemma forEachMapping_no_write tsConsumer mappings : forall generator,
  writes (trace (forEachMapping tsConsumer mappings generator)) = [].
Proof.
  induction mappings as [|m rest IH]; intros g; [reflexivity|].
  cbn [forEachMapping]. rewrite trace_bind, writes_app, chainMapping_cases.
  destruct (negb (truthy (source m))); cbn [trace outcome fst snd]; [apply IH|].
  destruct (originalPositionFor tsConsumer _ _) as [e|p]; [reflexivity|].
  cbn. apply IH.
Qed.

(** The composition itself writes nothing. *)
Lemma chainSourceMaps_no_write w tsSourceMapPath obfSourceMapPath :
  writes (trace (chainSourceMaps w tsSourceMapPath obfSourceMapPath)) = [].
Proof.
  assert (Hgen : writes (trace (chainGenerator w tsSourceMapPath obfSourceMapPath)) = []).
  { unfold chainGenerator.
    repeat (rewrite trace_bind, writes_app;
            match goal with
            | |- context [outcome (call ?ev ?r)] =>
                change (outcome (call ev r)) with r; destruct r; cbn [call trace fst writes omap app]
            | |- context [outcome (@pair (list Event) _ [] ?r)] =>
                change (outcome (@pair (list Event) _ [] r)) with r; destruct r;
                cbn [trace fst writes omap app]
            end; [reflexivity|]).
    rewrite trace_bind, writes_app.
    match goal with |- context [addSourceContents ?a ?b ?c ?d] =>
      assert (Ha : writes (trace (addSourceContents a b c d)) = []);
      [unfold addSourceContents; destruct (mc_sourcesContent c);
       [reflexivity|apply forEachSource_no_write]|] end.
    rewrite Ha. cbn [app].
    match goal with |- context [outcome ?m] => destruct (outcome m) end; [reflexivity|].
    apply forEachMapping_no_write. }
  unfold chainSourceMaps.
  destruct (chainGenerator w tsSourceMapPath obfSourceMapPath) as [lg [e|g]];
    cbn [bind try_catch ret call trace fst] in *;
    rewrite ?app_nil_r, ?writes_app, Hgen; reflexivity.
Qed.

(** One document of the loop of [main], case by case. *)
Lemma chainFile_run w chainedCount failedCount tsMapPath :
  let relativePath := path_relative w TS_BACKUP_DIR tsMapPath in
  let obfMapPath := path_join w [DIST_DIR; relativePath] in
  chainFile w (chainedCount, failedCount) tsMapPath
  = if fs_existsSync w obfMapPath then
      match outcome (chainSourceMaps w tsMapPath obfMapPath) with
      | inr (Some (String _ _ as chainedMap)) =>
          (EvExists obfMapPath :: trace (chainSourceMaps w tsMapPath obfMapPath)
             ++ [EvWrite obfMapPath chainedMap],
           match fs_writeFileSync w obfMapPath chainedMap with
           | inr _ => inr (chainedCount + 1, failedCount)
           | inl e => inl e
           end)
      | _ =>
          (EvExists obfMapPath :: trace (chainSourceMaps w tsMapPath obfMapPath),
           inr (chainedCount, failedCount + 1))
      end
    else
      ([EvExists obfMapPath;
        EvConsoleError ("  ⚠️  Obfuscated map not found: " +:+ relativePath)],
       inr (chainedCount, failedCount + 1)).
Proof.
  intros relativePath obfMapPath. unfold chainFile. fold relativePath. fold obfMapPath.
  unfold call at 1. cbn [bind].
  destruct (fs_existsSync w obfMapPath); cbn [negb]; [|reflexivity].
  assert (Hout := chainSourceMaps_outcome w tsMapPath obfMapPath).
  destruct (chainSourceMaps w tsMapPath obfMapPath) as [lc rc].
  cbn [outcome snd] in Hout. subst rc.
  cbn [bind outcome snd trace fst].
  destruct (outcome (chainGenerator w tsMapPath obfMapPath)) as [e|g];
    [cbn; by rewrite ?app_nil_r|].
  destruct (generator_toString w g) as [|c text]; [cbn; by rewrite ?app_nil_r|].
  unfold call. destruct (fs_writeFileSync w obfMapPath (String c text)) as [e|[]]; cbn;
    by rewrite ?app_nil_r.
Qed.

(** The loop of [main] writes a composed map for the documents it
    counts as chained, and for no other: every write goes to the path of
    an obfuscated map that exists, with the map composed for it. *)
Theorem composed_maps_written_in_place w tsMapFiles :
  forall chainedCount failedCount,
  (forall path content, fs_writeFileSync w path content = inr tt) ->
  exists chainedCount' failedCount',
    outcome (forMapFiles w tsMapFiles (chainedCount, failedCount))
    = inr (chainedCount', failedCount')
    /\ chainedCount' - chainedCount
       = Z.of_nat (length (writes (trace (forMapFiles w tsMapFiles
                                            (chainedCount, failedCount)))))
    /\ Forall (fun written =>
                 exists tsMapPath,
                   tsMapPath ∈ tsMapFiles
                   /\ fst written
                      = path_join w [DIST_DIR; path_relative w TS_BACKUP_DIR tsMapPath]
                   /\ fs_existsSync w (fst written) = true
                   /\ outcome (chainSourceMaps w tsMapPath (fst written))
                      = inr (Some (snd written)))
              (writes (trace (forMapFiles w tsMapFiles (chainedCount, failedCount)))).
Proof.
  induction tsMapFiles as [|f rest IH]; intros c n Hwrite.
  - exists c, n. cbn. split; [reflexivity|]. split; [lia|constructor].
  - cbn [forMapFiles]. rewrite trace_bind, writes_app, outcome_bind.
    assert (Hrun := chainFile_run w c n f). cbn zeta in Hrun.
    set (obf := path_join w [DIST_DIR; path_relative w TS_BACKUP_DIR f]) in *.
    assert (Hnw := chainSourceMaps_no_write w f obf).
    assert (Hstep : exists c1 n1,
              outcome (chainFile w (c, n) f) = inr (c1, n1)
              /\ c1 - c = Z.of_nat (length (writes (trace (chainFile w (c, n) f))))
              /\ Forall (fun written =>
                           fst written = obf
                           /\ fs_existsSync w (fst written) = true
                           /\ outcome (chainSourceMaps w f (fst written))
                              = inr (Some (snd written)))
                        (writes (trace (chainFile w (c, n) f)))).
    { rewrite Hrun. destruct (fs_existsSync w obf) eqn:Hex.
      - destruct (outcome (chainSourceMaps w f obf)) as [e|[[|ch text]|]] eqn:Hout;
          cbn [trace outcome fst snd];
          change (writes (EvExists obf :: ?l)) with (writes l);
          rewrite ?writes_app, Hnw.
        1,2,4: exists c, (n + 1); split; [reflexivity|]; split; [cbn; lia|constructor].
        rewrite Hwrite. exists (c + 1), n. split; [reflexivity|].
        split; [cbn; lia|]. repeat constructor; done.
      - exists c, (n + 1). split; [reflexivity|]. split; [cbn; lia|constructor]. }
    destruct Hstep as (c1 & n1 & Hout1 & Hcount1 & Hall1). rewrite Hout1.
    destruct (IH c1 n1 Hwrite) as (c' & n' & Hrest & Hcount & Hall).
    exists c', n'. split; [exact Hrest|]. split.
    + rewrite length_app. lia.
    + apply Forall_app. split.
      * eapply Forall_impl; [exact Hall1|].
        intros x (Hp & H'). exists f. split; [by left|]. by split.
      * eapply Forall_impl; [exact Hall|].
        intros x (f' & Hf' & H'). exists f'. split; [by right|exact H'].
Qed.

Lemma composed_maps_written_in_place_witness :
  exists chainedCount' failedCount',
    outcome (forMapFiles Demo.chainWorld
               [Demo.tsMapPath; "./dist-sourcemaps-backup/index.js.map"] (0, 0))
    = inr (chainedCount', failedCount')
    /\ chainedCount' - 0
       = Z.of_nat (length (writes (trace (forMapFiles Demo.chainWorld
                     [Demo.tsMapPath; "./dist-sourcemaps-backup/index.js.map"] (0, 0))))).
Proof.
  destruct (composed_maps_written_in_place Demo.chainWorld
              [Demo.tsMapPath; "./dist-sourcemaps-backup/index.js.map"] 0 0)
    as (c & n & Hrun & Hcount & _); [reflexivity|].
  exists c, n. split; [exact Hrun|exact Hcount].
Defined.

(** A composed map that cannot be written ends the loop of [main]: the
    error of the write is thrown and the documents that follow are not
    looked at. *)
Theorem failed_write_ends_the_loop w tsMapPath rest chainedCount failedCount
    chainedMap e :
  let obfMapPath := path_join w [DIST_DIR; path_relative w TS_BACKUP_DIR tsMapPath] in
  fs_existsSync w obfMapPath = true ->
  outcome (chainSourceMaps w tsMapPath obfMapPath) = inr (Some chainedMap) ->
  chainedMap <> "" ->
  fs_writeFileSync w obfMapPath chainedMap = inl e ->
  forMapFiles w (tsMapPath :: rest) (chainedCount, failedCount)
  = (EvExists obfMapPath :: trace (chainSourceMaps w tsMapPath obfMapPath)
       ++ [EvWrite obfMapPath chainedMap],
     inl e).
Proof.
  intros obf Hex Hout Hne Hwrite. cbn [forMapFiles].
  assert (Hrun := chainFile_run w chainedCount failedCount tsMapPath).
  cbn zeta in Hrun. fold obf in Hrun. rewrite Hex, Hout in Hrun.
  destruct chainedMap as [|c text]; [done|].
  rewrite Hrun, Hwrite. reflexivity.
Qed.

Lemma failed_write_ends_the_loop_witness :
  outcome (forMapFiles Demo2.chainWorld'
             [Demo.tsMapPath; "./dist-sourcemaps-backup/index.js.map"] (0, 0))
  = inl "EACCES: permission denied, open './dist/user.js.map'"
  /\ EvExists "./dist/index.js.map"
     ∉ trace (forMapFiles Demo2.chainWorld'
                [Demo.tsMapPath; "./dist-sourcemaps-backup/index.js.map"] (0, 0)).
Proof.
  rewrite (failed_write_ends_the_loop Demo2.chainWorld' Demo.tsMapPath
             ["./dist-sourcemaps-backup/index.js.map"] 0 0 "{user.js}"
             "EACCES: permission denied, open './dist/user.js.map'");
    [|reflexivity|vm_compute; reflexivity|discriminate|reflexivity].
  split; [reflexivity|].
  vm_compute. intros H. repeat (apply elem_of_cons in H as [H|H]; [discriminate|]).
  by apply elem_of_nil in H.
Defined.
End ChainMore.

Module TranslatorMore.
Import JS Regex Eff SourceMap Translator TranslatorFacts RegexFacts TranslatorSpec.
Local Open Scope eff_scope.

(** What a frame adds does not depend on the entries gathered so far. *)
Lemma translateFrame_shift w distDir line fn fp ln col :
  exists log e, forall results,
    translateFrame w distDir results line fn fp ln col = (log, inr (push results e)).
Proof.
  destruct (fs_existsSync w (sourceMapPath w distDir fp)) eqn:Hex.
  2: { do 2 eexists. intros results. by rewrite translateFrame_missing. }
  destruct (fs_readFileSync w (sourceMapPath w distDir fp)) as [err|content] eqn:Hrd.
  { do 2 eexists. intros results.
    by rewrite (translateFrame_unreadable _ _ _ _ _ _ _ _ err). }
  destruct (newSourceMapConsumer w content) as [err|consumer] eqn:Hnew.
  { do 2 eexists. intros results.
    by rewrite (translateFrame_undecodable _ _ _ _ _ _ _ _ content err). }
  do 2 eexists. intros results.
  by rewrite (translateFrame_loaded _ _ _ _ _ _ _ _ content consumer).
Qed.

Lemma translateLine_shift w distDir line :
  exists log e, forall results,
    translateLine w distDir results line = (log, inr (results ++ [e])).
Proof.
  unfold translateLine.
  destruct (exec frame_re (trim line)) as [m|]; [|do 2 eexists; reflexivity].
  destruct (filePath m) as [[|c fp]|], (lineNum m) as [ln|], (column m) as [col|];
    try (do 2 eexists; reflexivity).
  apply translateFrame_shift.
Qed.

Lemma forLines_run w distDir lines :
  exists log es, forall results,
    forLines w distDir lines results = (log, inr (results ++ es)).
Proof.
  induction lines as [|line rest IH].
  - exists [], []. intros results. cbn. by rewrite app_nil_r.
  - destruct (translateLine_shift w distDir line) as (log1 & e & Hline).
    destruct IH as (log2 & es & Hrest).
    exists (log1 ++ log2), (e :: es). intros results.
    cbn [forLines]. rewrite Hline. cbn [bind]. rewrite Hrest.
    by rewrite <- app_assoc.
Qed.

Lemma forLines_app w distDir lines1 lines2 :
  exists es1 es2,
    outcome (forLines w distDir lines1 []) = inr es1
    /\ outcome (forLines w distDir lines2 []) = inr es2
    /\ forLines w distDir (lines1 ++ lines2) []
       = (trace (forLines w distDir lines1 []) ++ trace (forLines w distDir lines2 []),
          inr (es1 ++ es2)).
Proof.
  destruct (forLines_run w distDir lines2) as (log2 & es2 & H2).
  induction lines1 as [|line rest IH].
  - exists [], es2. cbn [app]. rewrite H2. by repeat split.
  - destruct IH as (es1 & es2' & H1 & H2' & Happ).
    rewrite H2 in H2'. injection H2' as <-.
    destruct (translateLine_shift w distDir line) as (log1 & e & Hline).
    destruct (forLines_run w distDir rest) as (logr & esr & Hrest).
    destruct (forLines_run w distDir (rest ++ lines2)) as (loga & esa & Hall).
    rewrite Hrest in H1. injection H1 as <-.
    rewrite Hall, Hrest, H2 in Happ. cbn in Happ. injection Happ as -> ->.
    exists (e :: esr), es2.
    cbn [app forLines]. rewrite !Hline. cbn [bind]. rewrite Hrest, Hall, H2.
    cbn [trace fst outcome snd app]. by rewrite <- app_assoc.
Qed.

Lemma split_nonempty sep s : split sep s <> [].
Proof.
  induction s as [|c s IH]; [done|]. cbn [split].
  destruct (Ascii.eqb c sep); [done|]. by destruct (split sep s).
Qed.

Lemma split_append sep a b :
  split sep (a +:+ String sep b) = split sep a ++ split sep b.
Proof.
  induction a as [|c a IH].
  - change ("" +:+ String sep b) with (String sep b). cbn [split].
    by rewrite Ascii.eqb_refl.
  - rewrite append_cons. cbn [split]. rewrite IH.
    destruct (Ascii.eqb c sep); [reflexivity|].
    destruct (split sep a) as [|piece pieces] eqn:Ha; [by apply split_nonempty in Ha|].
    reflexivity.
Qed.

(** Translating two texts joined by a line break gives the entries of
    the first followed by the entries of the second, and makes the
    external calls of the first followed by those of the second. *)
Theorem translation_is_line_by_line w a b distDir :
  exists entriesA entriesB,
    outcome (translateStackTrace w a distDir) = inr entriesA
    /\ outcome (translateStackTrace w b distDir) = inr entriesB
    /\ translateStackTrace w (a +:+ String "010" b) distDir
       = (trace (translateStackTrace w a distDir)
            ++ trace (translateStackTrace w b distDir),
          inr (entriesA ++ entriesB)).
Proof.
  unfold translateStackTrace. rewrite split_append. apply forLines_app.
Qed.

(** A frame checks one path, reads it only when it exists, asks the
    consumer at most twice, and gets a translation or one reason. *)
Lemma translateFrame_shape w distDir results line fn fp ln col :
  let path := sourceMapPath w distDir fp in
  exists log e,
    translateFrame w distDir results line fn fp ln col = (log, inr (push results e))
    /\ ((log = [EvExists path] /\ fs_existsSync w path = false)
        \/ (fs_existsSync w path = true
            /\ exists qs : list Z,
                 log = EvExists path :: EvRead path
                         :: ((fun c => EvQuery (Some ln) (Some c)) <$> qs)
                 /\ (length qs <= 2)%nat))
    /\ ((exists reason, e = failure line reason)
        \/ (exists consumer p,
              truthy (op_source p) = true /\ e = success line fn fp ln col consumer p)).
Proof.
  intros path.
  destruct (fs_existsSync w path) eqn:Hex.
  2: { do 2 eexists. split; [by apply translateFrame_missing|]. split; eauto. }
  destruct (fs_readFileSync w path) as [err|content] eqn:Hrd.
  { do 2 eexists. split; [by apply (translateFrame_unreadable _ _ _ _ _ _ _ _ err)|].
    split; [|eauto]. right. split; [done|]. exists []. split; [reflexivity|cbn; lia]. }
  destruct (newSourceMapConsumer w content) as [err|consumer] eqn:Hnew.
  { do 2 eexists.
    split; [by apply (translateFrame_undecodable _ _ _ _ _ _ _ _ content err)|].
    split; [|eauto]. right. split; [done|]. exists []. split; [reflexivity|cbn; lia]. }
  do 2 eexists.
  split; [by apply (translateFrame_loaded _ _ _ _ _ _ _ _ content consumer)|].
  fold path. rewrite lookup_cases.
  destruct (originalPositionFor consumer (Some ln) (Some col)) as [err|p].
  { split; [|cbn; eauto]. right. split; [done|]. exists [col]. split; [reflexivity|cbn; lia]. }
  destruct (truthy (op_source p)) eqn:Hsrc; cbn [negb andb].
  { split; [right; split; [done|]; exists [col]; split; [reflexivity|cbn; lia]|].
    cbn. rewrite Hsrc. right. eauto. }
  destruct (0 <? col).
  - split; [right; split; [done|]; exists [col; 0]; split; [reflexivity|cbn; lia]|].
    cbn [outcome snd]. destruct (originalPositionFor consumer (Some ln) (Some 0)) as [err|p0];
      [cbn; eauto|].
    cbn. destruct (truthy (op_source p0)) eqn:Hsrc0; [right|left]; eauto.
  - split; [right; split; [done|]; exists [col]; split; [reflexivity|cbn; lia]|].
    cbn. rewrite Hsrc. eauto.
Qed.

(** A line that is no frame makes no external call.  A frame checks
    one path; when the path does not exist nothing more happens, and when
    it does the path is read once and the consumer is asked at most two
    positions.  Nothing else is called: no file is written. *)
Theorem file_access_of_a_line w distDir results line :
  let log := trace (translateLine w distDir results line) in
  match exec frame_re (trim line) with
  | None => log = []
  | Some _ =>
      log = []
      \/ exists path,
           (log = [EvExists path] /\ fs_existsSync w path = false)
           \/ (fs_existsSync w path = true
               /\ exists (ln : Z) (qs : list Z),
                    log = EvExists path :: EvRead path
                            :: ((fun c => EvQuery (Some ln) (Some c)) <$> qs)
                    /\ (length qs <= 2)%nat)
  end.
Proof.
  unfold translateLine.
  destruct (exec frame_re (trim line)) as [m|]; [|reflexivity].
  destruct (filePath m) as [[|c fp]|], (lineNum m) as [ln|], (column m) as [col|];
    try (by left).
  destruct (translateFrame_shape w distDir results line (functionName m) (String c fp) ln col)
    as (log & e & Hrun & Hlog & _).
  rewrite Hrun. cbn [trace fst]. right. eexists.
  destruct Hlog as [Hmiss|(Hex & qs & Hqs & Hlen)]; [by left|].
  right. split; [exact Hex|]. by exists ln, qs.
Qed.

(** An entry has a translation or an error, never both; a translation
    always names a source and comes with the obfuscated position, and an
    entry without translation has no obfuscated position. *)
Theorem entries_are_translated_or_failed w stackTrace distDir :
  exists results,
    outcome (translateStackTrace w stackTrace distDir) = inr results
    /\ Forall (fun e =>
                 match translated e with
                 | Some t =>
                     error e = None /\ truthy (t_file t) = true
                     /\ is_Some (obfuscated e)
                 | None => obfuscated e = None
                 end) results.
Proof.
  unfold translateStackTrace.
  destruct (forLines_entries w distDir (split "010" stackTrace) []) as (es & Hrun & Hall).
  exists es. split; [exact Hrun|].
  clear Hrun. induction Hall as [|line e lines es' He _ IH]; constructor; [|exact IH].
  revert He. unfold translateLine.
  destruct (exec frame_re (trim line)) as [m|]; [|by intros [= <-]].
  destruct (filePath m) as [[|c fp]|], (lineNum m) as [ln|], (column m) as [col|];
    try (by intros [= <-]).
  destruct (translateFrame_shape w distDir [] line (functionName m) (String c fp) ln col)
    as (log & e' & Hrun & _ & Hkind).
  rewrite Hrun. intros [= <-].
  destruct Hkind as [[reason ->]|(consumer & p & Hsrc & ->)]; [reflexivity|].
  cbn. by repeat split.
Qed.

Lemma substring_all (s : string) : substring 0 (String.length s) s = s.
Proof. induction s as [|c s IH]; [reflexivity|]. cbn. by rewrite IH. Qed.

Lemma substringFrom_app a b : substringFrom (String.length a) (a +:+ b) = b.
Proof.
  unfold substringFrom. rewrite length_app_s.
  replace (String.length a + String.length b - String.length a)%nat
    with (String.length b) by lia.
  induction a as [|c a IH]; [apply substring_all|exact IH].
Qed.

(** For an absolute path the mapping document is looked for under what
    follows the first [dist] of the path and the one character after it,
    whatever that character is; the name of the file is kept as it is,
    also when it ends in [.ts]. *)
Theorem absolute_path_below_dist w distDir before separator below :
  let filePath := before +:+ "dist" +:+ String separator below in
  path_isAbsolute w filePath = true ->
  indexOf filePath "dist" = Some (String.length before) ->
  sourceMapPath w distDir filePath
  = path_join w [distDir; path_dirname w below; path_basename w below +:+ ".map"].
Proof.
  intros filePath Habs Hfirst. unfold sourceMapPath. rewrite Habs, Hfirst.
  replace (substringFrom (String.length before + 5) filePath) with below; [reflexivity|].
  subst filePath.
  replace (before +:+ "dist" +:+ String separator below)
    with ((before +:+ "dist" +:+ String separator "") +:+ below).
  - rewrite <- (substringFrom_app (before +:+ "dist" +:+ String separator "") below) at 1.
    f_equal. rewrite !length_app_s. cbn. lia.
  - rewrite !app_assoc_s. reflexivity.
Qed.

Lemma absolute_path_below_dist_witness :
  sourceMapPath Demo.translatorWorld "./sourcemaps" "/srv/app/dist/api/user.ts"
  = "./sourcemaps/api/user.ts.map"
  /\ sourceMapPath Demo.translatorWorld "./sourcemaps" "/opt/distro/api/user.js"
     = "./sourcemaps/o/api/user.js.map".
Proof.
  split.
  - apply (absolute_path_below_dist Demo.translatorWorld "./sourcemaps"
             "/srv/app/" "/" "api/user.ts"); reflexivity.
  - apply (absolute_path_below_dist Demo.translatorWorld "./sourcemaps"
             "/opt/" "r" "o/api/user.js"); reflexivity.
Defined.

(** *** What a match of the frame pattern says about the line *)

Section Inversion.
Context {R : Type}.
Implicit Types (k : string -> option R) (cls : ascii -> bool).

Lemma lit_inv p s k x :
  lit p s k = Some x -> exists rest, s = p +:+ rest /\ k rest = Some x.
Proof.
  revert s. induction p as [|a p IH]; intros s; cbn [lit]; [by exists s|].
  destruct s as [|c s]; [done|].
  destruct (Ascii.eqb_spec a c) as [->|]; [|done].
  intros (rest & -> & Hk)%IH. by exists rest.
Qed.

Lemma plus_greedy_inv cls s k x :
  plus_greedy cls s k = Some x ->
  exists run rest,
    s = run +:+ rest /\ run <> "" /\ all_in cls run = true /\ k rest = Some x.
Proof.
  induction s as [|c s IH]; cbn [plus_greedy]; [done|].
  destruct (cls c) eqn:Hc; [|done].
  destruct (plus_greedy cls s k) as [y|] eqn:Hmore.
  - intros [= <-]. destruct (IH eq_refl) as (run & rest & -> & _ & Hall & Hk).
    exists (String c run), rest. cbn [all_in]. by rewrite Hc, Hall.
  - intros Hk. exists (String c ""), s. by cbn; rewrite Hc.
Qed.

Lemma plus_lazy_inv cls s k x :
  plus_lazy cls s k = Some x ->
  exists run rest,
    s = run +:+ rest /\ run <> "" /\ all_in cls run = true /\ k rest = Some x.
Proof.
  induction s as [|c s IH]; cbn [plus_lazy]; [done|].
  destruct (cls c) eqn:Hc; [|done].
  destruct (k s) as [y|] eqn:Hk.
  - intros [= <-]. exists (String c ""), s. by cbn; rewrite Hc.
  - intros (run & rest & -> & _ & Hall & Hk')%IH.
    exists (String c run), rest. cbn [all_in]. by rewrite Hc, Hall.
Qed.
End Inversion.

Lemma exec_inv r s m :
  exec r s = Some m ->
  exists before rest,
    s = before +:+ rest /\ run r rest ∅ (fun _ caps => Some caps) = Some m.
Proof.
  induction s as [|c s IH]; cbn [exec].
  - destruct (run r "" ∅ _) as [caps|] eqn:Hrun; [|done].
    intros [= <-]. by exists "", "".
  - destruct (run r (String c s) ∅ _) as [caps|] eqn:Hrun.
    + intros [= <-]. by exists "", (String c s).
    + intros (before & rest & -> & Hrest)%IH. by exists (String c before), rest.
Qed.

Lemma parseInt_acc_nonneg s : forall acc, 0 <= acc -> 0 <= parseInt_acc acc s.
Proof.
  induction s as [|c s IH]; intros acc Hacc; cbn [parseInt_acc]; [exact Hacc|].
  destruct (is_digit c) eqn:Hc; [|exact Hacc].
  apply IH. unfold digit_val, is_digit in *.
  apply andb_true_iff in Hc as [Hlo _]. apply Nat.leb_le in Hlo. lia.
Qed.

(** the part of the pattern after the optional function name *)
Lemma location_inv caps s m :
  run (Seq (Group 2 (PlusLazy is_dot))
      (Seq (Lit ":")
      (Seq (Group 3 (PlusGreedy is_digit))
      (Seq (Lit ":")
      (Seq (Group 4 (PlusGreedy is_digit))
           (Opt (Lit ")")))))))
      s caps (fun _ caps => Some caps) = Some m ->
  exists path l c after,
    s = path +:+ ":" +:+ l +:+ ":" +:+ c +:+ after
    /\ path <> "" /\ all_in is_dot path = true
    /\ l <> "" /\ all_in is_digit l = true
    /\ c <> "" /\ all_in is_digit c = true
    /\ m = <[4%nat := c]> (<[3%nat := l]> (<[2%nat := path]> caps)).
Proof.
  cbn [run].
  intros (path & s1 & -> & Hpath & Hdot & H)%plus_lazy_inv.
  apply lit_inv in H as (s2 & -> & H).
  apply plus_greedy_inv in H as (l & s3 & -> & Hl & Hdigl & H).
  apply lit_inv in H as (s4 & -> & H).
  apply plus_greedy_inv in H as (c & s5 & -> & Hc & Hdigc & H).
  rewrite !consumed_app in H.
  assert (Hm : m = <[4%nat := c]> (<[3%nat := l]> (<[2%nat := path]> caps))).
  { destruct (lit ")" s5 _) as [caps'|] eqn:Hparen.
    - apply lit_inv in Hparen as (s6 & _ & [= <-]). by injection H as <-.
    - by injection H as <-. }
  exists path, l, c, s5. by rewrite Hm.
Qed.

(** Whenever the pattern matches, the line holds a non-empty path, a
    colon, digits, a colon and digits in a row; these are the captured
    path, line and column, so that the line and the column are numbers,
    not negative.  Only a path of white space keeps a matched line from
    being treated as a frame. *)
Theorem matched_frame_has_a_location s m :
  exec frame_re s = Some m ->
  exists before path l c after,
    s = before +:+ path +:+ ":" +:+ l +:+ ":" +:+ c +:+ after
    /\ path <> "" /\ all_in is_dot path = true
    /\ l <> "" /\ all_in is_digit l = true
    /\ c <> "" /\ all_in is_digit c = true
    /\ filePath m = Some (trim path)
    /\ lineNum m = Some (parseInt l) /\ 0 <= parseInt l
    /\ column m = Some (parseInt c) /\ 0 <= parseInt c.
Proof.
  intros (before & s0 & -> & Hrun)%exec_inv.
  unfold frame_re in Hrun.
  change (run (Seq (Lit "at") ?r) s0 ∅ ?k) with (lit "at" s0 (fun s' => run r s' ∅ k)) in Hrun.
  apply lit_inv in Hrun as (s1 & -> & Hrun).
  change (run (Seq (PlusGreedy is_space) ?r) s1 ∅ ?k)
    with (plus_greedy is_space s1 (fun s' => run r s' ∅ k)) in Hrun.
  apply plus_greedy_inv in Hrun as (ws & s2 & -> & _ & _ & Hrun).
  change (run (Seq (Opt ?o) ?r) s2 ∅ ?k)
    with (match run o s2 ∅ (fun s' caps' => run r s' caps' k) with
          | Some x => Some x
          | None => run r s2 ∅ k
          end) in Hrun.
  assert (Hloc : exists caps prefix s3,
            s2 = prefix +:+ s3
            /\ run (Seq (Group 2 (PlusLazy is_dot))
                   (Seq (Lit ":")
                   (Seq (Group 3 (PlusGreedy is_digit))
                   (Seq (Lit ":")
                   (Seq (Group 4 (PlusGreedy is_digit))
                        (Opt (Lit ")")))))))
                   s3 caps (fun _ caps => Some caps) = Some m
            /\ caps !! 2%nat = None /\ caps !! 3%nat = None /\ caps !! 4%nat = None).
  { match type of Hrun with match ?o with _ => _ end = _ =>
      destruct o as [x|] eqn:Hopt end.
    - injection Hrun as ->. cbn [run] in Hopt.
      apply plus_lazy_inv in Hopt as (fn & t1 & -> & _ & _ & Hopt).
      apply plus_greedy_inv in Hopt as (ws' & t2 & -> & _ & _ & Hopt).
      apply lit_inv in Hopt as (t3 & -> & Hopt).
      eexists _, (fn +:+ ws' +:+ "("), t3.
      split; [by rewrite !app_assoc_s|]. split; [exact Hopt|].
      by rewrite !lookup_insert_ne, !lookup_empty by done.
    - exists ∅, "", s2. split; [reflexivity|]. split; [exact Hrun|].
      by rewrite !lookup_empty. }
  destruct Hloc as (caps & prefix & s3 & -> & Hloc & _).
  apply location_inv in Hloc
    as (path & l & c & after & -> & Hpath & Hdot & Hl & Hdigl & Hc & Hdigc & ->).
  exists (before +:+ "at" +:+ ws +:+ prefix), path, l, c, after.
  split; [by rewrite !app_assoc_s|]. do 6 (split; [assumption|]).
  unfold filePath, lineNum, column.
  rewrite lookup_insert_ne, lookup_insert_ne, lookup_insert_eq by done.
  rewrite lookup_insert_ne, lookup_insert_eq by done.
  rewrite lookup_insert_eq.
  destruct path; [done|]. destruct l; [done|]. destruct c; [done|].
  repeat split; by apply parseInt_acc_nonneg.
Qed.

Lemma matched_frame_has_a_location_witness :
  exists before path l c after,
    trim Demo.frame = before +:+ path +:+ ":" +:+ l +:+ ":" +:+ c +:+ after
    /\ path <> "" /\ all_in is_dot path = true
    /\ l <> "" /\ all_in is_digit l = true
    /\ c <> "" /\ all_in is_digit c = true
    /\ filePath Demo2.frameMatch = Some (trim path)
    /\ lineNum Demo2.frameMatch = Some (parseInt l) /\ 0 <= parseInt l
    /\ column Demo2.frameMatch = Some (parseInt c) /\ 0 <= parseInt c.
Proof.
  apply (matched_frame_has_a_location (trim Demo.frame) Demo2.frameMatch).
  vm_compute. reflexivity.
Defined.
End TranslatorMore.

(** * The repair script, further properties *)

Module FixMore.
Import JS Eff FixSources.
Import RegexFacts TranslatorSpec.
Local Open Scope eff_scope.

Lemma prefix_js_map x :
  String.prefix ".js.map" (x +:+ ".js.map") = true ->
  String.prefix ".js" (x +:+ ".js") = true.
Proof.
  destruct x as [|a [|b [|c x]]]; [reflexivity|..].
  - change (String a "" +:+ ".js.map") with (String a ".js.map").
    cbn [String.prefix]. destruct (ascii_dec "." a); [|discriminate].
    cbn. discriminate.
  - change (String a (String b "") +:+ ".js.map") with (String a (String b ".js.map")).
    cbn [String.prefix]. destruct (ascii_dec "." a); [|discriminate].
    destruct (ascii_dec "j" b); [|discriminate]. cbn. discriminate.
  - rewrite !append_cons. cbn [String.prefix].
    destruct (ascii_dec "." a); [|discriminate].
    destruct (ascii_dec "j" b); [|discriminate].
    destruct (ascii_dec "s" c); [|discriminate].
    destruct (x +:+ ".js"); reflexivity.
Qed.

(** A name whose first [.js] is its suffix has its first [.js.map] at
    the same place once [.map] is added. *)
Lemma first_js_map base :
  indexOf (base +:+ ".js") ".js" = Some (String.length base) ->
  indexOf (base +:+ ".js.map") ".js.map" = Some (String.length base).
Proof.
  induction base as [|c base IH]; [reflexivity|].
  rewrite !append_cons. intros H.
  destruct (String.prefix ".js.map" (String c (base +:+ ".js.map"))) eqn:Hp.
  - apply (prefix_js_map (String c base)) in Hp. rewrite append_cons in Hp.
    cbn [indexOf] in H. rewrite Hp in H. discriminate.
  - cbn [indexOf String.length] in *. rewrite Hp.
    destruct (String.prefix ".js" (String c (base +:+ ".js"))); [discriminate|].
    destruct (indexOf (base +:+ ".js") ".js") as [i|] eqn:Hi; [|discriminate].
    cbn in H. injection H as ->. by rewrite IH.
Qed.

Lemma append_assoc_js base : (base +:+ ".js") +:+ ".map" = base +:+ ".js.map".
Proof. induction base as [|c base IH]; [reflexivity|]. by rewrite !append_cons, IH. Qed.

(** the source name the script derives for [base.js.map] *)
Lemma derived_name base :
  indexOf (base +:+ ".js") ".js" = Some (String.length base) ->
  replace ".js" "" (replace ".js.map" ".js" (base +:+ ".js.map")) = base.
Proof.
  intros H. rewrite (replace_at_end ".js.map" ".js" base (first_js_map base H)).
  rewrite (replace_at_end ".js" "" base H). apply append_nil_r.
Qed.

(** A map whose first source is the generic ["sourceMap"] is read
    once and written once, in place; what is written is the same object
    with the single source [../src/<base>.ts], whatever other sources the
    map listed. *)
Theorem generic_source_is_replaced w distDir base content sourceMap others :
  indexOf (base +:+ ".js") ".js" = Some (String.length base) ->
  fs_readFileSync w (path_join w [distDir; base +:+ ".js.map"]) = inr content ->
  JSON_parse w content = inr sourceMap ->
  sj_sources sourceMap = Some ("sourceMap" :: others) ->
  (forall text, fs_writeFileSync w (path_join w [distDir; base +:+ ".js.map"]) text = inr tt) ->
  fixFile w distDir (base +:+ ".js.map")
  = ([EvRead (path_join w [distDir; base +:+ ".js.map"]);
      EvWrite (path_join w [distDir; base +:+ ".js.map"])
        (JSON_stringify w {| sj_sources := Some ["../src/" +:+ base +:+ ".ts"];
                             sj_rest := sj_rest sourceMap |})],
     inr tt).
Proof.
  intros Hfirst Hread Hparse Hsources Hwrite. unfold fixFile.
  rewrite Hread. cbn [call bind try_catch]. rewrite Hparse, Hsources.
  cbn [head]. rewrite bool_decide_eq_true_2 by reflexivity.
  rewrite (derived_name base Hfirst). unfold setSources.
  rewrite Hwrite. reflexivity.
Qed.

Lemma generic_source_is_replaced_witness :
  fixFile Demo3.fixWorld "dist" "user.js.map"
  = ([EvRead "dist/user.js.map";
      EvWrite "dist/user.js.map"
        "{'sources':['../src/user.ts'],'version':3,'mappings':'AAAA'}"],
     inr tt).
Proof.
  apply (generic_source_is_replaced Demo3.fixWorld "dist" "user" "U" Demo3.obfuscated []);
    reflexivity.
Defined.

(** A second pass changes nothing.  When the file holds what the
    script wrote for it, and parsing gives that object back, the script
    reads the file and does no more. *)
Theorem repaired_map_is_left_alone w distDir mapFile sourceMap baseName :
  let repaired := setSources sourceMap ["../src/" +:+ baseName +:+ ".ts"] in
  fs_readFileSync w (path_join w [distDir; mapFile]) = inr (JSON_stringify w repaired) ->
  JSON_parse w (JSON_stringify w repaired) = inr repaired ->
  fixFile w distDir mapFile = ([EvRead (path_join w [distDir; mapFile])], inr tt).
Proof.
  intros repaired Hread Hparse. unfold fixFile.
  rewrite Hread. cbn [call bind try_catch]. rewrite Hparse.
  cbn [repaired setSources sj_sources head].
  by rewrite bool_decide_eq_false_2.
Qed.

Lemma repaired_map_is_left_alone_witness :
  fixFile Demo3.fixWorld "dist" "index.js.map" = ([EvRead "dist/index.js.map"], inr tt).
Proof.
  apply (repaired_map_is_left_alone Demo3.fixWorld "dist" "index.js.map"
           Demo3.obfuscated "index"); reflexivity.
Defined.

(** The calls of one round of the loop: the map is read; it is written
    at most once, to the path it was read from; an error is reported and
    the round ends normally. *)
Lemma fixFile_shape w distDir mapFile :
  let mapPath := path_join w [distDir; mapFile] in
  outcome (fixFile w distDir mapFile) = inr tt
  /\ exists content message,
       trace (fixFile w distDir mapFile) = [EvRead mapPath]
       \/ trace (fixFile w distDir mapFile) = [EvRead mapPath; EvConsoleError message]
       \/ trace (fixFile w distDir mapFile) = [EvRead mapPath; EvWrite mapPath content]
       \/ trace (fixFile w distDir mapFile)
          = [EvRead mapPath; EvWrite mapPath content; EvConsoleError message].
Proof.
  intros mapPath. unfold fixFile. fold mapPath.
  destruct (fs_readFileSync w mapPath) as [e|content]; cbn [call bind try_catch].
  { split; [reflexivity|]. exists "", ("  ✗ Error processing " +:+ mapFile +:+ ": " +:+ e).
    right; left. reflexivity. }
  destruct (JSON_parse w content) as [e|sourceMap].
  { split; [reflexivity|]. exists "", ("  ✗ Error processing " +:+ mapFile +:+ ": " +:+ e).
    right; left. reflexivity. }
  destruct (sj_sources sourceMap) as [sources|].
  2:{ split; [reflexivity|]. eexists "", _. right; left. reflexivity. }
  destruct (bool_decide (head sources = Some "sourceMap")).
  2:{ split; [reflexivity|]. exists "", "". left. reflexivity. }
  match goal with |- context [fs_writeFileSync w mapPath ?c] =>
    destruct (fs_writeFileSync w mapPath c) as [e|[]]; (split; [reflexivity|]);
    [exists c, ("  ✗ Error processing " +:+ mapFile +:+ ": " +:+ e); do 3 right; reflexivity
    |exists c, ""; right; right; left; reflexivity]
  end.
Qed.

Lemma forMapFiles_run w distDir sourceMapFiles :
  forMapFiles w distDir sourceMapFiles
  = (concat ((fun mapFile => trace (fixFile w distDir mapFile)) <$> sourceMapFiles), inr tt).
Proof.
  induction sourceMapFiles as [|mapFile rest IH]; [reflexivity|].
  cbn [forMapFiles fmap list_fmap concat].
  destruct (fixFile_shape w distDir mapFile) as [Hout _].
  destruct (fixFile w distDir mapFile) as [log r]. cbn [outcome snd] in Hout. subst r.
  cbn [bind]. rewrite IH. reflexivity.
Qed.

Lemma writes_fixFile w distDir mapFile :
  (length (Demo2.writes (trace (fixFile w distDir mapFile))) <= 1)%nat
  /\ Forall (fun pc => pc.1 = path_join w [distDir; mapFile])
       (Demo2.writes (trace (fixFile w distDir mapFile))).
Proof.
  destruct (fixFile_shape w distDir mapFile) as [_ (content & message & [H|[H|[H|H]]])];
    rewrite H; cbn; (split; [lia|]); repeat constructor.
Qed.

(** The pass over a directory always runs to its end, whatever
    cannot be read, parsed or written.  Only entries whose name ends in
    [.js.map] are touched: each is read once, in the order listed, and
    every write goes to the path of such an entry, at most one per
    entry. *)
Theorem repair_pass_completes w distDir entries :
  let sourceMapFiles := List.filter (fun file => endsWith file ".js.map") entries in
  let log := trace (fixSourceMaps w distDir entries) in
  outcome (fixSourceMaps w distDir entries) = inr tt
  /\ omap (fun ev => match ev with EvRead p => Some p | _ => None end) log
     = (fun mapFile => path_join w [distDir; mapFile]) <$> sourceMapFiles
  /\ (length (Demo2.writes log) <= length sourceMapFiles)%nat
  /\ Forall (fun pc => exists mapFile,
               mapFile ∈ entries /\ endsWith mapFile ".js.map" = true
               /\ pc.1 = path_join w [distDir; mapFile])
       (Demo2.writes log).
Proof.
  intros sourceMapFiles log. subst log. unfold fixSourceMaps. fold sourceMapFiles.
  rewrite forMapFiles_run. cbn [outcome trace fst snd].
  split; [reflexivity|].
  assert (Hin : forall f, f ∈ sourceMapFiles -> f ∈ entries /\ endsWith f ".js.map" = true).
  { intros f Hf. apply list_elem_of_In, List.filter_In in Hf as [Hf He].
    split; [by apply list_elem_of_In|done]. }
  clearbody sourceMapFiles.
  induction sourceMapFiles as [|mapFile rest IH]; [by repeat split; try constructor|].
  cbn [fmap list_fmap concat length].
  destruct IH as (IHr & IHl & IHw).
  { intros f Hf. apply Hin, elem_of_cons. by right. }
  destruct (writes_fixFile w distDir mapFile) as [Hlen Hall].
  split; [|split].
  - rewrite omap_app. fold (@fmap list _ _ _ (fun mapFile => trace (fixFile w distDir mapFile)) rest).
    rewrite IHr. f_equal.
    destruct (fixFile_shape w distDir mapFile) as [_ (content & message & [H|[H|[H|H]]])];
      rewrite H; reflexivity.
  - unfold Demo2.writes in *. rewrite omap_app, length_app.
    change (list_fmap _ _ ?f rest) with (f <$> rest). lia.
  - unfold Demo2.writes in *. rewrite omap_app. apply Forall_app. split.
    + eapply Forall_impl; [exact Hall|]. intros pc Hpc. exists mapFile.
      destruct (Hin mapFile) as [? ?]; [apply elem_of_cons; by left|]. done.
    + exact IHw.
Qed.

(** A map without [sources] is not rewritten: reading the sources
    to report them fails, the failure is reported, and the loop goes
    on. *)
Theorem map_without_sources_is_reported w distDir mapFile content sourceMap rest :
  fs_readFileSync w (path_join w [distDir; mapFile]) = inr content ->
  JSON_parse w content = inr sourceMap ->
  sj_sources sourceMap = None ->
  forMapFiles w distDir (mapFile :: rest)
  = (EvRead (path_join w [distDir; mapFile])
       :: EvConsoleError ("  ✗ Error processing " +:+ mapFile
                            +:+ ": Cannot read properties of undefined (reading 'join')")
       :: trace (forMapFiles w distDir rest),
     inr tt).
Proof.
  intros Hread Hparse Hsources. cbn [forMapFiles]. unfold fixFile.
  rewrite Hread. cbn [call bind try_catch]. rewrite Hparse, Hsources.
  cbn [throw bind try_catch call]. rewrite (forMapFiles_run w distDir rest).
  reflexivity.
Qed.

Lemma map_without_sources_is_reported_witness :
  forMapFiles Demo3.fixWorld "dist" ["broken.js.map"; "index.js.map"]
  = ([EvRead "dist/broken.js.map";
      EvConsoleError
        "  ✗ Error processing broken.js.map: Cannot read properties of undefined (reading 'join')";
      EvRead "dist/index.js.map"],
     inr tt).
Proof.
  apply (map_without_sources_is_reported Demo3.fixWorld "dist" "broken.js.map" "B"
           {| sj_sources := None; sj_rest := "'version':3" |} ["index.js.map"]);
    reflexivity.
Defined.

End FixMore.

(** * [findMapFiles], properties *)

Module FilesMore.
Import JS Files.

Lemma findMapFiles_acc path_join entries : forall dir fileList,
  findMapFiles path_join dir entries fileList
  = fileList ++ findMapFiles path_join dir entries [].
Proof.
  induction entries as [|file rest IH|file below IHb rest IH]; intros dir fileList.
  - cbn. by rewrite app_nil_r.
  - cbn [findMapFiles]. destruct (endsWith file ".js.map").
    + rewrite IH, (IH dir ([] ++ _)). cbn [app]. by rewrite <- app_assoc.
    + apply IH.
  - cbn [findMapFiles]. rewrite IH, IHb, (IH dir (findMapFiles _ _ below [])).
    by rewrite app_assoc.
Qed.

(** The search only appends: the list handed in comes back as the front
    of the result, followed by one path for every file of the tree whose
    name ends in [.js.map]. *)
Theorem found_maps_are_appended path_join dir entries fileList :
  findMapFiles path_join dir entries fileList
  = fileList ++ findMapFiles path_join dir entries []
  /\ length (findMapFiles path_join dir entries []) = countMapFiles entries.
Proof.
  split; [apply findMapFiles_acc|].
  revert dir. induction entries as [|file rest IH|file below IHb rest IH]; intros dir.
  - reflexivity.
  - cbn [findMapFiles countMapFiles]. destruct (endsWith file ".js.map").
    + rewrite findMapFiles_acc, length_app, IH. reflexivity.
    + apply IH.
  - cbn [findMapFiles countMapFiles].
    rewrite findMapFiles_acc, length_app, IH, IHb. reflexivity.
Qed.

(** What is found are the files of the tree named [*.js.map], each under
    the path joined from the directories above it; a directory is never
    listed itself, whatever its name. *)
Theorem found_maps_are_the_map_files path_join dir entries path :
  path ∈ findMapFiles path_join dir entries [] <-> fileOf path_join dir entries path.
Proof.
  revert dir. induction entries as [|file rest IH|file below IHb rest IH]; intros dir.
  - cbn. split; [|done]. intros H. by apply elem_of_nil in H.
  - cbn [findMapFiles fileOf]. destruct (endsWith file ".js.map").
    + rewrite findMapFiles_acc, elem_of_app, IH. cbn [app].
      rewrite list_elem_of_singleton. split; intros [H|H]; auto.
      left. apply H.
    + rewrite IH. split; [auto|]. intros [[_ H]|H]; [discriminate|done].
  - cbn [findMapFiles fileOf]. rewrite findMapFiles_acc, elem_of_app, IH, IHb. done.
Qed.

End FilesMore.
